(** * NexusPrint: template resolution engine

    A shallow embedding of the currency converters of [services/utils.ts]
    (numberToEnglish, numberToChinese, formatCurrency, formatDate), of the
    text resolution effect of the editor page and of its undo/redo history,
    followed by the properties of the specification that were checked
    against them.

    Conventions of the embedding.
    - A JavaScript string is the list of its UTF-16 code units ([list N]).
      Literals are written as Rocq strings and decoded from UTF-8 by [js].
    - [undefined] is [None]; an array read out of range is [None].
    - A plain object used as a map is the [gmap] of its own properties; a
      read also finds the members inherited from [Object.prototype].
    - A Number is a binary64 value: [NaN], an infinity or
      [(-1)^neg * m * 2^e].  A decimal literal is rounded to the nearest
      such value, ties to even, as engines do; [toFixed] and
      [Number::toString] work on the exact value of the Number.
    - A function that can throw returns an [option]; [None] is the
      TypeError. *)

From Stdlib Require Import ZArith NArith List Ascii String Lia Bool.
From stdpp Require Import base option list gmap.
Import ListNotations.

Local Open Scope Z_scope.

(** ** JavaScript strings *)

Abbreviation jsstr := (list N).

Fixpoint utf8_decode (bs : list N) : list N :=
  match bs with
  | [] => []
  | b0 :: r0 =>
      if (b0 <? 128)%N then b0 :: utf8_decode r0
      else if (b0 <? 224)%N then
        match r0 with
        | b1 :: r1 => ((b0 mod 32) * 64 + b1 mod 64)%N :: utf8_decode r1
        | [] => []
        end
      else
        match r0 with
        | b1 :: b2 :: r2 =>
            ((b0 mod 16) * 4096 + (b1 mod 64) * 64 + b2 mod 64)%N
              :: utf8_decode r2
        | _ => []
        end
  end.

Definition js (s : string) : jsstr :=
  utf8_decode (map N_of_ascii (list_ascii_of_string s)).

(** [a + b] where either side may be [undefined] and at least one side of
    the whole expression is a string: [undefined] prints as "undefined". *)
Definition toStr (o : option jsstr) : jsstr :=
  match o with
  | Some s => s
  | None => js "undefined"
  end.

(** [a + b] where both operands are array reads: two [undefined] add up to
    the number NaN, which then prints as "NaN". *)
Definition jsAdd (a b : option jsstr) : jsstr :=
  match a, b with
  | None, None => js "NaN"
  | _, _ => toStr a ++ toStr b
  end.

(** [arr[k]] for a numeric index that may be NaN ([None]) or negative. *)
Definition idx {A} (arr : list A) (k : option Z) : option A :=
  match k with
  | Some z => if z <? 0 then None else arr !! Z.to_nat z
  | None => None
  end.

Definition isWhite (c : N) : bool :=
  ((9 <=? c) && (c <=? 13) || (c =? 32) || (c =? 160) || (c =? 5760)
   || (8192 <=? c) && (c <=? 8202) || (c =? 8232) || (c =? 8233)
   || (c =? 8239) || (c =? 8287) || (c =? 12288) || (c =? 65279))%N.

Fixpoint trimStart (s : jsstr) : jsstr :=
  match s with
  | c :: r => if isWhite c then trimStart r else s
  | [] => []
  end.

Definition trim (s : jsstr) : jsstr :=
  rev (trimStart (rev (trimStart s))).

Definition isDigit (c : N) : bool := ((48 <=? c) && (c <=? 57))%N.

Fixpoint spanDigits (s : jsstr) : jsstr * jsstr :=
  match s with
  | c :: r =>
      if isDigit c then let '(d, t) := spanDigits r in (c :: d, t)
      else ([], s)
  | [] => ([], [])
  end.

Definition digitsValue (ds : jsstr) : N :=
  fold_left (fun acc c => (acc * 10 + (c - 48))%N) ds 0%N.

(** [str.split(sep)] for a one-character separator. *)
Fixpoint split (sep : N) (s : jsstr) : list jsstr :=
  match s with
  | [] => [[]]
  | c :: r =>
      if (c =? sep)%N then [] :: split sep r
      else match split sep r with
           | p :: ps => (c :: p) :: ps
           | [] => [[c]]
           end
  end.

(** [str.substring(a, b)] for [0 <= a <= b]. *)
Definition substring (s : jsstr) (a b : nat) : jsstr :=
  take (b - a) (drop a s).

Fixpoint digitsFuel (fuel : nat) (n : N) (acc : jsstr) : jsstr :=
  match fuel with
  | O => acc
  | S f =>
      let acc' := (48 + n mod 10)%N :: acc in
      if (n <? 10)%N then acc' else digitsFuel f (n / 10)%N acc'
  end.

(** The decimal digits of a non-negative integer, most significant first. *)
Definition decimalDigits (n : N) : jsstr :=
  digitsFuel (S (N.to_nat (N.log2 n))) n [].

Definition intToString (z : Z) : jsstr :=
  if z <? 0 then js "-" ++ decimalDigits (Z.to_N (- z))
  else decimalDigits (Z.to_N z).

(** ** Numbers *)

(** A Number is a binary64 value: NaN, an infinity, or
    [(-1)^neg * m * 2^e] with [m < 2^53] and [-1074 <= e <= 971], where
    [2^52 <= m] unless [e = -1074]; the zeros are [m = 0], [e = -1074]. *)
Inductive jsnum :=
| NaN
| Inf (neg : bool)
| Fin (neg : bool) (m : N) (e : Z).

Definition isNaN (x : jsnum) : bool :=
  match x with NaN => true | _ => false end.

(** [x === 0] (both zeros compare equal to 0). *)
Definition isZeroNum (x : jsnum) : bool :=
  match x with Fin _ m _ => (m =? 0)%N | _ => false end.

Definition pow2 (k : Z) : N := (2 ^ Z.to_N k)%N.
Definition pow10 (k : Z) : N := (10 ^ Z.to_N k)%N.

(** [p / q >= 2^g]. *)
Definition atLeastPow2 (p q : N) (g : Z) : bool :=
  if 0 <=? g then (q * pow2 g <=? p)%N else (q <=? p * pow2 (- g))%N.

(** The integer [l] with [2^l <= p / q < 2^(l+1)], for [p, q > 0]. *)
Definition log2Ratio (p q : N) : Z :=
  let g := Z.of_N (N.log2 p) - Z.of_N (N.log2 q) in
  if atLeastPow2 p q g then g else g - 1.

(** The integer nearest to [num / den], the even one on a tie. *)
Definition roundEven (num den : N) : N :=
  let d := (num / den)%N in
  let r := (num mod den)%N in
  if (2 * r <? den)%N then d
  else if (den <? 2 * r)%N then (d + 1)%N
  else if N.even d then d else (d + 1)%N.

(** The Number value of the positive rational [p / q], with the sign
    [neg]: the nearest binary64 value, the one with an even significand
    on a tie, an infinity from [2^1024 - 2^970] on. *)
Definition nearestDouble (neg : bool) (p q : N) : jsnum :=
  if (p =? 0)%N then Fin neg 0 (-1074)
  else
    let e := Z.max (-1074) (log2Ratio p q - 52) in
    let m :=
      if 0 <=? e then roundEven p (q * pow2 e)
      else roundEven (p * pow2 (- e)) q in
    let '(m, e) :=
      if (m =? pow2 53)%N then (pow2 52, e + 1) else (m, e) in
    if (m =? 0)%N then Fin neg 0 (-1074)
    else if 971 <? e then Inf neg
    else Fin neg m e.

(** The Number value of the decimal [coef * 10^expo]. *)
Definition ofDecimal (neg : bool) (coef : N) (expo : Z) : jsnum :=
  if 0 <=? expo then nearestDouble neg (coef * pow10 expo) 1
  else nearestDouble neg coef (pow10 (- expo)).

(** [parseInt(s)] in radix 10: leading white space, an optional sign, then
    the longest run of digits; NaN ([None]) when there is no digit.  The
    hexadecimal prefix is not modelled: no string parsed below contains
    the letter x.  The result is the integer itself: the strings parsed
    below are single characters, chunks of four characters, two decimals,
    or the integer digits [toFixed] printed from a Number, all of which
    are Numbers exactly. *)
Definition parseInt (s : jsstr) : option Z :=
  let s := trimStart s in
  let '(neg, s) :=
    match s with
    | 45%N :: r => (true, r)
    | 43%N :: r => (false, r)
    | _ => (false, s)
    end in
  let '(ds, _) := spanDigits s in
  match ds with
  | [] => None
  | _ => let v := Z.of_N (digitsValue ds) in Some (if neg then - v else v)
  end.

(** [parseInt(x)] where [x] may be [undefined]. *)
Definition parseIntU (o : option jsstr) : option Z := parseInt (toStr o).

Definition startsWith (p s : jsstr) : bool :=
  bool_decide (take (length p) s = p).

(** The exponent part [e[+-]digits] of a decimal literal; it is read only
    when at least one digit follows. *)
Definition parseExponent (s : jsstr) : Z :=
  match s with
  | c :: r =>
      if ((c =? 101) || (c =? 69))%N then
        let '(eneg, r) :=
          match r with
          | 45%N :: t => (true, t)
          | 43%N :: t => (false, t)
          | _ => (false, r)
          end in
        let '(ds, _) := spanDigits r in
        match ds with
        | [] => 0
        | _ => let v := Z.of_N (digitsValue ds) in if eneg then - v else v
        end
      else 0
  | [] => 0
  end.

(** [parseFloat(s)]: the longest prefix that is a decimal literal, then
    the Number value of that decimal. *)
Definition parseFloat (s : jsstr) : jsnum :=
  let s := trimStart s in
  let '(neg, s) :=
    match s with
    | 45%N :: r => (true, r)
    | 43%N :: r => (false, r)
    | _ => (false, s)
    end in
  if startsWith (js "Infinity") s then Inf neg
  else
    let '(ip, r) := spanDigits s in
    let '(fp, r) :=
      match r with
      | 46%N :: t => spanDigits t
      | _ => ([], r)
      end in
    match ip ++ fp with
    | [] => NaN
    | ds =>
        ofDecimal neg (digitsValue ds) (parseExponent r - Z.of_nat (length fp))
    end.

(** The Number a decimal literal of the source denotes. *)
Definition num (literal : string) : jsnum := parseFloat (js literal).

(** [|x| >= 10^21] for the finite [x = m * 2^e]. *)
Definition atLeast1e21 (m : N) (e : Z) : bool :=
  if 0 <=? e then (pow10 21 <=? m * pow2 e)%N
  else (pow10 21 * pow2 (- e) <=? m)%N.

(** The integer [n] for which [n / 100] is closest to [m * 2^e], the
    larger one on a tie. *)
Definition roundHundredths (m : N) (e : Z) : N :=
  if 0 <=? e then (100 * m * pow2 e)%N
  else let d := pow2 (- e) in ((200 * m + d) / (2 * d))%N.

(** The [n] of Number::toString with [10^(n-1) <= p / q < 10^n]. *)
Definition decimalExponent (p q : N) : Z :=
  if (q <=? p)%N then Z.of_nat (length (decimalDigits (p / q)))
  else 1 - Z.of_nat (length (decimalDigits ((q - 1) / p))).

(** [p / q * 10^(k-n)] as a fraction: the value with [k] digits before
    the point. *)
Definition scaleTo (p q : N) (n k : Z) : N * N :=
  if 0 <=? k - n then ((p * pow10 (k - n))%N, q)
  else (p, (q * pow10 (n - k))%N).

(** Does the decimal [s * 10^(n-k)] read back as [Fin false m e]? *)
Definition readsBack (m : N) (e : Z) (s : N) (n k : Z) : bool :=
  match ofDecimal false s (n - k) with
  | Fin _ m' e' => (m' =? m)%N && (e' =? e)
  | _ => false
  end.

(** The digits of Number::toString when [k] digits are enough: of the two
    decimals with [k] digits around the value, [lo] and [lo + 1], one that
    reads back as the value, the closer one if both do, the even one on a
    tie.  The decimal [10^k] is the digit 1 with the next exponent.
    With [checked = false] the reading back is taken for granted. *)
Definition candidate (m : N) (e : Z) (p q : N) (n k : Z) (checked : bool)
    : option (N * Z) :=
  let '(num, den) := scaleTo p q n k in
  let lo := (num / den)%N in
  let r := (num mod den)%N in
  let hi := (lo + 1)%N in
  let okLo := negb checked || readsBack m e lo n k in
  let okHi := negb checked || readsBack m e hi n k in
  let hiOut := if (hi =? pow10 k)%N then (pow10 (k - 1), n + 1) else (hi, n) in
  let preferLo :=
    (2 * r <? den)%N || ((2 * r =? den)%N && N.even lo) in
  if okLo && (preferLo || negb okHi) then Some (lo, n)
  else if okHi then Some hiOut
  else None.

(** The digits [s] and the exponent [n] of Number::toString: the least
    number of digits [k] that reads back as the value; 17 digits always
    do. *)
Fixpoint shortest (fuel : nat) (m : N) (e : Z) (p q : N) (n k : Z)
    : N * Z :=
  match fuel with
  | O => default (0%N, n) (candidate m e p q n k false)
  | S f =>
      match candidate m e p q n k true with
      | Some r => r
      | None => shortest f m e p q n (k + 1)
      end
  end.

Definition shortestDigits (m : N) (e : Z) : jsstr * Z :=
  let '(p, q) := if 0 <=? e then ((m * pow2 e)%N, 1%N) else (m, pow2 (- e)) in
  let '(s, n) := shortest 16 m e p q (decimalExponent p q) 1 in
  (decimalDigits s, n).

(** [Number::toString(x)] in radix 10. *)
Definition numberToString (x : jsnum) : jsstr :=
  match x with
  | NaN => js "NaN"
  | Inf neg => (if neg then js "-" else []) ++ js "Infinity"
  | Fin neg m e =>
      if (m =? 0)%N then js "0"
      else
        let '(ds, n) := shortestDigits m e in
        let k := Z.of_nat (length ds) in
        let body :=
          if (k <=? n) && (n <=? 21) then
            ds ++ repeat 48%N (Z.to_nat (n - k))
          else if (0 <? n) && (n <=? 21) then
            take (Z.to_nat n) ds ++ js "." ++ drop (Z.to_nat n) ds
          else if (-6 <? n) && (n <=? 0) then
            js "0." ++ repeat 48%N (Z.to_nat (- n)) ++ ds
          else
            let e := (if n - 1 <? 0 then js "-" else js "+")
                       ++ decimalDigits (Z.to_N (Z.abs (n - 1))) in
            match ds with
            | [d] => [d] ++ js "e" ++ e
            | d :: rest => [d] ++ js "." ++ rest ++ js "e" ++ e
            | [] => []
            end in
        (if neg then js "-" else []) ++ body
  end.

(** [x.toFixed(2)]. *)
Definition toFixed2 (x : jsnum) : jsstr :=
  match x with
  | Fin neg m e =>
      if atLeast1e21 m e then numberToString x
      else
        let n := roundHundredths m e in
        (if neg && negb (m =? 0)%N then js "-" else [])
          ++ decimalDigits (n / 100)
          ++ js "."
          ++ [(48 + (n / 10) mod 10)%N; (48 + n mod 10)%N]
  | _ => numberToString x
  end.

(** [Math.floor(a / b)] for integers [0 < b <= a]: the quotient is
    rounded to a Number before the floor. *)
Definition floorDiv (a b : Z) : Z :=
  match nearestDouble false (Z.to_N a) (Z.to_N b) with
  | Fin _ m e =>
      if 0 <=? e then Z.of_N (m * pow2 e) else Z.of_N (m / pow2 (- e))
  | _ => a
  end.

(** ** Values read from a plain object *)

(** The names every plain object inherits from [Object.prototype]. *)
Definition PROTO_NAMES : list jsstr :=
  map js ["constructor"; "__defineGetter__"; "__defineSetter__";
          "hasOwnProperty"; "__lookupGetter__"; "__lookupSetter__";
          "isPrototypeOf"; "propertyIsEnumerable"; "toString"; "valueOf";
          "__proto__"; "toLocaleString"]%string.

(** A value that is a string, or the member of [Object.prototype] found
    under an inherited name: a function, and for "__proto__" the
    prototype object itself.  Two such members are the same object
    exactly when the names are the same. *)
Inductive jsval :=
| VStr (s : jsstr)
| VProto (name : jsstr).

Definition inherited (key : jsstr) : bool := bool_decide (key ∈ PROTO_NAMES).

(** [obj[key]] on a plain object with the own properties [own]: an own
    property first, then the prototype. *)
Definition getProp (own : gmap jsstr jsstr) (key : jsstr) : option jsval :=
  match own !! key with
  | Some s => Some (VStr s)
  | None => if inherited key then Some (VProto key) else None
  end.

(** [v.toString()] of an inherited member: [Object.prototype] prints
    "[object Object]" and a built-in function its source text, which is
    "function name() { [native code] }" in V8 and JavaScriptCore (the
    layout of these tokens is left to the engine). *)
Definition protoText (name : jsstr) : jsstr :=
  if bool_decide (name = js "__proto__") then js "[object Object]"
  else js "function "
         ++ (if bool_decide (name = js "constructor") then js "Object"
             else name)
         ++ js "() { [native code] }".

(** The argument [amount: number | string] of the converters; the
    resolution effect can also hand over a member of [Object.prototype]. *)
Inductive amount :=
| AmtNum (x : jsnum)
| AmtStr (s : jsstr)
| AmtObj (name : jsstr).

Definition amountToString (a : amount) : jsstr :=
  match a with
  | AmtNum x => numberToString x
  | AmtStr s => s
  | AmtObj name => protoText name
  end.

Definition amountOf (v : jsval) : amount :=
  match v with
  | VStr s => AmtStr s
  | VProto name => AmtObj name
  end.

(** ** English converter *)

Definition ONES : list jsstr :=
  map js [""; "One"; "Two"; "Three"; "Four"; "Five"; "Six"; "Seven";
          "Eight"; "Nine"]%string.
Definition TEENS : list jsstr :=
  map js ["Ten"; "Eleven"; "Twelve"; "Thirteen"; "Fourteen"; "Fifteen";
          "Sixteen"; "Seventeen"; "Eighteen"; "Nineteen"]%string.
Definition TENS : list jsstr :=
  map js [""; ""; "Twenty"; "Thirty"; "Forty"; "Fifty"; "Sixty"; "Seventy";
          "Eighty"; "Ninety"]%string.

(** [n] is an integer below 2^53, where [Math.floor(n / 100)] and
    [Math.floor(n / 10)] are the integer quotients. *)
Definition convertGroup (n : Z) : jsstr :=
  let str : jsstr := [] in
  let '(str, n) :=
    if 100 <=? n
    then (str ++ toStr (idx ONES (Some (n / 100))) ++ js " Hundred ",
          Z.rem n 100)
    else (str, n) in
  let '(str, n) :=
    if 20 <=? n
    then (str ++ toStr (idx TENS (Some (n / 10))) ++ js " ", Z.rem n 10)
    else (str, n) in
  let '(str, n) :=
    if 10 <=? n
    then (str ++ toStr (idx TEENS (Some (n - 10))) ++ js " ", 0)
    else (str, n) in
  let str :=
    if 0 <? n then str ++ toStr (idx ONES (Some n)) ++ js " " else str in
  trim str.

(** One of the three [if (integerPart >= scale) { ... }] blocks. *)
Definition peelScale (scale : Z) (word : jsstr)
    (st : jsstr * option Z) : jsstr * option Z :=
  match st with
  | (result, Some ip) =>
      if scale <=? ip
      then (result ++ convertGroup (floorDiv ip scale) ++ word,
            Some (Z.rem ip scale))
      else st
  | (_, None) => st
  end.

Definition gtZero (o : option Z) : bool :=
  match o with Some z => 0 <? z | None => false end.

Definition numberToEnglish (a : amount) : jsstr :=
  let num := parseFloat (amountToString a) in
  if isNaN num then js "Zero Dollars Only"
  else if isZeroNum num then js "Zero Dollars Only"
  else
    let parts := split 46 (toFixed2 num) in
    let integerPart := parseIntU (parts !! 0%nat) in
    let decimalPart := parseIntU (parts !! 1%nat) in
    let st := ([], integerPart) in
    let st := peelScale 1000000000 (js " Billion ") st in
    let st := peelScale 1000000 (js " Million ") st in
    let st := peelScale 1000 (js " Thousand ") st in
    let '(result, integerPart) := st in
    let result :=
      if gtZero integerPart
      then result ++ convertGroup (default 0 integerPart)
      else result in
    let result := trim result ++ js " Dollars" in
    if gtZero decimalPart
    then result ++ js " And " ++ convertGroup (default 0 decimalPart)
                ++ js " Cents"
    else result ++ js " Only".

(** ** Chinese converter *)

Definition CH_NUMS : list jsstr :=
  map js ["零"; "壹"; "貳"; "參"; "肆"; "伍"; "陸"; "柒"; "捌"; "玖"]%string.
Definition CH_UNITS : list jsstr := map js [""; "拾"; "佰"; "仟"]%string.
Definition CH_GROUPS : list jsstr := map js [""; "萬"; "億"; "兆"]%string.

(** The code units of 零 and 圓. *)
Definition LING : N := 38646%N.
Definition YUAN : N := 22291%N.

(** [k === 0] and [k !== 0] on a number that may be NaN. *)
Definition isZeroInt (k : option Z) : bool :=
  match k with Some z => z =? 0 | None => false end.

(** The inner loop [for (j = 0; j < chunk.length; j++)], run over the
    characters still to visit; [unitIdx] is the number of characters after
    the current one. *)
Fixpoint chunkLoop (chars : jsstr) (groupResult : jsstr) (chunkZero : nat)
    : jsstr :=
  match chars with
  | [] => groupResult
  | c :: rest =>
      let digit := parseInt [c] in
      let unitIdx := length rest in
      if negb (isZeroInt digit) then
        let groupResult :=
          if (0 <? chunkZero)%nat
          then groupResult ++ toStr (CH_NUMS !! 0%nat)
          else groupResult in
        chunkLoop rest
          (groupResult ++ jsAdd (idx CH_NUMS digit) (CH_UNITS !! unitIdx)) 0
      else chunkLoop rest groupResult (S chunkZero)
  end.

Record loopState := LoopState {
  result : jsstr;
  zeroCount : nat;
  groupIndex : nat
}.

(** One iteration of [for (let i = len; i > 0; i -= 4)]. *)
Definition chunkStep (intStr : jsstr) (len i : nat) (st : loopState)
    : loopState :=
  let start := Nat.max 0 (i - 4) in
  let chunk := substring intStr start i in
  let chunkNum := parseInt chunk in
  if isZeroInt chunkNum then
    LoopState (result st)
      (if negb (bool_decide (result st = [])) && negb (i =? len)%nat
       then S (zeroCount st) else zeroCount st)
      (S (groupIndex st))
  else
    let groupResult := chunkLoop chunk [] 0 in
    let result := groupResult ++ toStr (CH_GROUPS !! groupIndex st)
                              ++ result st in
    if (0 <? zeroCount st)%nat
    then LoopState (toStr (CH_NUMS !! 0%nat) ++ result) 0
                   (S (groupIndex st))
    else LoopState result (zeroCount st) (S (groupIndex st)).

(** The outer loop; [None] only when [fuel] iterations did not bring [i]
    down to 0, which [integerLoop_terminates] excludes for [fuel = len]. *)
Fixpoint integerLoop (fuel : nat) (intStr : jsstr) (len i : nat)
    (st : loopState) : option loopState :=
  match i with
  | O => Some st
  | S _ =>
      match fuel with
      | O => None
      | S f => integerLoop f intStr len (i - 4) (chunkStep intStr len i st)
      end
  end.

(** [s.replace(/零+/g, '零')]. *)
Fixpoint collapseZeros (s : jsstr) : jsstr :=
  match s with
  | [] => []
  | c :: r =>
      match r with
      | d :: _ =>
          if (c =? LING)%N && (d =? LING)%N then collapseZeros r
          else c :: collapseZeros r
      | [] => [c]
      end
  end.

(** [s.replace(pat, rep)] for a literal pattern: the first match only. *)
Fixpoint replaceFirst (pat rep s : jsstr) : jsstr :=
  if startsWith pat s then rep ++ drop (length pat) s
  else match s with
       | [] => []
       | c :: r => c :: replaceFirst pat rep r
       end.

(** [s.replace(/^pat/, rep)] for a literal pattern. *)
Definition replacePrefix (pat rep s : jsstr) : jsstr :=
  if startsWith pat s then rep ++ drop (length pat) s else s.

Definition cleanup (s : jsstr) : jsstr :=
  replacePrefix (js "圓") (js "零圓")
    (replaceFirst (js "零圓") (js "圓") (collapseZeros s)).

(** [decStr[k]] then [parseInt]: an index past the end reads [undefined]. *)
Definition digitAt (decStr : jsstr) (k : nat) : option Z :=
  parseIntU ((fun c => [c]) <$> decStr !! k).

(** Lines 133-143: the text appended after 圓. *)
Definition decimalPart (jiao fen : option Z) : jsstr :=
  if isZeroInt jiao && isZeroInt fen then js "整"
  else
    (if gtZero jiao then toStr (idx CH_NUMS jiao) ++ js "角"
     else if isZeroInt jiao && gtZero fen then toStr (CH_NUMS !! 0%nat)
     else [])
    ++ (if gtZero fen then toStr (idx CH_NUMS fen) ++ js "分" else []).

(** Everything after [const str = num.toFixed(2)]. *)
Definition chineseOfFixed (str : jsstr) : option jsstr :=
  let parts := split 46 str in
  let intStr := toStr (parts !! 0%nat) in
  let len := length intStr in
  st ← integerLoop len intStr len len (LoopState [] 0 0);
  let result := result st in
  let result :=
    if bool_decide (result = []) then toStr (CH_NUMS !! 0%nat) else result in
  let result := result ++ js "圓" in
  decStr ← parts !! 1%nat;
  let jiao := digitAt decStr 0 in
  let fen := digitAt decStr 1 in
  Some (cleanup (result ++ decimalPart jiao fen)).

Definition numberToChinese (a : amount) : option jsstr :=
  let num := parseFloat (amountToString a) in
  if isNaN num then Some (js "零圓整")
  else chineseOfFixed (toFixed2 num).

(** ** Numeral converter *)

(** Commas between groups of three digits, built over the reversed digits;
    [k] digits have been emitted since the last comma. *)
Fixpoint insertCommas (rev_ds : jsstr) (k : nat) : jsstr :=
  match rev_ds with
  | [] => []
  | d :: r =>
      if (k =? 3)%nat then 44%N :: d :: insertCommas r 1
      else d :: insertCommas r (S k)
  end.

(** The hundredths [toLocaleString] prints: the digits of Number::toString
    rounded to two decimals, half away from zero.  This is what the
    engines built on ICU print; it differs from [toFixed(2)], which rounds
    the exact binary value. *)
Definition localeHundredths (m : N) (e : Z) : N :=
  if (m =? 0)%N then 0%N
  else
    let '(ds, n) := shortestDigits m e in
    let s := digitsValue ds in
    let x := n - Z.of_nat (length ds) + 2 in
    if 0 <=? x then (s * pow10 x)%N
    else let d := pow10 (- x) in ((2 * s + d) / (2 * d))%N.

(** [num.toLocaleString('en-US', {minimumFractionDigits: 2,
    maximumFractionDigits: 2})]. *)
Definition toLocaleString2 (x : jsnum) : jsstr :=
  match x with
  | NaN => js "NaN"
  | Inf neg => (if neg then js "-" else []) ++ js "∞"
  | Fin neg m e =>
      let n := localeHundredths m e in
      (if neg then js "-" else [])
        ++ rev (insertCommas (rev (decimalDigits (n / 100))) 0)
        ++ js "."
        ++ [(48 + (n / 10) mod 10)%N; (48 + n mod 10)%N]
  end.

Definition formatCurrency (a : amount) : jsstr :=
  let num := parseFloat (amountToString a) in
  if isNaN num then amountToString a
  else toLocaleString2 num.

(** ** Date formatter *)

(** The local calendar fields read from a valid [Date]: [getFullYear()],
    [getMonth()] (0 to 11) and [getDate()]. *)
Record jsdate := JsDate { fullYear : Z; monthIndex : Z; dayOfMonth : Z }.

Definition MONTHS : list jsstr :=
  map js ["January"; "February"; "March"; "April"; "May"; "June"; "July";
          "August"; "September"; "October"; "November"; "December"]%string.

(** The year [toLocaleDateString] prints: the year of the era, so that
    the year 0 is printed as 1 (BC) and the year -1 as 2. *)
Definition yearOfEra (date : jsdate) : Z :=
  if fullYear date <=? 0 then 1 - fullYear date else fullYear date.

(** [s.padStart(2, '0')]. *)
Definition padStart2 (s : jsstr) : jsstr :=
  repeat 48%N (2 - length s) ++ s.

Definition formatDate (date : jsdate) (formatStr : jsstr) : jsstr :=
  let yyyy := intToString (fullYear date) in
  let mm := padStart2 (intToString (monthIndex date + 1)) in
  let dd := padStart2 (intToString (dayOfMonth date)) in
  if bool_decide (formatStr = js "YYYY-MM-DD")
  then yyyy ++ js "-" ++ mm ++ js "-" ++ dd
  else if bool_decide (formatStr = js "DD/MM/YYYY")
  then dd ++ js "/" ++ mm ++ js "/" ++ yyyy
  else if bool_decide (formatStr = js "MM/DD/YYYY")
  then mm ++ js "/" ++ dd ++ js "/" ++ yyyy
  else if bool_decide (formatStr = js "DD Month YYYY")
  then toStr (idx MONTHS (Some (monthIndex date))) ++ js " "
         ++ intToString (dayOfMonth date) ++ js ", "
         ++ intToString (yearOfEra date)
  else yyyy ++ js "-" ++ mm ++ js "-" ++ dd.

(** ** Document model *)

Inductive LogicType :=
| STATIC | VARIABLE | DATE | CURRENCY_ENG | CURRENCY_CHI | CURRENCY_NUM
| CUSTOMER_NAME.

Inductive ObjType := TextObj | ImageObj.
Inductive Align := AlignLeft | AlignCenter | AlignRight.

Record CanvasObject := CanvasObj {
  id : jsstr;
  type : ObjType;
  x : jsnum;
  y : jsnum;
  width : jsnum;
  height : option jsnum;
  text : option jsval;
  rawValue : option jsstr;
  src : option jsstr;
  variableKey : option jsstr;
  fontSize : option jsnum;
  fontFamily : option jsstr;
  align : option Align;
  logicType : option LogicType;
  dateFormat : option jsstr;
  opacity : option jsnum
}.

#[global] Instance jsnum_eq_dec : EqDecision jsnum.
Proof. solve_decision. Defined.
#[global] Instance jsval_eq_dec : EqDecision jsval.
Proof. solve_decision. Defined.
#[global] Instance LogicType_eq_dec : EqDecision LogicType.
Proof. solve_decision. Defined.
#[global] Instance ObjType_eq_dec : EqDecision ObjType.
Proof. solve_decision. Defined.
#[global] Instance Align_eq_dec : EqDecision Align.
Proof. solve_decision. Defined.
#[global] Instance CanvasObject_eq_dec : EqDecision CanvasObject.
Proof. solve_decision. Defined.

(** [{ ...obj, text: newText }]. *)
Definition withText (obj : CanvasObject) (newText : jsval) : CanvasObject :=
  CanvasObj (id obj) (type obj) (x obj) (y obj) (width obj) (height obj)
    (Some newText) (rawValue obj) (src obj) (variableKey obj) (fontSize obj)
    (fontFamily obj) (align obj) (logicType obj) (dateFormat obj)
    (opacity obj).

(** ** Resolution pipeline *)

(** Truthiness of [string | undefined]. *)
Definition truthy (o : option jsstr) : bool :=
  match o with
  | Some (_ :: _) => true
  | _ => false
  end.

(** [s || dflt]. *)
Definition orElse (o : option jsstr) (dflt : jsstr) : jsstr :=
  if truthy o then toStr o else dflt.

(** Truthiness of a value that may be [undefined]: every object is true. *)
Definition truthyV (o : option jsval) : bool :=
  match o with
  | Some (VStr s) => truthy (Some s)
  | Some (VProto _) => true
  | None => false
  end.

(** [v || dflt]. *)
Definition orElseV (o : option jsval) (dflt : jsval) : jsval :=
  if truthyV o then default dflt o else dflt.

(** [printValues[obj.variableKey]]; [printValues] is a plain object, given
    by its own properties. *)
Definition binding (printValues : gmap jsstr jsstr) (obj : CanvasObject)
    : option jsval :=
  getProp printValues (toStr (variableKey obj)).

Definition effectiveValue (printValues : gmap jsstr jsstr)
    (obj : CanvasObject) : jsval :=
  if truthy (variableKey obj)
     && bool_decide (binding printValues obj <> None)
     && bool_decide (binding printValues obj <> Some (VStr []))
  then default (VStr []) (binding printValues obj)
  else VStr (orElse (rawValue obj) []).

(** The [switch (obj.logicType)] computing [newText]; [None] when a
    converter throws. *)
Definition resolveText (now : jsdate) (printValues : gmap jsstr jsstr)
    (obj : CanvasObject) : option jsval :=
  let effectiveValue := effectiveValue printValues obj in
  match logicType obj with
  | Some DATE =>
      Some (VStr (formatDate now
                    (orElse (dateFormat obj) (js "YYYY-MM-DD"))))
  | Some CURRENCY_ENG =>
      Some (VStr (numberToEnglish (amountOf effectiveValue)))
  | Some CURRENCY_CHI => VStr <$> numberToChinese (amountOf effectiveValue)
  | Some CURRENCY_NUM =>
      Some (VStr (formatCurrency (amountOf effectiveValue)))
  | Some VARIABLE =>
      let newText :=
        if truthy (variableKey obj) && truthyV (binding printValues obj)
        then effectiveValue
        else VStr (js "{{" ++ orElse (variableKey obj) (js "var")
                           ++ js "}}") in
      let newText :=
        if truthy (variableKey obj)
           && bool_decide (binding printValues obj <> None)
        then effectiveValue
        else newText in
      Some newText
  | Some CUSTOMER_NAME => Some effectiveValue
  | _ => Some effectiveValue
  end.

(** The callback of [currentObjs.map]. *)
Definition resolveObject (now : jsdate) (printValues : gmap jsstr jsstr)
    (obj : CanvasObject) : option CanvasObject :=
  match type obj with
  | ImageObj => Some obj
  | TextObj =>
      newText ← resolveText now printValues obj;
      Some (if bool_decide (Some newText <> text obj)
            then withText obj newText else obj)
  end.

(** What [JSON.stringify] writes for a Number: [null] ([None]) for NaN and
    the infinities, the text of Number::toString otherwise. *)
Definition jsonNumber (x : jsnum) : option jsstr :=
  match x with
  | Fin _ _ _ => Some (numberToString x)
  | _ => None
  end.

(** What [JSON.stringify] writes for [text]: nothing for [undefined] and
    for a function, the string, and an empty object for
    [Object.prototype]. *)
Inductive jsonText :=
| JAbsent
| JString (s : jsstr)
| JEmptyObject.

#[global] Instance jsonText_eq_dec : EqDecision jsonText.
Proof. solve_decision. Defined.

Definition jsonOfText (t : option jsval) : jsonText :=
  match t with
  | None => JAbsent
  | Some (VStr s) => JString s
  | Some (VProto name) =>
      if bool_decide (name = js "__proto__") then JEmptyObject else JAbsent
  end.

(** The content of the JSON text of a field; two fields have the same
    JSON text exactly when they have the same content. *)
Definition toJSON (o : CanvasObject) :=
  (id o, type o, jsonNumber (x o), jsonNumber (y o), jsonNumber (width o),
   jsonNumber <$> height o, jsonOfText (text o), rawValue o, src o,
   variableKey o, jsonNumber <$> fontSize o, fontFamily o, align o,
   logicType o, dateFormat o, jsonNumber <$> opacity o).

(** The state updater of the resolution effect. *)
Definition resolveObjects (now : jsdate) (printValues : gmap jsstr jsstr)
    (currentObjs : list CanvasObject) : option (list CanvasObject) :=
  updated ← mapM (resolveObject now printValues) currentObjs;
  let hasChanges :=
    bool_decide (map toJSON updated <> map toJSON currentObjs) in
  Some (if hasChanges then updated else currentObjs).

(** ** Editing session: field collection and undo/redo history *)

Abbreviation snapshot := (list CanvasObject).

(** The state cells of [EditorPage] that the handlers below touch.
    [objects] is [None] when it has been set to [undefined]. *)
Record Editor := MkEditor {
  objects : option snapshot;
  selectedId : option jsstr;
  history : list snapshot;
  historyIndex : Z
}.

(** [arr.slice(0, e)]; a negative [e] counts from the end. *)
Definition slice0 {A} (arr : list A) (e : Z) : list A :=
  if e <? 0 then take (length arr - Z.to_nat (- e)) arr
  else take (Z.to_nat e) arr.

Definition saveToHistory (newObjects : snapshot) (st : Editor) : Editor :=
  let newHistory := slice0 (history st) (historyIndex st + 1) in
  let newHistory := newHistory ++ [newObjects] in
  let newHistory :=
    if (50 <? length newHistory)%nat then tail newHistory else newHistory in
  MkEditor (objects st) (selectedId st) newHistory
    (Z.min (historyIndex st + 1) 49).

Definition updateObjects (newObjs : snapshot) (recordHistory : bool)
    (st : Editor) : Editor :=
  let st :=
    MkEditor (Some newObjs) (selectedId st) (history st) (historyIndex st) in
  if recordHistory then saveToHistory newObjs st else st.

Definition handleUndo (st : Editor) : Editor :=
  if 0 <? historyIndex st then
    let newIndex := historyIndex st - 1 in
    MkEditor (idx (history st) (Some newIndex)) (selectedId st) (history st)
      newIndex
  else st.

Definition handleRedo (st : Editor) : Editor :=
  if historyIndex st <? Z.of_nat (length (history st)) - 1 then
    let newIndex := historyIndex st + 1 in
    MkEditor (idx (history st) (Some newIndex)) (selectedId st) (history st)
      newIndex
  else st.

(** [None] when [objects] is [undefined] and [objects.filter] throws. *)
Definition handleDeleteObject (objId : jsstr) (st : Editor) : option Editor :=
  objs ← objects st;
  let newList := filter (fun o => id o <> objId) objs in
  let st' := updateObjects newList true st in
  Some (if bool_decide (selectedId st = Some objId)
        then MkEditor (objects st') None (history st') (historyIndex st')
        else st').

(** The session right after a template with fields [s0] was loaded (or,
    with [s0 = []], after a new template was opened): one snapshot, index
    0, and the live collection equal to it. *)
Definition initial (s0 : snapshot) : Editor := MkEditor (Some s0) None [s0] 0.

(** A [record] call of the history manager is [updateObjects] with the
    default [recordHistory = true]. *)
Definition record (s : snapshot) (st : Editor) : Editor :=
  updateObjects s true st.

Inductive histOp :=
| OpRecord (s : snapshot)
| OpUndo
| OpRedo.

Definition runOp (st : Editor) (op : histOp) : Editor :=
  match op with
  | OpRecord s => record s st
  | OpUndo => handleUndo st
  | OpRedo => handleRedo st
  end.

Definition runOps (ops : list histOp) (st : Editor) : Editor :=
  fold_left runOp ops st.

Definition recordAll (ss : list snapshot) (st : Editor) : Editor :=
  fold_left (fun st s => record s st) ss st.

Definition undoN (k : nat) (st : Editor) : Editor := Nat.iter k handleUndo st.

(** The snapshot the index points at. *)
Definition current (st : Editor) : option snapshot :=
  idx (history st) (Some (historyIndex st)).

(** The [text] of the field the callback of the resolution effect
    returns; [None] when it threw. *)
Definition resolvedText (now : jsdate) (printValues : gmap jsstr jsstr)
    (obj : CanvasObject) : option jsval :=
  obj' ← resolveObject now printValues obj;
  text obj'.

(** A text field as the add handlers create it, with a logic kind and an
    optional variable key. *)
Definition sampleField (key : option jsstr) (raw : jsstr)
    (kind : LogicType) : CanvasObject :=
  CanvasObj (js "k3x9q2m1a") TextObj (num "50") (num "50") (num "200")
    None (Some (VStr raw)) (Some raw) None key (Some (num "16"))
    (Some (js "Arial")) (Some AlignLeft) (Some kind) None None.

(** [n] different snapshots: the k-th holds k fields. *)
Definition snapshots (n : nat) : list snapshot :=
  map (fun k => replicate k (sampleField None (js "Text") STATIC)) (seq 1 n).

(** ** Properties named by the specification *)

(** The states of the history manager: the index points into a history of
    at most 50 snapshots, and the live collection is the snapshot under
    the index. *)
Definition wf (st : Editor) : Prop :=
  0 <= historyIndex st < Z.of_nat (length (history st))
  /\ (length (history st) <= 50)%nat
  /\ objects st = current st.

(** Two consecutive 零 glyphs somewhere in [r]. *)
Definition consecutiveZeros (r : jsstr) : Prop :=
  exists a b, r = a ++ LING :: LING :: b.

Definition headIsZero (s : jsstr) : bool :=
  match s with
  | d :: _ => (d =? LING)%N
  | [] => false
  end.

(** The executable form of [~ consecutiveZeros]. *)
Fixpoint noDoubleZero (s : jsstr) : bool :=
  match s with
  | [] => true
  | c :: r => negb ((c =? LING)%N && headIsZero r) && noDoubleZero r
  end.

(** No 圓 in [s]. *)
Definition noYuan (s : jsstr) : Prop := Forall (fun c => c <> YUAN) s.

(** The decimal digits. *)
Definition digits10 : list N := [0; 1; 2; 3; 4; 5; 6; 7; 8; 9]%N.

(** A Number on which [toFixed(2)] has no two decimals to split off: an
    infinity, or a magnitude of at least 10^21, printed as Number::toString
    prints it. *)
Definition tooLarge (x : jsnum) : bool :=
  match x with
  | NaN => false
  | Inf _ => true
  | Fin _ m e => atLeast1e21 m e
  end.

(** The glyph of a decimal digit. *)
Definition glyph (d : N) : jsstr := toStr (CH_NUMS !! N.to_nat d).

(** The decimal part in the words of the specification: 整 when jiao and
    fen are both zero; 零, the fen digit and 分 when only jiao is zero;
    otherwise the jiao digit and 角, then the fen digit and 分 when fen is
    not zero. *)
Definition decimalSuffixSpec (jiao fen : N) : jsstr :=
  if ((jiao =? 0) && (fen =? 0))%N then js "整"
  else if (jiao =? 0)%N then [LING] ++ glyph fen ++ js "分"
  else glyph jiao ++ js "角"
         ++ (if (fen =? 0)%N then [] else glyph fen ++ js "分").

(** [n / 100] is the multiple of one hundredth nearest to [m * 2^e], the
    larger one on a tie: [n - 1/2 <= 100 * m * 2^e < n + 1/2]. *)
Definition nearestHundredth (m : N) (e : Z) (n : N) : Prop :=
  if 0 <=? e then n = (100 * m * pow2 e)%N
  else (2 * n * pow2 (- e) <= 200 * m + pow2 (- e)
        /\ 200 * m + pow2 (- e) < (2 * n + 2) * pow2 (- e))%N.

(** The jiao and fen digits of a finite amount [m * 2^e]: the last two
    digits of its value in hundredths. *)
Definition jiaoOf (m : N) (e : Z) : N :=
  ((roundHundredths m e / 10) mod 10)%N.
Definition fenOf (m : N) (e : Z) : N :=
  (roundHundredths m e mod 10)%N.

(** The precedence rule of the specification for the effective value:
    the binding when [variableKey] is set and bound to a non-empty value,
    [rawValue] otherwise. *)
Definition effectiveSpec (printValues : gmap jsstr jsstr)
    (obj : CanvasObject) : jsstr :=
  match variableKey obj with
  | Some (c :: k) =>
      match printValues !! (c :: k) with
      | Some (d :: v) => d :: v
      | _ => default [] (rawValue obj)
      end
  | _ => default [] (rawValue obj)
  end.

(** The variable key of a field reads a member of [Object.prototype]: the
    key is set, the print values have no own entry for it, and it is one
    of the inherited names. *)
Definition readsInherited (printValues : gmap jsstr jsstr)
    (obj : CanvasObject) : bool :=
  truthy (variableKey obj)
  && bool_decide (printValues !! toStr (variableKey obj) = None)
  && inherited (toStr (variableKey obj)).

(** The placeholder of a Variable field. *)
Definition placeholder (obj : CanvasObject) : jsstr :=
  js "{{" ++ (match variableKey obj with
              | Some (c :: k) => c :: k
              | _ => js "var"
              end) ++ js "}}".

(** ** Further handlers of the editor page *)

(** [objects.map(o => o.id === updated.id ? updated : o)]. *)
Definition replaceById (updated : CanvasObject) (objs : snapshot) : snapshot :=
  map (fun o => if bool_decide (id o = id updated) then updated else o) objs.

(** The [onUpdateObject] and [onChangeObject] callbacks of the editor page;
    [None] when [objects] is [undefined] and [objects.map] throws. *)
Definition handleChangeObject (updated : CanvasObject) (st : Editor)
    : option Editor :=
  objs ← objects st;
  Some (updateObjects (replaceById updated objs) true st).

(** The body shared by the add handlers: [newList = [...objects, newObj]],
    [updateObjects(newList)], [setSelectedId(newObj.id)]. *)
Definition addObject (newObj : CanvasObject) (st : Editor) : option Editor :=
  objs ← objects st;
  let st' := updateObjects (objs ++ [newObj]) true st in
  Some (MkEditor (objects st') (Some (id newObj)) (history st')
          (historyIndex st')).

(** The object of [handleAddText]; [newId] is what [generateId()] gave. *)
Definition newTextObject (newId : jsstr) : CanvasObject :=
  CanvasObj newId TextObj (num "50") (num "50") (num "200")
    None (Some (VStr (js "Text"))) (Some (js "Text")) None None
    (Some (num "16")) (Some (js "Arial")) (Some AlignLeft)
    (Some STATIC) None None.


(** The fields with their [text] blanked: what two collections share when
    they differ only in resolved text. *)
Definition stripText (objs : snapshot) : snapshot :=
  map (fun o => withText o (VStr [])) objs.

(** What can happen in an editing session: the edits of the user and the
    resolution effect, which rewrites [objects] without recording it. *)
Inductive editOp :=
| EAdd (newObj : CanvasObject)
| EDelete (objId : jsstr)
| EChange (updated : CanvasObject)
| EUndo
| ERedo
| EResolve (now : jsdate) (printValues : gmap jsstr jsstr).

Definition runEdit (op : editOp) (st : Editor) : option Editor :=
  match op with
  | EAdd o => addObject o st
  | EDelete i => handleDeleteObject i st
  | EChange u => handleChangeObject u st
  | EUndo => Some (handleUndo st)
  | ERedo => Some (handleRedo st)
  | EResolve now printValues =>
      objs ← objects st;
      objs' ← resolveObjects now printValues objs;
      Some (MkEditor (Some objs') (selectedId st) (history st)
              (historyIndex st))
  end.

Fixpoint runEdits (ops : list editOp) (st : Editor) : option Editor :=
  match ops with
  | [] => Some st
  | op :: rest => st' ← runEdit op st; runEdits rest st'
  end.

(** The edits that are recorded in the history. *)
Definition recorded (op : editOp) : bool :=
  match op with
  | EAdd _ | EDelete _ | EChange _ => true
  | _ => false
  end.

(** The state with the live collection replaced by the snapshot under the
    index. *)
Definition normalize (st : Editor) : Editor :=
  MkEditor (current st) (selectedId st) (history st) (historyIndex st).

(** What a session keeps: the index points into a history of at most 50
    snapshots, and the live collection is the snapshot under the index
    up to resolved text. *)
Definition sessionInv (st : Editor) : Prop :=
  0 <= historyIndex st < Z.of_nat (length (history st))
  /\ (length (history st) <= 50)%nat
  /\ exists objs cur,
       objects st = Some objs /\ current st = Some cur
       /\ stripText objs = stripText cur.

Definition redoN (k : nat) (st : Editor) : Editor := Nat.iter k handleRedo st.

(** ** Sidebar: editing the value of the selected field *)

(** [handleTextChange]: the object handed to [onUpdateObject], if any. *)
Definition handleTextChange (value : jsstr)
    (selectedObject : option CanvasObject) : option CanvasObject :=
  match selectedObject with
  | Some o =>
      match type o with
      | TextObj =>
          Some (CanvasObj (id o) (type o) (x o) (y o) (width o) (height o)
                  (Some (if bool_decide (logicType o = Some STATIC)
                         then VStr value else orElseV (text o) (VStr [])))
                  (Some value) (src o) (variableKey o) (fontSize o)
                  (fontFamily o) (align o) (logicType o) (dateFormat o)
                  (opacity o))
      | ImageObj => None
      end
  | None => None
  end.

(** ** Print form: the variables of a template and their values *)

(** [Array.from(new Set(arr))]: the first occurrence of each value, in
    order; [seen] holds the values already in the set. *)
Fixpoint uniqueFrom (seen : list jsstr) (arr : list jsstr) : list jsstr :=
  match arr with
  | [] => []
  | v :: rest =>
      if bool_decide (v ∈ seen) then uniqueFrom seen rest
      else v :: uniqueFrom (v :: seen) rest
  end.

(** [o.variableKey && o.variableKey.trim() !== '']. *)
Definition hasVariableKey (o : CanvasObject) : bool :=
  truthy (variableKey o)
  && negb (bool_decide (trim (toStr (variableKey o)) = [])).

Definition uniqueVars (objects : snapshot) : list jsstr :=
  uniqueFrom []
    (map (fun o => toStr (variableKey o))
       (filter (fun o => hasVariableKey o = true) objects)).

(** The updater of [setValues] in the effect that extracts the variables:
    every variable for which [next[v]] reads [undefined] gets the empty
    string. *)
Definition ensureValues (uniqueVars : list jsstr) (prev : gmap jsstr jsstr)
    : gmap jsstr jsstr :=
  fold_left (fun next v =>
               if bool_decide (getProp next v = None) then <[v := []]> next
               else next)
    uniqueVars prev.

(** [handleChange]: [{ ...values, [key]: val }], which is also what the
    editor page receives as [printValues]. *)
Definition handleChange (key val : jsstr) (values : gmap jsstr jsstr)
    : gmap jsstr jsstr :=
  <[key := val]> values.

(** ** Rendering order *)

Definition isImage (o : CanvasObject) : bool :=
  bool_decide (type o = ImageObj).

(** The comparator of [sortedObjects] in the canvas and the print view. *)
Definition zCompare (a b : CanvasObject) : Z :=
  if isImage a && negb (isImage b) then -1
  else if negb (isImage a) && isImage b then 1
  else 0.

(** [arr.sort(cmp)] is a stable sort: as an insertion sort, each element
    goes in front of the first one that compares greater. *)
Fixpoint insertBy {A} (cmp : A -> A -> Z) (a : A) (sorted : list A)
    : list A :=
  match sorted with
  | [] => [a]
  | b :: rest =>
      if 0 <? cmp b a then a :: sorted else b :: insertBy cmp a rest
  end.

Definition sortBy {A} (cmp : A -> A -> Z) (arr : list A) : list A :=
  fold_left (fun sorted a => insertBy cmp a sorted) arr [].

Definition sortedObjects (objects : snapshot) : snapshot :=
  sortBy zCompare objects.

(** ** Local storage of templates and print records

    The stored item is modelled by the value its JSON text parses to;
    [None] is a missing item.  A value that is written is kept as it is:
    reading it back gives a value with the same JSON content (a NaN or
    infinite Number comes back as [null]), and the statements about what
    is read back go no further than that content.  The [catch] branches,
    taken when the storage itself fails, are outside the model. *)
Module Storage.

Inductive Unit := mm | inch.

Record CanvasSettings := MkSettings {
  width : jsnum;
  height : jsnum;
  unit : Unit;
  widthUnit : jsnum;
  heightUnit : jsnum;
  dpi : jsnum
}.

Record Template := MkTemplate {
  id : jsstr;
  user_id : option jsstr;
  name : jsstr;
  objects : snapshot;
  settings : CanvasSettings;
  is_public : bool;
  updatedAt : jsstr
}.





(** The local part of [getTemplateById]: [templates.find(t => t.id === id)],
    [None] when nothing is stored or nothing is found. *)
Definition findLocal (tid : jsstr) (stored : option (list Template))
    : option Template :=
  templates ← stored;
  List.find (fun t => bool_decide (id t = tid)) templates.

(** The local part of [deleteTemplate]: the new stored list and
    [deletedLocally]. *)
Definition deleteLocal (tid : jsstr) (stored : option (list Template))
    : option (list Template) * bool :=
  match stored with
  | Some templates =>
      if existsb (fun t => bool_decide (id t = tid)) templates
      then (Some (filter (fun t => id t <> tid) templates), true)
      else (stored, false)
  | None => (None, false)
  end.



End Storage.

(** ** Shapes of converter outputs *)

Definition isUpper (c : N) : bool := ((65 <=? c) && (c <=? 90))%N.
Definition isLower (c : N) : bool := ((97 <=? c) && (c <=? 122))%N.

(** Capitalised words separated by single spaces; [atStart] says that a
    word has to start here. *)
Fixpoint capitalised (atStart : bool) (s : jsstr) : bool :=
  match s with
  | [] => negb atStart
  | c :: r =>
      if atStart then isUpper c && capitalised false r
      else if (c =? 32)%N then capitalised true r
      else isLower c && capitalised false r
  end.

(** English words: not empty, each word a capital followed by small
    letters, single spaces between the words and none at either end. *)
Definition wellFormedWords (s : jsstr) : bool := capitalised true s.

(** The cents clause of numberToEnglish for [c] cents. *)
Definition centsClause (c : Z) : jsstr :=
  if 0 <? c then js " And " ++ convertGroup c ++ js " Cents"
  else js " Only".

(** numberToEnglish from [let result = ''] on, given what the two
    [parseInt] calls returned. *)
Definition englishBody (integerPart decimalPart : option Z) : jsstr :=
  let st := ([], integerPart) in
  let st := peelScale 1000000000 (js " Billion ") st in
  let st := peelScale 1000000 (js " Million ") st in
  let st := peelScale 1000 (js " Thousand ") st in
  let '(result, integerPart) := st in
  let result :=
    if gtZero integerPart
    then result ++ convertGroup (default 0 integerPart)
    else result in
  let result := trim result ++ js " Dollars" in
  if gtZero decimalPart
  then result ++ js " And " ++ convertGroup (default 0 decimalPart)
              ++ js " Cents"
  else result ++ js " Only".

(** The integer part and the cents of a finite amount [m * 2^e], as
    toFixed(2) prints them. *)
Definition integerOf (neg : bool) (m : N) (e : Z) : Z :=
  let q := Z.of_N (roundHundredths m e / 100) in
  if neg && negb (m =? 0)%N then - q else q.
Definition centsOf (m : N) (e : Z) : Z :=
  Z.of_N (roundHundredths m e mod 100).



(** ** Sanity checks of the embedding on concrete inputs *)

Example numberToEnglish_negative :
  numberToEnglish (AmtStr (js "-5")) = js " Dollars Only".
Proof. vm_compute. reflexivity. Qed.

Example toFixed2_rounding :
  toFixed2 (parseFloat (js "1234.5")) = js "1234.50"
  /\ toFixed2 (parseFloat (js "-0.001")) = js "-0.00"
  /\ toFixed2 (parseFloat (js "1e21")) = js "1e+21"
  /\ numberToString (parseFloat (js "1234.56")) = js "1234.56".
Proof. vm_compute. repeat split. Qed.

Example binary64_samples :
  toFixed2 (num "2.675") = js "2.67"
  /\ toFixed2 (num "1.005") = js "1.00"
  /\ toFixed2 (num "0.125") = js "0.13"
  /\ toFixed2 (num "999999999999999999999") = js "1e+21"
  /\ num "1e400" = Inf false
  /\ num "1e-400" = num "0"
  /\ numberToString (num "0.1") = js "0.1"
  /\ numberToString (num "123456789012345678901234567890")
     = js "1.2345678901234568e+29"
  /\ numberToString (num "0.0000001") = js "1e-7"
  /\ floorDiv 624347347957999992832 1000000000 = 624347347958
  /\ 624347347957999992832 / 1000000000 = 624347347957
  /\ numberToEnglish (AmtStr (js "1e-400")) = js "Zero Dollars Only"
  /\ numberToEnglish (AmtStr (js "999999999999999999999"))
     = js "One Dollars Only"
  /\ numberToChinese (AmtStr (js "1.5e21")) = Some (js "壹圓伍角").
Proof. vm_compute. repeat split. Qed.

Example numberToChinese_samples :
  numberToChinese (AmtNum (num "1234.56"))
    = Some (js "壹仟貳佰參拾肆圓伍角陸分")
  /\ numberToChinese (AmtStr (js "10.05")) = Some (js "壹拾圓零伍分")
  /\ numberToChinese (AmtStr (js "100010000")) = Some (js "壹億零壹萬圓整")
  /\ numberToChinese (AmtStr (js "-5")) = Some (js "undefined拾伍圓整")
  /\ numberToChinese (AmtStr (js "Infinity")) = None
  /\ numberToChinese (AmtStr (js "1e21")) = None.
Proof. vm_compute. repeat split. Qed.

Example chunkLoop_samples :
  chunkLoop (js "1001") [] 0 = js "壹仟零壹"
  /\ chunkLoop (js "0001") [] 0 = js "零壹"
  /\ chunkLoop (js "1200") [] 0 = js "壹仟貳佰"
  /\ chunkLoop (js "-5") [] 0 = js "undefined拾伍".
Proof. vm_compute. repeat split. Qed.

Example formatDate_samples :
  formatDate (JsDate 2024 0 5) (js "YYYY-MM-DD") = js "2024-01-05"
  /\ formatDate (JsDate 2024 0 5) (js "DD/MM/YYYY") = js "05/01/2024"
  /\ formatDate (JsDate 2024 11 25) (js "DD Month YYYY")
     = js "December 25, 2024"
  /\ formatDate (JsDate 2024 0 5) (js "YYYY") = js "2024-01-05".
Proof. vm_compute. repeat split. Qed.

Example formatCurrency_samples :
  formatCurrency (AmtNum (num "1234.5")) = js "1,234.50"
  /\ formatCurrency (AmtStr (js "1234567.891")) = js "1,234,567.89"
  /\ formatCurrency (AmtStr (js "abc")) = js "abc"
  /\ formatCurrency (AmtStr (js "1e400")) = js "∞"
  /\ formatCurrency (AmtStr (js "9007199254740993"))
     = js "9,007,199,254,740,992.00"
  /\ formatCurrency (AmtStr (js "1e21"))
     = js "1,000,000,000,000,000,000,000.00".
Proof. vm_compute. repeat split. Qed.

Example inherited_members :
  getProp ∅ (js "constructor") = Some (VProto (js "constructor"))
  /\ getProp {[ js "constructor" := js "x" ]} (js "constructor")
     = Some (VStr (js "x"))
  /\ getProp ∅ (js "amount") = None
  /\ numberToEnglish (AmtObj (js "constructor")) = js "Zero Dollars Only"
  /\ numberToChinese (AmtObj (js "__proto__")) = Some (js "零圓整")
  /\ resolvedText (JsDate 2024 0 15) ∅
       (sampleField (Some (js "toString")) (js "Text") VARIABLE)
     = Some (VProto (js "toString")).
Proof. vm_compute. repeat split. Qed.

(** A function in [text] is invisible in the JSON text: when [text] was
    [undefined] the effect sees no change and keeps the list it had. *)
Example resolveObjects_function_text :
  let field :=
    CanvasObj (js "f1") TextObj (num "50") (num "50") (num "200") None None
      (Some (js "Text")) None (Some (js "constructor")) None None None
      (Some VARIABLE) None None in
  resolveObject (JsDate 2024 0 15) ∅ field
  = Some (withText field (VProto (js "constructor")))
  /\ resolveObjects (JsDate 2024 0 15) ∅ [field] = Some [field].
Proof. vm_compute. repeat split. Qed.

Example formatDate_era :
  formatDate (JsDate 0 0 1) (js "DD Month YYYY") = js "January 1, 1"
  /\ formatDate (JsDate (-1) 0 1) (js "DD Month YYYY") = js "January 1, 2"
  /\ formatDate (JsDate (-1) 0 1) (js "YYYY-MM-DD") = js "-1-01-01".
Proof. vm_compute. repeat split. Qed.

(** ** The final cleanup of numberToChinese *)

Lemma cleanup_eq s :
  cleanup s
  = replacePrefix [YUAN] [LING; YUAN]
      (replaceFirst [LING; YUAN] [YUAN] (collapseZeros s)).
Proof. reflexivity. Qed.

Lemma collapseZeros_cons2 c d r :
  collapseZeros (c :: d :: r)
  = if ((c =? LING) && (d =? LING))%N then collapseZeros (d :: r)
    else c :: collapseZeros (d :: r).
Proof. reflexivity. Qed.

Lemma replaceFirst_LY s :
  replaceFirst [LING; YUAN] [YUAN] s
  = match s with
    | c :: d :: t =>
        if ((c =? LING) && (d =? YUAN))%N then YUAN :: t
        else c :: replaceFirst [LING; YUAN] [YUAN] (d :: t)
    | _ => s
    end.
Proof.
  destruct s as [|c [|d t]]; [reflexivity | |].
  { unfold replaceFirst, startsWith. cbn [length take].
    rewrite !bool_decide_eq_false_2 by discriminate. reflexivity. }
  unfold replaceFirst at 1; fold replaceFirst.
  unfold startsWith. cbn [length take].
  destruct (N.eqb_spec c LING) as [-> | Hc]; cbn [andb].
  - destruct (N.eqb_spec d YUAN) as [-> | Hd].
    + rewrite bool_decide_eq_true_2 by reflexivity. reflexivity.
    + rewrite bool_decide_eq_false_2 by congruence. reflexivity.
  - rewrite bool_decide_eq_false_2 by congruence. reflexivity.
Qed.

Lemma replacePrefix_Y s :
  replacePrefix [YUAN] [LING; YUAN] s
  = match s with
    | c :: t => if (c =? YUAN)%N then LING :: YUAN :: t else s
    | [] => []
    end.
Proof.
  destruct s as [|c t]; [reflexivity|].
  unfold replacePrefix, startsWith. cbn [length take].
  destruct (N.eqb_spec c YUAN) as [-> | Hc].
  - rewrite bool_decide_eq_true_2 by reflexivity. reflexivity.
  - rewrite bool_decide_eq_false_2 by congruence. reflexivity.
Qed.

Lemma headIsZero_collapse s : headIsZero (collapseZeros s) = headIsZero s.
Proof.
  induction s as [|c r IH]; [reflexivity|].
  destruct r as [|d t]; [reflexivity|].
  rewrite collapseZeros_cons2.
  destruct (c =? LING)%N eqn:Hc, (d =? LING)%N eqn:Hd; cbn [andb];
    try reflexivity.
  rewrite IH. cbn [headIsZero]. congruence.
Qed.

Lemma noDoubleZero_collapse s : noDoubleZero (collapseZeros s) = true.
Proof.
  induction s as [|c r IH]; [reflexivity|].
  destruct r as [|d t].
  { cbn. rewrite andb_false_r. reflexivity. }
  rewrite collapseZeros_cons2.
  destruct ((c =? LING) && (d =? LING))%N eqn:Hcd; [exact IH|].
  cbn [noDoubleZero]. rewrite IH, headIsZero_collapse.
  cbn [headIsZero]. rewrite Hcd. reflexivity.
Qed.

Lemma headIsZero_replaceFirst s :
  headIsZero (replaceFirst [LING; YUAN] [YUAN] s) = true ->
  headIsZero s = true.
Proof.
  rewrite replaceFirst_LY.
  destruct s as [|c [|d t]]; try (intro H; exact H).
  destruct ((c =? LING) && (d =? YUAN))%N; [discriminate|].
  intro H; exact H.
Qed.

Lemma noDoubleZero_replaceFirst s :
  noDoubleZero s = true ->
  noDoubleZero (replaceFirst [LING; YUAN] [YUAN] s) = true.
Proof.
  induction s as [|c r IH]; [intros _; reflexivity|].
  rewrite replaceFirst_LY.
  destruct r as [|d t]; [intro H; exact H|].
  intros H. cbn [noDoubleZero] in H.
  apply andb_prop in H as [Hcd Hr].
  destruct ((c =? LING) && (d =? YUAN))%N.
  - cbn [noDoubleZero] in Hr. apply andb_prop in Hr as [_ Ht].
    cbn [noDoubleZero headIsZero]. rewrite Ht. reflexivity.
  - cbn [noDoubleZero]. rewrite (IH Hr), andb_true_r.
    destruct (c =? LING)%N; [|reflexivity]. cbn [andb negb] in *.
    destruct (headIsZero (replaceFirst [LING; YUAN] [YUAN] (d :: t))) eqn:E;
      [|reflexivity].
    apply headIsZero_replaceFirst in E. rewrite E in Hcd. discriminate.
Qed.

Lemma noDoubleZero_replacePrefix s :
  noDoubleZero s = true ->
  noDoubleZero (replacePrefix [YUAN] [LING; YUAN] s) = true.
Proof.
  rewrite replacePrefix_Y. destruct s as [|c t]; [intro H; exact H|].
  destruct (N.eqb_spec c YUAN) as [-> | Hc]; [|intro H; exact H].
  intros H. cbn [noDoubleZero] in *. cbn [headIsZero].
  apply andb_prop in H as [_ Ht]. rewrite Ht. reflexivity.
Qed.

Lemma noDoubleZero_cleanup s : noDoubleZero (cleanup s) = true.
Proof.
  rewrite cleanup_eq.
  apply noDoubleZero_replacePrefix, noDoubleZero_replaceFirst,
    noDoubleZero_collapse.
Qed.

Lemma noDoubleZero_sound r : noDoubleZero r = true -> ~ consecutiveZeros r.
Proof.
  intros H (a & b & ->). induction a as [|c a IH].
  - cbn in H. discriminate.
  - cbn [app noDoubleZero] in H. apply andb_prop in H as [_ H]. auto.
Qed.

Lemma noDoubleZero_complete r : ~ consecutiveZeros r -> noDoubleZero r = true.
Proof.
  induction r as [|c r IH]; [reflexivity|]. intros H.
  cbn [noDoubleZero]. rewrite IH.
  - rewrite andb_true_r.
    destruct (N.eqb_spec c LING) as [-> | Hc]; [|reflexivity].
    destruct r as [|d t]; [reflexivity|]. cbn [headIsZero andb].
    destruct (N.eqb_spec d LING) as [-> | Hd]; [|reflexivity].
    exfalso. apply H. exists [], t. reflexivity.
  - intros (a & b & ->). apply H. exists (c :: a), b. reflexivity.
Qed.

(** ** The integer loop of numberToChinese *)

Lemma integerLoop_terminates fuel intStr len i st :
  (i <= fuel)%nat -> is_Some (integerLoop fuel intStr len i st).
Proof.
  revert i st. induction fuel as [|fuel IH]; intros [|i] st H;
    cbn [integerLoop]; eauto; [lia|].
  apply IH. lia.
Qed.

Lemma tables_noYuan :
  Forall noYuan CH_NUMS /\ Forall noYuan CH_UNITS /\ Forall noYuan CH_GROUPS.
Proof.
  unfold noYuan. repeat split; apply (bool_decide_unpack _); vm_compute;
    exact I.
Qed.

Lemma undefined_noYuan : noYuan (js "undefined").
Proof. apply (bool_decide_unpack _). vm_compute. exact I. Qed.

Lemma NaN_noYuan : noYuan (js "NaN").
Proof. apply (bool_decide_unpack _). vm_compute. exact I. Qed.

Lemma toStr_lookup_noYuan (arr : list jsstr) (o : option jsstr) :
  (forall s, o = Some s -> noYuan s) -> noYuan (toStr o).
Proof.
  destruct o as [s|]; cbn [toStr]; [auto|]. intros _. apply undefined_noYuan.
Qed.

Lemma lookup_noYuan (arr : list jsstr) (k : nat) :
  Forall noYuan arr -> forall s, arr !! k = Some s -> noYuan s.
Proof. intros H s Hs. exact (proj1 (Forall_lookup _ _) H k s Hs). Qed.

Lemma idx_noYuan (arr : list jsstr) (k : option Z) :
  Forall noYuan arr -> forall s, idx arr k = Some s -> noYuan s.
Proof.
  intros H s. destruct k as [z|]; cbn [idx]; [|discriminate].
  destruct (z <? 0); [discriminate|]. eauto using lookup_noYuan.
Qed.

Lemma jsAdd_noYuan (a b : option jsstr) :
  (forall s, a = Some s -> noYuan s) -> (forall s, b = Some s -> noYuan s) ->
  noYuan (jsAdd a b).
Proof.
  intros Ha Hb. destruct a as [sa|], b as [sb|]; cbn [jsAdd toStr];
    try apply Forall_app_2;
    first [ apply Ha; reflexivity | apply Hb; reflexivity
          | apply undefined_noYuan | apply NaN_noYuan ].
Qed.

Lemma chunkLoop_noYuan chars groupResult chunkZero :
  noYuan groupResult -> noYuan (chunkLoop chars groupResult chunkZero).
Proof.
  destruct tables_noYuan as (Hn & Hu & _).
  revert groupResult chunkZero.
  induction chars as [|c rest IH]; intros g z Hg; cbn [chunkLoop]; [exact Hg|].
  destruct (negb (isZeroInt (parseInt [c]))); [|auto].
  apply IH. apply Forall_app_2.
  - destruct (0 <? z)%nat; [|exact Hg].
    apply Forall_app_2; [exact Hg|].
    apply (toStr_lookup_noYuan CH_NUMS). eauto using lookup_noYuan.
  - apply jsAdd_noYuan; eauto using idx_noYuan, lookup_noYuan.
Qed.

Lemma chunkStep_noYuan intStr len i st :
  noYuan (result st) -> noYuan (result (chunkStep intStr len i st)).
Proof.
  destruct tables_noYuan as (Hn & _ & Hg).
  intros H. unfold chunkStep.
  destruct (isZeroInt _); [exact H|].
  assert (noYuan (chunkLoop (substring intStr (Nat.max 0 (i - 4)) i) [] 0
                    ++ toStr (CH_GROUPS !! groupIndex st) ++ result st)).
  { apply Forall_app_2; [apply chunkLoop_noYuan, Forall_nil_2|].
    apply Forall_app_2; [|exact H].
    apply (toStr_lookup_noYuan CH_GROUPS). eauto using lookup_noYuan. }
  destruct (0 <? zeroCount st)%nat; cbn [result]; [|assumption].
  apply Forall_app_2; [|assumption].
  apply (toStr_lookup_noYuan CH_NUMS). eauto using lookup_noYuan.
Qed.

Lemma integerLoop_noYuan fuel intStr len i st st' :
  noYuan (result st) -> integerLoop fuel intStr len i st = Some st' ->
  noYuan (result st').
Proof.
  revert i st. induction fuel as [|fuel IH]; intros [|i] st H;
    cbn [integerLoop]; intros E; try congruence.
  eapply IH; [|exact E]. apply chunkStep_noYuan, H.
Qed.

(** ** Splitting the fixed-point text *)

Lemma split_no_sep (b : jsstr) :
  Forall (fun c => c <> 46%N) b -> split 46 b = [b].
Proof.
  induction 1 as [|c b Hc _ IH]; [reflexivity|].
  cbn [split]. rewrite (proj2 (N.eqb_neq c 46) Hc), IH. reflexivity.
Qed.

Lemma split_app_sep (a b : jsstr) :
  Forall (fun c => c <> 46%N) a ->
  split 46 (a ++ 46%N :: b) = a :: split 46 b.
Proof.
  induction 1 as [|c a Hc _ IH]; [reflexivity|].
  cbn [app split]. rewrite (proj2 (N.eqb_neq c 46) Hc), IH. reflexivity.
Qed.

Lemma digitsFuel_digits fuel n acc :
  Forall (fun c => isDigit c = true) acc ->
  Forall (fun c => isDigit c = true) (digitsFuel fuel n acc).
Proof.
  revert n acc. induction fuel as [|fuel IH]; intros n acc H;
    cbn [digitsFuel]; [exact H|].
  assert (Forall (fun c => isDigit c = true) ((48 + n mod 10)%N :: acc)).
  { constructor; [|exact H]. unfold isDigit.
    assert (Hm : (n mod 10 < 10)%N) by (apply N.mod_lt; discriminate).
    revert Hm. generalize (n mod 10)%N. intros m Hm.
    apply andb_true_intro.
    split; apply N.leb_le; lia. }
  destruct (n <? 10)%N; auto.
Qed.

Lemma decimalDigits_digits n :
  Forall (fun c => isDigit c = true) (decimalDigits n).
Proof. apply digitsFuel_digits. constructor. Qed.

Lemma isDigit_not_dot c : isDigit c = true -> c <> 46%N.
Proof. intros H ->. discriminate H. Qed.

Lemma toFixed2_shape neg m e :
  atLeast1e21 m e = false ->
  exists intStr,
    toFixed2 (Fin neg m e)
    = intStr ++ 46%N :: [(48 + jiaoOf m e)%N; (48 + fenOf m e)%N]
    /\ Forall (fun c => c <> 46%N) intStr.
Proof.
  intros H. unfold toFixed2. rewrite H.
  exists ((if neg && negb (m =? 0)%N then js "-" else [])
            ++ decimalDigits (roundHundredths m e / 100)).
  split; [rewrite <- app_assoc; reflexivity|].
  apply Forall_app_2.
  - destruct (neg && _); [|constructor]. repeat constructor. discriminate.
  - eapply Forall_impl; [apply decimalDigits_digits|].
    intros c Hc. apply isDigit_not_dot, Hc.
Qed.

(** ** What the cleanup leaves of the text after 圓 *)

Lemma collapseZeros_cons_other c b :
  c <> LING -> collapseZeros (c :: b) = c :: collapseZeros b.
Proof.
  intros Hc. destruct b as [|d t]; [reflexivity|].
  rewrite collapseZeros_cons2, (proj2 (N.eqb_neq c LING) Hc). reflexivity.
Qed.

Lemma collapseZeros_app a c b :
  c <> LING ->
  collapseZeros (a ++ c :: b) = collapseZeros a ++ collapseZeros (c :: b).
Proof.
  intros Hc. induction a as [|x a IH]; [reflexivity|].
  destruct a as [|y a'].
  - cbn [app]. rewrite collapseZeros_cons2.
    rewrite (proj2 (N.eqb_neq c LING) Hc), andb_false_r. reflexivity.
  - cbn [app] in *. rewrite !collapseZeros_cons2.
    destruct ((x =? LING) && (y =? LING))%N; rewrite IH; reflexivity.
Qed.

Lemma collapseZeros_id s : noDoubleZero s = true -> collapseZeros s = s.
Proof.
  induction s as [|c r IH]; [reflexivity|]. intros H.
  cbn [noDoubleZero] in H. apply andb_prop in H as [Hc Hr].
  destruct r as [|d t]; [reflexivity|].
  rewrite collapseZeros_cons2. cbn [headIsZero] in Hc.
  apply negb_true_iff in Hc. rewrite Hc, (IH Hr). reflexivity.
Qed.

Lemma collapseZeros_noYuan s : noYuan s -> noYuan (collapseZeros s).
Proof.
  induction s as [|c r IH]; [intro H; exact H|]. intros H.
  apply Forall_cons_1 in H as [Hc Hr].
  destruct r as [|d t]; [repeat constructor; exact Hc|].
  rewrite collapseZeros_cons2.
  destruct ((c =? LING) && (d =? LING))%N; [exact (IH Hr)|].
  constructor; [exact Hc|exact (IH Hr)].
Qed.

Lemma replaceFirst_noYuan s :
  noYuan s -> replaceFirst [LING; YUAN] [YUAN] s = s.
Proof.
  induction s as [|c r IH]; [reflexivity|]. intros H.
  apply Forall_cons_1 in H as [Hc Hr].
  rewrite replaceFirst_LY. destruct r as [|d t]; [reflexivity|].
  apply Forall_cons_1 in Hr as Hd. destruct Hd as [Hd _].
  rewrite (proj2 (N.eqb_neq d YUAN) Hd), andb_false_r, (IH Hr). reflexivity.
Qed.

Lemma replaceFirst_boundary a suf :
  noYuan a -> noYuan suf ->
  exists pre,
    replaceFirst [LING; YUAN] [YUAN] (a ++ YUAN :: suf) = pre ++ YUAN :: suf
    /\ noYuan pre.
Proof.
  intros Ha Hs. induction a as [|c a IH].
  - exists []. split; [|constructor]. cbn [app].
    rewrite replaceFirst_LY. destruct suf as [|d t]; [reflexivity|].
    cbn [andb N.eqb]. rewrite (replaceFirst_noYuan _ Hs). reflexivity.
  - apply Forall_cons_1 in Ha as [Hc Ha]. destruct (IH Ha) as (pre & E & Hp).
    cbn [app]. rewrite replaceFirst_LY.
    destruct a as [|d a'].
    + cbn [app] in *. rewrite N.eqb_refl, andb_true_r.
      destruct (c =? LING)%N.
      * exists []. split; [reflexivity|constructor].
      * exists (c :: pre). rewrite E. split; [reflexivity|].
        constructor; assumption.
    + cbn [app] in *. apply Forall_cons_1 in Ha as Hd. destruct Hd as [Hd _].
      rewrite (proj2 (N.eqb_neq d YUAN) Hd), andb_false_r.
      exists (c :: pre). rewrite E. split; [reflexivity|].
      constructor; assumption.
Qed.

Lemma replacePrefix_boundary pre suf :
  noYuan pre ->
  exists pre',
    replacePrefix [YUAN] [LING; YUAN] (pre ++ YUAN :: suf)
    = pre' ++ YUAN :: suf
    /\ noYuan pre'.
Proof.
  intros Hp. rewrite replacePrefix_Y. destruct pre as [|c p].
  - exists [LING]. cbn [app]. rewrite N.eqb_refl. split; [reflexivity|].
    repeat constructor. discriminate.
  - apply Forall_cons_1 in Hp as Hc. destruct Hc as [Hc _].
    exists (c :: p). cbn [app].
    rewrite (proj2 (N.eqb_neq c YUAN) Hc). split; [reflexivity|exact Hp].
Qed.

Lemma cleanup_boundary r suf :
  noYuan r -> noYuan suf -> noDoubleZero suf = true ->
  exists pre, cleanup (r ++ YUAN :: suf) = pre ++ YUAN :: suf /\ noYuan pre.
Proof.
  intros Hr Hs Hz. rewrite cleanup_eq.
  rewrite collapseZeros_app by discriminate.
  rewrite (collapseZeros_cons_other YUAN) by discriminate.
  rewrite (collapseZeros_id suf Hz).
  destruct (replaceFirst_boundary (collapseZeros r) suf) as (p1 & E1 & H1);
    auto using collapseZeros_noYuan.
  rewrite E1. apply replacePrefix_boundary, H1.
Qed.

Lemma decimal_table :
  Forall (fun j => Forall (fun f =>
      digitAt [(48 + j)%N; (48 + f)%N] 0 = Some (Z.of_N j)
      /\ digitAt [(48 + j)%N; (48 + f)%N] 1 = Some (Z.of_N f)
      /\ decimalPart (Some (Z.of_N j)) (Some (Z.of_N f))
         = decimalSuffixSpec j f
      /\ noYuan (decimalSuffixSpec j f)
      /\ noDoubleZero (decimalSuffixSpec j f) = true) digits10) digits10.
Proof. unfold noYuan. apply (bool_decide_unpack _). vm_compute. exact I. Qed.

Lemma digit_in_digits10 (j : N) : (j < 10)%N -> j ∈ digits10.
Proof.
  intros H. unfold digits10.
  assert (j = 0 \/ j = 1 \/ j = 2 \/ j = 3 \/ j = 4 \/ j = 5 \/ j = 6
          \/ j = 7 \/ j = 8 \/ j = 9)%N as Hj by lia.
  repeat (destruct Hj as [-> | Hj]); subst;
    apply list_elem_of_In; cbn; tauto.
Qed.

Lemma decimal_digits_ok (j f : N) :
  (j < 10)%N -> (f < 10)%N ->
  digitAt [(48 + j)%N; (48 + f)%N] 0 = Some (Z.of_N j)
  /\ digitAt [(48 + j)%N; (48 + f)%N] 1 = Some (Z.of_N f)
  /\ decimalPart (Some (Z.of_N j)) (Some (Z.of_N f)) = decimalSuffixSpec j f
  /\ noYuan (decimalSuffixSpec j f)
  /\ noDoubleZero (decimalSuffixSpec j f) = true.
Proof.
  intros Hj Hf.
  pose proof (proj1 (Forall_forall _ _) decimal_table j
                (digit_in_digits10 j Hj)) as H.
  exact (proj1 (Forall_forall _ _) H f (digit_in_digits10 f Hf)).
Qed.

Lemma chineseOfFixed_shape intStr (j f : N) :
  Forall (fun c => c <> 46%N) intStr -> (j < 10)%N -> (f < 10)%N ->
  exists pre,
    chineseOfFixed (intStr ++ 46%N :: [(48 + j)%N; (48 + f)%N])
    = Some (pre ++ YUAN :: decimalSuffixSpec j f)
    /\ noYuan pre.
Proof.
  intros Hi Hj Hf.
  destruct (decimal_digits_ok j f Hj Hf) as (Ej & Ef & Ed & Hy & Hz).
  unfold chineseOfFixed. rewrite (split_app_sep _ _ Hi).
  rewrite split_no_sep.
  2:{ repeat constructor; apply isDigit_not_dot; unfold isDigit;
      apply andb_true_intro; split; apply N.leb_le; lia. }
  cbn [lookup list_lookup toStr].
  destruct (integerLoop_terminates (length intStr) intStr (length intStr)
              (length intStr) (LoopState [] 0 0) (le_n _)) as [st Est].
  rewrite Est. cbn [mbind option_bind]. rewrite Ej, Ef, Ed.
  assert (Hst : noYuan (result st)).
  { eapply integerLoop_noYuan; [|exact Est]. constructor. }
  set (r := if bool_decide (result st = []) then toStr (CH_NUMS !! 0%nat)
            else result st).
  assert (Hr : noYuan r).
  { subst r. destruct (bool_decide _); [|exact Hst].
    apply (toStr_lookup_noYuan CH_NUMS).
    intros s. apply lookup_noYuan, tables_noYuan. }
  change (js "圓") with [YUAN].
  rewrite <- app_assoc. cbn [app].
  destruct (cleanup_boundary r _ Hr Hy Hz) as (pre & E & Hp).
  exists pre. rewrite E. split; [reflexivity|exact Hp].
Qed.

Lemma chineseOfFixed_noDouble str r :
  chineseOfFixed str = Some r -> noDoubleZero r = true.
Proof.
  unfold chineseOfFixed.
  destruct (integerLoop _ _ _ _ _) as [st|]; [|discriminate].
  destruct (split 46 str !! 1%nat) as [decStr|]; [|discriminate].
  cbn [mbind option_bind]. intros [= <-]. apply noDoubleZero_cleanup.
Qed.


Lemma digit_bounds m e :
  (jiaoOf m e < 10)%N /\ (fenOf m e < 10)%N.
Proof. split; apply N.mod_lt; discriminate. Qed.

Lemma numberToChinese_finite a neg m e :
  parseFloat (amountToString a) = Fin neg m e ->
  atLeast1e21 m e = false ->
  exists pre,
    numberToChinese a
    = Some (pre ++ YUAN :: decimalSuffixSpec (jiaoOf m e)
                                               (fenOf m e))
    /\ noYuan pre.
Proof.
  intros Hp Hl. unfold numberToChinese. rewrite Hp. cbn [isNaN].
  destruct (toFixed2_shape neg m e Hl) as (intStr & -> & Hi).
  destruct (digit_bounds m e) as [Hj Hf].
  exact (chineseOfFixed_shape intStr _ _ Hi Hj Hf).
Qed.

(** ** The converters *)

(** C6: numberToEnglish(0) is "Zero Dollars Only", numberToEnglish(1234.56)
    is "One Thousand Two Hundred Thirty Four Dollars And Fifty Six Cents"
    and numberToEnglish(1000000) is "One Million Dollars Only". *)
Theorem numberToEnglish_examples :
  numberToEnglish (AmtNum (num "0")) = js "Zero Dollars Only"
  /\ numberToEnglish (AmtNum (num "1234.56"))
     = js "One Thousand Two Hundred Thirty Four Dollars And Fifty Six Cents"
  /\ numberToEnglish (AmtNum (num "1000000"))
     = js "One Million Dollars Only".
Proof. vm_compute. repeat split. Qed.

(** C8: on a string that parseFloat reads as NaN no converter throws:
    numberToEnglish returns "Zero Dollars Only", numberToChinese returns
    "零圓整" and formatCurrency returns the string it was given. *)
Theorem converters_fallback (s : jsstr) :
  isNaN (parseFloat s) = true ->
  numberToEnglish (AmtStr s) = js "Zero Dollars Only"
  /\ numberToChinese (AmtStr s) = Some (js "零圓整")
  /\ formatCurrency (AmtStr s) = s.
Proof.
  intros H. unfold numberToEnglish, numberToChinese, formatCurrency.
  cbn [amountToString]. rewrite H. repeat split.
Qed.

Lemma converters_fallback_witness :
  isNaN (parseFloat (js "abc")) = true
  /\ numberToEnglish (AmtStr (js "abc")) = js "Zero Dollars Only"
  /\ numberToChinese (AmtStr (js "abc")) = Some (js "零圓整")
  /\ formatCurrency (AmtStr (js "abc")) = js "abc".
Proof.
  split; [vm_compute; reflexivity|].
  apply (converters_fallback (js "abc")). vm_compute. reflexivity.
Defined.

(** ** Rounding of quotients *)

Lemma pow2_pos k : (0 < pow2 k)%N.
Proof. apply N.neq_0_lt_0, N.pow_nonzero. discriminate. Qed.

Lemma pow2_add a b :
  0 <= a -> 0 <= b -> pow2 (a + b) = (pow2 a * pow2 b)%N.
Proof.
  intros Ha Hb. unfold pow2. rewrite Z2N.inj_add by assumption.
  apply N.pow_add_r.
Qed.

Lemma pow2_of_N k : pow2 (Z.of_N k) = (2 ^ k)%N.
Proof. unfold pow2. rewrite N2Z.id. reflexivity. Qed.

Lemma log2Ratio_spec p q :
  (0 < q)%N -> (q <= p)%N ->
  0 <= log2Ratio p q
  /\ (q * pow2 (log2Ratio p q) <= p)%N
  /\ (p < q * pow2 (log2Ratio p q + 1))%N.
Proof.
  intros Hq Hpq. unfold log2Ratio, atLeastPow2.
  assert (Hp : (0 < p)%N) by lia.
  destruct (N.log2_spec p Hp) as [Hp1 Hp2].
  destruct (N.log2_spec q Hq) as [Hq1 Hq2].
  pose proof (N.log2_le_mono q p Hpq) as Hl.
  revert Hp1 Hp2 Hq1 Hq2 Hl. generalize (N.log2 p) (N.log2 q).
  intros lp lq Hp1 Hp2 Hq1 Hq2 Hl.
  assert (Ek : exists k, lp = (lq + k)%N) by (exists (lp - lq)%N; lia).
  destruct Ek as [k ->]. clear Hl.
  replace (Z.of_N (lq + k) - Z.of_N lq) with (Z.of_N k) by lia.
  destruct (Z.leb_spec 0 (Z.of_N k)); [|lia].
  rewrite pow2_of_N.
  rewrite N.pow_add_r in Hp1. rewrite N.pow_succ_r', N.pow_add_r in Hp2.
  rewrite N.pow_succ_r' in Hq2.
  assert (H2k : (0 < 2 ^ k)%N) by (apply N.neq_0_lt_0, N.pow_nonzero; lia).
  assert (H2q : (0 < 2 ^ lq)%N) by (apply N.neq_0_lt_0, N.pow_nonzero; lia).
  destruct (N.leb_spec (q * 2 ^ k) p) as [Hge|Hlt].
  - split; [lia|]. split; [rewrite pow2_of_N; exact Hge|].
    replace (Z.of_N k + 1) with (Z.of_N (N.succ k)) by lia.
    rewrite pow2_of_N, N.pow_succ_r'. nia.
  - destruct (N.eq_dec k 0%N) as [->|Hk].
    { rewrite N.pow_0_r in Hlt. lia. }
    assert (Ek : exists k', k = N.succ k') by (exists (N.pred k); lia).
    destruct Ek as [k' ->].
    replace (Z.of_N (N.succ k') - 1) with (Z.of_N k') by lia.
    replace (Z.of_N k' + 1) with (Z.of_N (N.succ k')) by lia.
    rewrite !pow2_of_N. rewrite N.pow_succ_r' in *.
    assert (H2k' : (0 < 2 ^ k')%N)
      by (apply N.neq_0_lt_0, N.pow_nonzero; lia).
    split; [lia|]. split; [nia|exact Hlt].
Qed.

Lemma roundEven_bounds num den :
  (0 < den)%N ->
  (num / den <= roundEven num den <= num / den + 1)%N
  /\ (roundEven num den = num / den + 1 -> den <= 2 * (num mod den))%N.
Proof.
  intros Hd. unfold roundEven.
  destruct (N.ltb_spec (2 * (num mod den)) den).
  - split; lia.
  - destruct (N.ltb_spec den (2 * (num mod den))).
    + split; lia.
    + destruct (N.even (num / den)); split; lia.
Qed.

(** The significand of the quotient [p / q] scaled by [t = 2^(52 - l)]
    stays between the scaled floor and the scaled next integer. *)
Lemma roundEven_quotient p q l :
  (0 < q)%N -> (q <= p)%N -> l = log2Ratio p q -> l <= 51 ->
  let t := pow2 (52 - l) in
  let m0 := roundEven (p * t) q in
  (p / q * t <= m0)%N
  /\ (m0 <= pow2 53)%N
  /\ ((p < pow2 53)%N -> (m0 < (p / q + 1) * t)%N).
Proof.
  intros Hq Hpq El Hl t m0.
  destruct (log2Ratio_spec p q Hq Hpq) as (Hl0 & Hlo & Hhi).
  rewrite <- El in *.
  assert (Et : (pow2 53 = pow2 (l + 1) * t)%N).
  { subst t. rewrite <- pow2_add by lia. f_equal. lia. }
  assert (Et' : (pow2 (l + 1) = 2 * pow2 l)%N).
  { rewrite pow2_add by lia. change (pow2 1) with 2%N. lia. }
  pose proof (pow2_pos (52 - l)) as Ht. fold t in Ht.
  pose proof (pow2_pos l) as Hpl.
  destruct (roundEven_bounds (p * t) q Hq) as [[Hb1 Hb2] Hup].
  fold m0 in Hb1, Hb2, Hup.
  assert (Hq0 : q <> 0%N) by lia.
  pose proof (N.div_mod p q Hq0) as Hdm.
  pose proof (N.mod_lt p q Hq0) as Hml.
  pose proof (N.div_mod (p * t) q Hq0) as Hdm'.
  pose proof (N.mod_lt (p * t) q Hq0) as Hml'.
  revert Hb1 Hb2 Hup Hdm Hml Hdm' Hml'.
  generalize (p / q)%N (p mod q)%N (p * t / q)%N ((p * t) mod q)%N.
  intros k s d r Hb1 Hb2 Hup Hdm Hml Hdm' Hml'.
  assert (Hd1 : (k * t <= d)%N) by nia.
  assert (Hd2 : (d < (k + 1) * t)%N) by nia.
  split; [lia|]. split.
  - assert (d < pow2 53)%N by (rewrite Et; nia). lia.
  - intros Hp53.
    destruct (N.eq_dec m0 (d + 1)%N) as [E|E]; [|lia].
    specialize (Hup E).
    assert (q < 2 * t)%N by (rewrite Et, Et' in Hp53; nia).
    nia.
Qed.

Lemma pow2_lt_inv a b : 0 <= a -> 0 <= b -> (pow2 a < pow2 b)%N -> a < b.
Proof.
  intros Ha Hb H. unfold pow2 in H.
  apply N.pow_lt_mono_r_iff in H; lia.
Qed.

Lemma pow2_le_mono a b : 0 <= a <= b -> (pow2 a <= pow2 b)%N.
Proof.
  intros H. unfold pow2. apply N.pow_le_mono_r; lia.
Qed.

(** Below 2^53 the floor of the rounded quotient is the quotient. *)
Lemma floorDiv_exact a b :
  0 < b <= a -> a < 2 ^ 53 -> floorDiv a b = a / b.
Proof.
  intros Hab Ha. unfold floorDiv, nearestDouble.
  set (p := Z.to_N a). set (q := Z.to_N b).
  assert (Hq : (0 < q)%N) by (subst q; lia).
  assert (Hpq : (q <= p)%N) by (subst p q; lia).
  assert (Hp53 : (p < pow2 53)%N).
  { subst p. change (pow2 53) with (Z.to_N (2 ^ 53)). lia. }
  assert (Eab : a / b = Z.of_N (p / q)).
  { subst p q. rewrite N2Z.inj_div, !Z2N.id by lia. reflexivity. }
  rewrite Eab.
  destruct (N.eqb_spec p 0); [lia|].
  destruct (log2Ratio_spec p q Hq Hpq) as (Hl0 & Hlo & Hhi).
  pose proof (roundEven_quotient p q (log2Ratio p q) Hq Hpq eq_refl) as Hr.
  revert Hl0 Hlo Hhi Hr. generalize (log2Ratio p q). intros l Hl0 Hlo Hhi Hr.
  pose proof (pow2_pos l) as Hpl.
  assert (Hl : l < 53).
  { apply pow2_lt_inv; [lia|lia|]. nia. }
  assert (Hk : (p / q < pow2 (l + 1))%N).
  { apply N.Div0.div_lt_upper_bound. lia. }
  assert (Hk1 : (1 <= p / q)%N).
  { apply N.div_le_lower_bound; lia. }
  destruct (Z.eq_dec l 52) as [->|Hne].
  - change (Z.max (-1074) (52 - 52)) with 0. cbn [Z.leb].
    change (0 <=? 0) with true. cbv iota.
    assert (q = 1%N) as ->.
    { change (pow2 52) with 4503599627370496%N in Hlo.
      change (pow2 53) with 9007199254740992%N in Hp53. lia. }
    change (pow2 0) with 1%N. rewrite N.mul_1_l.
    assert (Er : roundEven p 1 = p).
    { unfold roundEven. rewrite N.mod_1_r, N.div_1_r. reflexivity. }
    rewrite Er, N.div_1_r.
    destruct (N.eqb_spec p (pow2 53)); [lia|].
    destruct (N.eqb_spec p 0); [lia|].
    cbn [Z.ltb]. change (971 <? 0) with false. cbv iota.
    change (0 <=? 0) with true. cbv iota. f_equal.
    change (pow2 0) with 1%N. lia.
  - assert (Hl51 : l <= 51) by lia. specialize (Hr Hl51).
    cbn zeta in Hr. destruct Hr as (H1 & H2 & H3). specialize (H3 Hp53).
    rewrite Z.max_r by lia.
    destruct (Z.leb_spec 0 (l - 52)); [lia|].
    replace (- (l - 52)) with (52 - l) by lia.
    pose proof (pow2_pos (52 - l)) as Ht.
    assert (Et : (pow2 53 = pow2 (l + 1) * pow2 (52 - l))%N).
    { rewrite <- pow2_add by lia. f_equal. lia. }
    remember (pow2 (52 - l)) as t eqn:Et0.
    remember (roundEven (p * t) q) as m0 eqn:Em0.
    assert (Hub : ((p / q + 1) * t <= pow2 53)%N).
    { rewrite Et. apply N.mul_le_mono_r. lia. }
    assert (Hlb : (1 * t <= p / q * t)%N) by (apply N.mul_le_mono_r; lia).
    destruct (N.eqb_spec m0 (pow2 53)); [lia|].
    destruct (N.eqb_spec m0 0); [lia|].
    destruct (Z.ltb_spec 971 (l - 52)); [lia|].
    destruct (Z.leb_spec 0 (l - 52)); [lia|].
    replace (- (l - 52)) with (52 - l) by lia. rewrite <- Et0. f_equal.
    clear Hub Hlb Hk Eab Em0. revert H1 H3 Hk1. generalize (p / q)%N.
    intros k H1 H3 Hk1.
    symmetry. apply (N.div_unique m0 t k (m0 - k * t)); lia.
Qed.

(** While the quotient stays below 2^52 the floor of the rounded quotient
    is at least the quotient. *)
Lemma floorDiv_lower a b :
  0 < b <= a -> a / b < 2 ^ 52 -> a / b <= floorDiv a b.
Proof.
  intros Hab Ha. unfold floorDiv, nearestDouble.
  set (p := Z.to_N a). set (q := Z.to_N b).
  assert (Hq : (0 < q)%N) by (subst q; lia).
  assert (Hpq : (q <= p)%N) by (subst p q; lia).
  assert (Eab : a / b = Z.of_N (p / q)).
  { subst p q. rewrite N2Z.inj_div, !Z2N.id by lia. reflexivity. }
  rewrite Eab in *.
  assert (Hk52 : (p / q < pow2 52)%N).
  { change (pow2 52) with (Z.to_N (2 ^ 52)). lia. }
  destruct (N.eqb_spec p 0); [lia|].
  destruct (log2Ratio_spec p q Hq Hpq) as (Hl0 & Hlo & Hhi).
  pose proof (roundEven_quotient p q (log2Ratio p q) Hq Hpq eq_refl) as Hr.
  revert Hl0 Hlo Hhi Hr. generalize (log2Ratio p q). intros l Hl0 Hlo Hhi Hr.
  assert (Hk1 : (1 <= p / q)%N).
  { apply N.div_le_lower_bound; lia. }
  assert (Hkl : (pow2 l <= p / q)%N).
  { apply N.div_le_lower_bound; lia. }
  assert (Hl : l < 52).
  { apply pow2_lt_inv; [lia|lia|]. lia. }
  assert (Hl51 : l <= 51) by lia. specialize (Hr Hl51).
  cbn zeta in Hr. destruct Hr as (H1 & H2 & _).
  rewrite Z.max_r by lia.
  destruct (Z.leb_spec 0 (l - 52)); [lia|].
  replace (- (l - 52)) with (52 - l) by lia.
  pose proof (pow2_pos (52 - l)) as Ht.
  remember (pow2 (52 - l)) as t eqn:Et0.
  remember (roundEven (p * t) q) as m0 eqn:Em0.
  assert (Hlb : (1 * t <= p / q * t)%N) by (apply N.mul_le_mono_r; lia).
  clear Em0 Eab. revert H1 Hk1 Hk52 Hlb. generalize (p / q)%N.
  intros k H1 Hk1 Hk52 Hlb.
  destruct (N.eqb_spec m0 (pow2 53)) as [E|E].
  - destruct (N.eqb_spec (pow2 52) 0); [discriminate|].
    destruct (Z.ltb_spec 971 (l - 52 + 1)); [lia|].
    destruct (Z.leb_spec 0 (l - 52 + 1)).
    + change (pow2 52) with 4503599627370496%N in *.
      pose proof (pow2_pos (l - 52 + 1)). nia.
    + apply N2Z.inj_le, N.div_le_lower_bound.
      * pose proof (pow2_pos (- (l - 52 + 1))). lia.
      * assert (Et1 : (t = 2 * pow2 (- (l - 52 + 1)))%N).
        { rewrite Et0. change 2%N with (pow2 1).
          rewrite <- pow2_add by lia. f_equal. lia. }
        change (pow2 53) with (2 * pow2 52)%N in E. nia.
  - destruct (N.eqb_spec m0 0); [lia|].
    destruct (Z.ltb_spec 971 (l - 52)); [lia|].
    destruct (Z.leb_spec 0 (l - 52)); [lia|].
    replace (- (l - 52)) with (52 - l) by lia. rewrite <- Et0.
    apply N2Z.inj_le, N.div_le_lower_bound; lia.
Qed.

(** The hundredths [toFixed(2)] prints are the nearest ones. *)
Lemma roundHundredths_nearest m e :
  nearestHundredth m e (roundHundredths m e).
Proof.
  unfold nearestHundredth, roundHundredths.
  destruct (0 <=? e); [reflexivity|]. cbn zeta.
  pose proof (pow2_pos (- e)) as Hd. revert Hd.
  generalize (pow2 (- e)). intros d Hd.
  assert (H2 : (2 * d <> 0)%N) by lia.
  pose proof (N.div_mod (200 * m + d) (2 * d) H2) as Hdm.
  pose proof (N.mod_lt (200 * m + d) (2 * d) H2) as Hlt.
  revert Hdm Hlt.
  generalize ((200 * m + d) / (2 * d))%N ((200 * m + d) mod (2 * d))%N.
  intros q r Hdm Hlt. nia.
Qed.



(** C10: whenever numberToChinese returns, the returned string has no two
    consecutive 零; it returns on every input except an infinite amount or
    one of magnitude 10^21 or more, where reading [decStr[0]] throws. *)
Theorem numberToChinese_no_consecutive_zeros (a : amount) :
  match numberToChinese a with
  | Some r => ~ consecutiveZeros r
  | None => tooLarge (parseFloat (amountToString a)) = true
  end.
Proof.
  destruct (numberToChinese a) as [r|] eqn:E.
  - apply noDoubleZero_sound. revert E. unfold numberToChinese.
    destruct (isNaN _).
    + intros [= <-]. vm_compute. reflexivity.
    + apply chineseOfFixed_noDouble.
  - destruct (parseFloat (amountToString a)) as [|neg|neg m e] eqn:Hp.
    + unfold numberToChinese in E. rewrite Hp in E. discriminate.
    + reflexivity.
    + cbn [tooLarge]. destruct (atLeast1e21 m e) eqn:Hl; [reflexivity|].
      destruct (numberToChinese_finite a neg m e Hp Hl) as (? & E' & _).
      congruence.
Qed.

(** C2 on the code: for 100000001 the bridging 零 of the all-zero middle
    chunk is put in front of the more significant chunk, so the integer
    part is rendered 零壹億零壹 and not 壹億零壹. *)
Theorem numberToChinese_bridging_zero_misplaced :
  numberToChinese (AmtNum (num "100000001"))
  = Some (js "零壹億零壹圓整")
  /\ numberToChinese (AmtStr (js "100000001")) = Some (js "零壹億零壹圓整")
  /\ numberToChinese (AmtNum (num "100001234"))
     = Some (js "零壹億壹仟貳佰參拾肆圓整").
Proof. vm_compute. repeat split. Qed.

(** ** The history manager *)

Lemma idx_nonneg {A} (l : list A) (z : Z) :
  0 <= z -> idx l (Some z) = l !! Z.to_nat z.
Proof.
  intros H. cbn [idx]. destruct (Z.ltb_spec z 0); [lia|reflexivity].
Qed.

Lemma slice0_nonneg {A} (l : list A) (e : Z) :
  0 <= e -> slice0 l e = take (Z.to_nat e) l.
Proof.
  intros H. unfold slice0. destruct (Z.ltb_spec e 0); [lia|reflexivity].
Qed.

Lemma tail_drop {A} (l : list A) : tail l = drop 1 l.
Proof. destruct l; reflexivity. Qed.

(** What [saveToHistory] keeps: the last 50 entries. *)
Lemma cap_drop {A} (l : list A) :
  (length l <= 51)%nat ->
  (if (50 <? length l)%nat then tail l else l) = drop (length l - 50) l.
Proof.
  intros H. destruct (Nat.ltb_spec 50 (length l)).
  - rewrite tail_drop. f_equal. lia.
  - replace (length l - 50)%nat with 0%nat by lia. reflexivity.
Qed.

Lemma wf_initial s0 : wf (initial s0).
Proof. unfold wf, initial, current. cbn. repeat split; lia. Qed.

Lemma record_history s st :
  wf st ->
  history (record s st)
  = drop (Z.to_nat (historyIndex st + 1) + 1 - 50)
      (take (Z.to_nat (historyIndex st + 1)) (history st) ++ [s])
  /\ historyIndex (record s st)
     = Z.of_nat (length (history (record s st))) - 1
  /\ objects (record s st) = Some s
  /\ selectedId (record s st) = selectedId st.
Proof.
  intros (Hi & Hl & _). unfold record, updateObjects, saveToHistory.
  cbn [history historyIndex objects selectedId].
  rewrite slice0_nonneg by lia.
  set (h := take _ _ ++ [s]).
  assert (Hlen : length h = (Z.to_nat (historyIndex st + 1) + 1)%nat).
  { subst h. rewrite length_app, length_take. cbn [length]. lia. }
  rewrite cap_drop by lia. rewrite Hlen.
  repeat split. rewrite length_drop, Hlen. lia.
Qed.

Lemma record_current s st : wf st -> current (record s st) = Some s.
Proof.
  intros Hwf. destruct (record_history s st Hwf) as (Eh & Ei & _).
  destruct Hwf as (Hi & Hl & _).
  unfold current. rewrite Ei, Eh.
  set (n := Z.to_nat (historyIndex st + 1)).
  assert (Hn : length (take n (history st)) = n).
  { rewrite length_take. lia. }
  rewrite idx_nonneg by (rewrite length_drop, length_app, Hn; cbn; lia).
  rewrite drop_app_le by lia.
  rewrite length_app, length_drop, Hn. cbn [length].
  replace (Z.to_nat (Z.of_nat (n - (n + 1 - 50) + 1) - 1))
    with (length (drop (n + 1 - 50) (take n (history st))) + 0)%nat
    by (rewrite length_drop, Hn; lia).
  rewrite lookup_app_r by lia.
  replace (_ + 0 - _)%nat with 0%nat by lia. reflexivity.
Qed.

Lemma wf_record s st : wf st -> wf (record s st).
Proof.
  intros Hwf. pose proof (record_current s st Hwf) as Hc.
  destruct (record_history s st Hwf) as (Eh & Ei & Eo & _).
  destruct Hwf as (Hi & Hl & _).
  assert (Hlen : (1 <= length (history (record s st)) <= 50)%nat).
  { rewrite Eh, length_drop, length_app, length_take. cbn [length]. lia. }
  unfold wf. rewrite Eo, Hc. repeat split; lia.
Qed.

Lemma wf_undo st : wf st -> wf (handleUndo st).
Proof.
  intros (Hi & Hl & Ho). unfold handleUndo.
  destruct (Z.ltb_spec 0 (historyIndex st)); [|unfold wf; tauto].
  unfold wf, current. cbn [history historyIndex objects].
  repeat split; lia.
Qed.

Lemma wf_redo st : wf st -> wf (handleRedo st).
Proof.
  intros (Hi & Hl & Ho). unfold handleRedo.
  destruct (Z.ltb_spec (historyIndex st) (Z.of_nat (length (history st)) - 1));
    [|unfold wf; tauto].
  unfold wf, current. cbn [history historyIndex objects].
  repeat split; lia.
Qed.

Lemma wf_runOps ops st : wf st -> wf (runOps ops st).
Proof.
  revert st. induction ops as [|op ops IH]; intros st H; [exact H|].
  apply IH. destruct op; cbn [runOp];
    auto using wf_record, wf_undo, wf_redo.
Qed.

Lemma undo_redo st :
  wf st -> 0 < historyIndex st -> handleRedo (handleUndo st) = st.
Proof.
  intros (Hi & Hl & Ho) Hpos. unfold handleUndo.
  destruct (Z.ltb_spec 0 (historyIndex st)); [|lia].
  unfold handleRedo. cbn [history historyIndex objects selectedId].
  destruct (Z.ltb_spec (historyIndex st - 1)
              (Z.of_nat (length (history st)) - 1)); [|lia].
  replace (historyIndex st - 1 + 1) with (historyIndex st) by lia.
  fold (current st). rewrite <- Ho. destruct st; reflexivity.
Qed.

Lemma redo_after_record s st :
  wf st -> handleRedo (record s st) = record s st.
Proof.
  intros Hwf. destruct (record_history s st Hwf) as (_ & Ei & _).
  unfold handleRedo. rewrite Ei.
  destruct (Z.ltb_spec (Z.of_nat (length (history (record s st))) - 1)
              (Z.of_nat (length (history (record s st))) - 1)); [lia|].
  reflexivity.
Qed.

Lemma undoN_spec k st :
  wf st ->
  wf (undoN k st)
  /\ history (undoN k st) = history st
  /\ selectedId (undoN k st) = selectedId st
  /\ historyIndex (undoN k st) = Z.max 0 (historyIndex st - Z.of_nat k).
Proof.
  intros Hwf. induction k as [|k (Hw & Eh & Es & Ei)].
  - cbn. destruct Hwf as (? & ? & ?). repeat split; try assumption; lia.
  - change (undoN (S k) st) with (handleUndo (undoN k st)).
    split; [apply wf_undo, Hw|].
    unfold handleUndo.
    destruct (Z.ltb_spec 0 (historyIndex (undoN k st)));
      cbn [history historyIndex selectedId]; repeat split;
      try assumption; lia.
Qed.

(** Recording onto a state whose index is at the last snapshot keeps the
    last 50 of all snapshots. *)
Lemma recordAll_spec ss st :
  wf st -> historyIndex st = Z.of_nat (length (history st)) - 1 ->
  wf (recordAll ss st)
  /\ history (recordAll ss st)
     = drop (length (history st ++ ss) - 50) (history st ++ ss)
  /\ historyIndex (recordAll ss st)
     = Z.of_nat (length (history (recordAll ss st))) - 1.
Proof.
  revert st. induction ss as [|s ss IH]; intros st Hwf He.
  - cbn [recordAll fold_left]. rewrite app_nil_r.
    assert (length (history st) - 50 = 0)%nat as ->
      by (destruct Hwf as (_ & Hl & _); lia).
    split; [exact Hwf|]. split; [reflexivity|exact He].
  - change (recordAll (s :: ss) st) with (recordAll ss (record s st)).
    destruct (record_history s st Hwf) as (Eh & Ei & _).
    destruct (IH (record s st) (wf_record s st Hwf) Ei) as (Hw & Eh' & Ei').
    split; [exact Hw|]. split; [|exact Ei'].
    rewrite Eh'. destruct Hwf as (Hi & Hl & _).
    assert (Et : take (Z.to_nat (historyIndex st + 1)) (history st)
                 = history st) by (apply take_ge; lia).
    rewrite Et in Eh. rewrite Eh.
    replace (Z.to_nat (historyIndex st + 1)) with (length (history st))
      by lia.
    rewrite <- (drop_app_le _ ss)
      by (rewrite length_app; cbn [length]; lia).
    rewrite drop_drop, <- app_assoc. cbn [app]. f_equal.
    rewrite length_drop, !length_app. cbn [length]. lia.
Qed.

(** C3, as the code has it: at most 49 record calls followed by as many
    undo calls bring back the initial snapshot; in every state reached
    from the initial one a redo right after an effective undo restores the
    state before the undo; and a record call keeps only snapshots up to
    the current index followed by the new one, with the index on the new
    one, so that redo has nothing left to reach. *)
Theorem history_undo_redo_record (s0 : snapshot) (ss : list snapshot)
    (ops : list histOp) (s : snapshot) :
  (length ss <= 49)%nat ->
  let st := runOps ops (initial s0) in
  (let back := undoN (length ss) (recordAll ss (initial s0)) in
   objects back = Some s0 /\ current back = Some s0
   /\ historyIndex back = 0)
  /\ (0 < historyIndex st ->
      handleRedo (handleUndo st) = st
      /\ objects (handleRedo (handleUndo st)) = current st)
  /\ (let st' := record s st in
      handleRedo st' = st'
      /\ historyIndex st' = Z.of_nat (length (history st')) - 1
      /\ current st' = Some s
      /\ exists k,
           history st'
           = drop k (take (Z.to_nat (historyIndex st + 1)) (history st)
                       ++ [s])).
Proof.
  intros Hlen st.
  assert (Hst : wf st) by apply wf_runOps, wf_initial.
  split; [|split].
  - destruct (recordAll_spec ss (initial s0) (wf_initial s0) eq_refl)
      as (Hw & Eh & Ei).
    destruct (undoN_spec (length ss) _ Hw) as (Hw' & Eh' & _ & Ei').
    cbn zeta. cbn [initial history app] in Eh.
    replace (length (s0 :: ss) - 50)%nat with 0%nat in Eh by (cbn; lia).
    cbn [drop] in Eh. rewrite Eh in Eh', Ei. cbn [length] in Ei.
    assert (E0 : historyIndex (undoN (length ss) (recordAll ss (initial s0)))
                 = 0) by lia.
    destruct Hw' as (_ & _ & Ho). rewrite Ho. unfold current.
    rewrite E0, Eh'. repeat split.
  - intros Hpos. rewrite (undo_redo st Hst Hpos).
    split; [reflexivity|apply Hst].
  - cbn zeta. destruct (record_history s st Hst) as (Eh & Ei & _).
    split; [apply redo_after_record, Hst|].
    split; [exact Ei|]. split; [apply record_current, Hst|].
    eexists. exact Eh.
Qed.

Lemma history_undo_redo_record_witness :
  (length (snapshots 3) <= 49)%nat
  /\ objects (undoN 3 (recordAll (snapshots 3) (initial []))) = Some [].
Proof.
  split; [cbn; lia|].
  apply (history_undo_redo_record [] (snapshots 3) [] []). cbn. lia.
Defined.

(** C3 as stated fails once the cap is reached: after 50 record calls the
    initial snapshot has been dropped and 50 undo calls end on the first
    recorded snapshot. *)
Lemma history_fifty_records_lose_initial :
  length (snapshots 50) = 50%nat
  /\ objects (undoN 50 (recordAll (snapshots 50) (initial []))) <> Some []
  /\ objects (undoN 50 (recordAll (snapshots 50) (initial [])))
     = head (snapshots 50).
Proof.
  split; [reflexivity|]. split.
  - vm_compute. discriminate.
  - vm_compute. reflexivity.
Qed.

(** C4: after 60 record calls the history is exactly the last 50 recorded
    snapshots, and however many undo calls follow, the history stays that
    window, the index stops at 0 and the live collection is one of the
    retained snapshots, the oldest of them after 49 or more undo calls. *)
Theorem history_cap_fifty (s0 : snapshot) (ss : list snapshot) :
  length ss = 60%nat ->
  let st := recordAll ss (initial s0) in
  history st = drop 10 ss
  /\ length (history st) = 50%nat
  /\ historyIndex st = 49
  /\ forall k : nat,
       history (undoN k st) = drop 10 ss
       /\ historyIndex (undoN k st) = Z.max 0 (49 - Z.of_nat k)
       /\ objects (undoN k st) = ss !! (59 - Nat.min k 49)%nat.
Proof.
  intros Hlen st.
  destruct (recordAll_spec ss (initial s0) (wf_initial s0) eq_refl)
    as (Hw & Eh & Ei).
  fold st in Hw, Eh, Ei. cbn [initial history app] in Eh.
  replace (length (s0 :: ss) - 50)%nat with 11%nat in Eh by (cbn; lia).
  cbn [drop] in Eh.
  assert (El : length (history st) = 50%nat)
    by (rewrite Eh, length_drop; lia).
  rewrite El in Ei.
  split; [exact Eh|]. split; [exact El|]. split; [lia|].
  intros k. destruct (undoN_spec k st Hw) as (Hw' & Eh' & _ & Ei').
  rewrite Eh in Eh'. split; [exact Eh'|]. split; [lia|].
  destruct Hw' as (_ & _ & Ho). rewrite Ho. unfold current.
  rewrite idx_nonneg by lia. rewrite Eh', lookup_drop. f_equal. lia.
Qed.

Lemma history_cap_fifty_witness :
  length (snapshots 60) = 60%nat
  /\ history (recordAll (snapshots 60) (initial [])) = drop 10 (snapshots 60)
  /\ objects (undoN 55 (recordAll (snapshots 60) (initial [])))
     = snapshots 60 !! 10%nat.
Proof.
  split; [reflexivity|].
  pose proof (history_cap_fifty [] (snapshots 60) eq_refl) as H.
  cbn zeta in H. destruct H as (Eh & _ & _ & Hk).
  split; [exact Eh|]. exact (proj2 (proj2 (Hk 55%nat))).
Defined.

(** C9: deleting an id that no field has leaves the field collection as it
    was; undo at index 0 and redo at the last index leave the whole state,
    collection and index, as it was; none of them throws. *)
Theorem missing_reference_noop (objId : jsstr) (objs : snapshot)
    (st : Editor) :
  (objects st = Some objs -> Forall (fun o => id o <> objId) objs ->
   exists st', handleDeleteObject objId st = Some st'
               /\ objects st' = Some objs)
  /\ (historyIndex st = 0 -> handleUndo st = st)
  /\ (historyIndex st = Z.of_nat (length (history st)) - 1 ->
      handleRedo st = st).
Proof.
  split; [|split].
  - intros Ho Hall. unfold handleDeleteObject. rewrite Ho.
    cbn [mbind option_bind].
    assert (Ef : filter (fun o => id o <> objId) objs = objs).
    { clear Ho. induction Hall as [|o l Hne _ IH]; [reflexivity|].
      rewrite filter_cons_True by exact Hne. rewrite IH. reflexivity. }
    rewrite Ef. eexists. split; [reflexivity|].
    destruct (bool_decide _); reflexivity.
  - intros E. unfold handleUndo. rewrite E. reflexivity.
  - intros E. unfold handleRedo. rewrite E.
    destruct (Z.ltb_spec (Z.of_nat (length (history st)) - 1)
                (Z.of_nat (length (history st)) - 1)); [lia|reflexivity].
Qed.

Lemma missing_reference_noop_witness :
  (exists st', handleDeleteObject (js "nosuchid")
                 (initial [sampleField None (js "Text") STATIC]) = Some st'
               /\ objects st' = Some [sampleField None (js "Text") STATIC])
  /\ handleUndo (initial []) = initial []
  /\ handleRedo (initial []) = initial [].
Proof.
  pose proof (missing_reference_noop (js "nosuchid")
                [sampleField None (js "Text") STATIC]
                (initial [sampleField None (js "Text") STATIC])) as (Hd & _).
  pose proof (missing_reference_noop [] [] (initial [])) as (_ & Hu & Hr).
  split; [|split].
  - apply Hd; [reflexivity|]. repeat constructor. vm_compute. discriminate.
  - apply Hu. reflexivity.
  - apply Hr. reflexivity.
Defined.

(** Deleting an absent id is still recorded: the history gets one more
    entry, or the redo branch is replaced by it. *)
Lemma delete_absent_records (objId : jsstr) (objs : snapshot) (st : Editor) :
  wf st -> objects st = Some objs -> Forall (fun o => id o <> objId) objs ->
  exists st', handleDeleteObject objId st = Some st'
              /\ current st' = Some objs
              /\ historyIndex st' = Z.min (historyIndex st + 1) 49.
Proof.
  intros Hwf Ho Hall. unfold handleDeleteObject. rewrite Ho.
  cbn [mbind option_bind].
  assert (Ef : filter (fun o => id o <> objId) objs = objs).
  { clear Ho. induction Hall as [|o l Hne _ IH]; [reflexivity|].
    rewrite filter_cons_True by exact Hne. rewrite IH. reflexivity. }
  rewrite Ef. eexists. split; [reflexivity|].
  pose proof (record_current objs st Hwf) as Hc.
  destruct (bool_decide _); (split; [exact Hc|reflexivity]).
Qed.

(** ** The resolution pipeline *)

Lemma resolvedText_text now pv obj :
  type obj = TextObj -> resolvedText now pv obj = resolveText now pv obj.
Proof.
  intros Ht. unfold resolvedText, resolveObject. rewrite Ht.
  destruct (resolveText now pv obj) as [t|]; [|reflexivity].
  cbn [mbind option_bind]. case_bool_decide as E; [reflexivity|].
  destruct (decide (Some t = text obj)) as [<-|Hne]; [reflexivity|].
  exfalso. tauto.
Qed.

(** The list-level updater returns the fields resolved one by one, or the
    list it was given when that makes no difference to the JSON text. *)
Lemma resolveObjects_cases now pv objs :
  match mapM (resolveObject now pv) objs with
  | Some updated =>
      resolveObjects now pv objs = Some updated
      \/ (resolveObjects now pv objs = Some objs
          /\ map toJSON updated = map toJSON objs)
  | None => resolveObjects now pv objs = None
  end.
Proof.
  unfold resolveObjects.
  destruct (mapM (resolveObject now pv) objs) as [updated|]; [|reflexivity].
  cbn [mbind option_bind]. case_bool_decide as E; [left; reflexivity|].
  right. split; [reflexivity|].
  destruct (decide (map toJSON updated = map toJSON objs)); tauto.
Qed.

Lemma getProp_own pv key :
  pv !! key <> None \/ inherited key = false ->
  getProp pv key = VStr <$> pv !! key.
Proof.
  unfold getProp. destruct (pv !! key); [reflexivity|].
  intros [H|E]; [contradiction|rewrite E; reflexivity].
Qed.

(** Unless the key reads an inherited member the effective value is the
    one of the specification. *)
Lemma effectiveValue_spec pv obj :
  readsInherited pv obj = false ->
  effectiveValue pv obj = VStr (effectiveSpec pv obj).
Proof.
  unfold readsInherited, effectiveValue, effectiveSpec, binding, orElse.
  destruct (variableKey obj) as [[|c k]|]; cbn [truthy andb toStr];
    try (intros _; destruct (rawValue obj) as [[|? ?]|]; reflexivity).
  unfold getProp. destruct (pv !! (c :: k)) as [[|d v]|].
  - intros _.
    rewrite (bool_decide_eq_false_2 (Some (VStr []) <> Some (VStr [])))
      by tauto.
    rewrite andb_false_r.
    destruct (rawValue obj) as [[|? ?]|]; reflexivity.
  - intros _. rewrite !bool_decide_eq_true_2 by discriminate. reflexivity.
  - rewrite bool_decide_eq_true_2 by reflexivity. cbn [andb].
    intros ->.
    rewrite (bool_decide_eq_false_2 (None <> None)) by tauto.
    destruct (rawValue obj) as [[|? ?]|]; reflexivity.
Qed.

(** A key that reads an inherited member makes that member the effective
    value. *)
Lemma effectiveValue_inherited pv obj :
  readsInherited pv obj = true ->
  effectiveValue pv obj = VProto (toStr (variableKey obj)).
Proof.
  unfold readsInherited, effectiveValue, binding, getProp.
  intros H. apply andb_prop in H as [H Hi]. apply andb_prop in H as [Hk Ho].
  apply bool_decide_eq_true in Ho. rewrite Hk, Ho, Hi.
  rewrite !bool_decide_eq_true_2 by discriminate. reflexivity.
Qed.

(** What the Variable branch computes, case by case. *)
Lemma resolve_variable now pv obj :
  type obj = TextObj -> logicType obj = Some VARIABLE ->
  readsInherited pv obj = false ->
  resolvedText now pv obj
  = Some (VStr (match variableKey obj with
                | Some (c :: k) =>
                    match pv !! (c :: k) with
                    | Some (d :: v) => d :: v
                    | Some [] => default [] (rawValue obj)
                    | None => placeholder obj
                    end
                | _ => placeholder obj
                end)).
Proof.
  intros Ht Hk Hi. rewrite (resolvedText_text _ _ _ Ht).
  unfold resolveText. rewrite Hk, (effectiveValue_spec _ _ Hi).
  revert Hi.
  unfold readsInherited, effectiveSpec, placeholder, binding, orElse.
  destruct (variableKey obj) as [[|c k]|]; cbn [truthy andb toStr];
    try reflexivity.
  unfold getProp. destruct (pv !! (c :: k)) as [[|d v]|]; cbn [truthyV truthy].
  - intros _. rewrite bool_decide_eq_true_2 by discriminate. reflexivity.
  - intros _. rewrite bool_decide_eq_true_2 by discriminate. reflexivity.
  - rewrite bool_decide_eq_true_2 by reflexivity. cbn [andb]. intros ->.
    cbn [truthyV].
    rewrite (bool_decide_eq_false_2 (None <> None)) by tauto. reflexivity.
Qed.

(** C1 on the code: a Variable field whose key is bound to a non-empty
    value shows that value and shows the placeholder while the key is
    absent, but once the binding is cleared to the empty string it shows
    [rawValue], not the placeholder. *)
Theorem variable_cleared_binding_shows_rawValue (now : jsdate) :
  let obj := sampleField (Some (js "name")) (js "Text") VARIABLE in
  resolvedText now ∅ obj = Some (VStr (js "{{name}}"))
  /\ resolvedText now {[ js "name" := js "Alice" ]} obj
     = Some (VStr (js "Alice"))
  /\ resolvedText now {[ js "name" := js "" ]} obj = Some (VStr (js "Text"))
  /\ placeholder obj = js "{{name}}".
Proof.
  cbn zeta. rewrite !resolve_variable by (vm_compute; reflexivity).
  repeat split; vm_compute; reflexivity.
Qed.

(** C5 on the code: for a text field of kind CurrencyEnglish,
    CurrencyChinese, CurrencyNumeral or BoundName the effective value is
    the binding of [variableKey] when that key is set and bound to a
    non-empty value and [rawValue] otherwise, and the resolved text is the
    matching converter applied to it (the effective value itself for
    BoundName), as long as the key does not read a member inherited from
    [Object.prototype].  A key such as "constructor" without a binding of
    its own does: the effective value is then that member instead of
    [rawValue], and a CurrencyEnglish field with [rawValue] "7" shows
    "Zero Dollars Only" instead of "Seven Dollars Only". *)
Theorem resolve_currency_and_name (now : jsdate) (pv : gmap jsstr jsstr)
    (obj : CanvasObject) :
  type obj = TextObj ->
  readsInherited pv obj = false ->
  (effectiveValue pv obj = VStr (effectiveSpec pv obj)
   /\ match logicType obj with
      | Some CURRENCY_ENG =>
          resolvedText now pv obj
          = Some (VStr (numberToEnglish (AmtStr (effectiveSpec pv obj))))
      | Some CURRENCY_CHI =>
          resolvedText now pv obj
          = VStr <$> numberToChinese (AmtStr (effectiveSpec pv obj))
      | Some CURRENCY_NUM =>
          resolvedText now pv obj
          = Some (VStr (formatCurrency (AmtStr (effectiveSpec pv obj))))
      | Some CUSTOMER_NAME =>
          resolvedText now pv obj = Some (VStr (effectiveSpec pv obj))
      | _ => True
      end)
  /\ (let field := sampleField (Some (js "constructor")) (js "7")
                     CURRENCY_ENG in
      effectiveSpec ∅ field = js "7"
      /\ numberToEnglish (AmtStr (js "7")) = js "Seven Dollars Only"
      /\ effectiveValue ∅ field = VProto (js "constructor")
      /\ resolvedText now ∅ field = Some (VStr (js "Zero Dollars Only"))).
Proof.
  intros Ht Hi. split.
  - split; [apply effectiveValue_spec, Hi|].
    rewrite (resolvedText_text _ _ _ Ht). unfold resolveText.
    rewrite (effectiveValue_spec _ _ Hi).
    destruct (logicType obj) as [[]|]; try exact I; reflexivity.
  - cbn zeta. rewrite resolvedText_text by reflexivity.
    repeat split; vm_compute; reflexivity.
Qed.

Lemma resolve_currency_and_name_witness :
  resolvedText (JsDate 2024 0 15) {[ js "amount" := js "1234.56" ]}
    (sampleField (Some (js "amount")) (js "7") CURRENCY_CHI)
  = VStr <$> numberToChinese (AmtStr (js "1234.56"))
  /\ resolvedText (JsDate 2024 0 15) {[ js "amount" := js "" ]}
       (sampleField (Some (js "amount")) (js "7") CURRENCY_ENG)
     = Some (VStr (js "Seven Dollars Only"))
  /\ resolvedText (JsDate 2024 0 15) {[ js "constructor" := js "12" ]}
       (sampleField (Some (js "constructor")) (js "7") CURRENCY_ENG)
     = Some (VStr (js "Twelve Dollars Only")).
Proof.
  split; [|split].
  - assert (Hi : readsInherited {[ js "amount" := js "1234.56" ]}
                   (sampleField (Some (js "amount")) (js "7") CURRENCY_CHI)
                 = false) by (vm_compute; reflexivity).
    pose proof (resolve_currency_and_name (JsDate 2024 0 15) _
                  (sampleField (Some (js "amount")) (js "7") CURRENCY_CHI)
                  eq_refl Hi) as [[_ H] _].
    cbn [logicType sampleField] in H. rewrite H. vm_compute. reflexivity.
  - assert (Hi : readsInherited {[ js "amount" := js "" ]}
                   (sampleField (Some (js "amount")) (js "7") CURRENCY_ENG)
                 = false) by (vm_compute; reflexivity).
    pose proof (resolve_currency_and_name (JsDate 2024 0 15) _
                  (sampleField (Some (js "amount")) (js "7") CURRENCY_ENG)
                  eq_refl Hi) as [[_ H] _].
    cbn [logicType sampleField] in H. rewrite H. vm_compute. reflexivity.
  - assert (Hi : readsInherited {[ js "constructor" := js "12" ]}
                   (sampleField (Some (js "constructor")) (js "7")
                      CURRENCY_ENG)
                 = false) by (vm_compute; reflexivity).
    pose proof (resolve_currency_and_name (JsDate 2024 0 15) _
                  (sampleField (Some (js "constructor")) (js "7")
                     CURRENCY_ENG)
                  eq_refl Hi) as [[_ H] _].
    cbn [logicType sampleField] in H. rewrite H. vm_compute. reflexivity.
Defined.

(** ** Editing sessions *)

Lemma editor_eta st :
  st = MkEditor (objects st) (selectedId st) (history st) (historyIndex st).
Proof. destruct st; reflexivity. Qed.

Lemma wf_normalize st :
  0 <= historyIndex st < Z.of_nat (length (history st)) ->
  (length (history st) <= 50)%nat -> wf (normalize st).
Proof. intros Hi Hl. unfold wf, normalize. cbn. tauto. Qed.

Lemma record_normalize s st : record s (normalize st) = record s st.
Proof. reflexivity. Qed.

Lemma undo_normalize st :
  0 < historyIndex st -> handleUndo (normalize st) = handleUndo st.
Proof.
  intros H. unfold handleUndo, normalize. cbn [historyIndex history selectedId].
  destruct (Z.ltb_spec 0 (historyIndex st)); [reflexivity|lia].
Qed.

Lemma redo_normalize st :
  historyIndex st < Z.of_nat (length (history st)) - 1 ->
  handleRedo (normalize st) = handleRedo st.
Proof.
  intros H. unfold handleRedo, normalize.
  cbn [historyIndex history selectedId].
  destruct (Z.ltb_spec (historyIndex st)
              (Z.of_nat (length (history st)) - 1)); [reflexivity|lia].
Qed.

Lemma wf_sessionInv st : wf st -> sessionInv st.
Proof.
  intros (Hi & Hl & Ho). split; [exact Hi|]. split; [exact Hl|].
  assert (Hc : exists cur, current st = Some cur).
  { unfold current. rewrite idx_nonneg by lia.
    apply lookup_lt_is_Some. lia. }
  destruct Hc as [cur Hc]. exists cur, cur. rewrite Ho. auto.
Qed.

Lemma sessionInv_select st sel :
  sessionInv st ->
  sessionInv (MkEditor (objects st) sel (history st) (historyIndex st)).
Proof. intros H. exact H. Qed.

Lemma sessionInv_record s st : sessionInv st -> sessionInv (record s st).
Proof.
  intros (Hi & Hl & _). rewrite <- record_normalize.
  apply wf_sessionInv, wf_record, wf_normalize; assumption.
Qed.

Lemma sessionInv_undo st : sessionInv st -> sessionInv (handleUndo st).
Proof.
  intros H. destruct (Z.ltb_spec 0 (historyIndex st)) as [Hpos|Hz].
  - destruct H as (Hi & Hl & _). rewrite <- (undo_normalize st Hpos).
    apply wf_sessionInv, wf_undo, wf_normalize; assumption.
  - unfold handleUndo. destruct (Z.ltb_spec 0 (historyIndex st)); [lia|].
    exact H.
Qed.

Lemma sessionInv_redo st : sessionInv st -> sessionInv (handleRedo st).
Proof.
  intros H.
  destruct (Z.ltb_spec (historyIndex st)
              (Z.of_nat (length (history st)) - 1)) as [Hlt|Hge].
  - destruct H as (Hi & Hl & _). rewrite <- (redo_normalize st Hlt).
    apply wf_sessionInv, wf_redo, wf_normalize; assumption.
  - unfold handleRedo.
    destruct (Z.ltb_spec (historyIndex st)
                (Z.of_nat (length (history st)) - 1)); [lia|].
    exact H.
Qed.

Lemma resolveObject_cases now pv obj obj' :
  resolveObject now pv obj = Some obj' ->
  (type obj = ImageObj /\ obj' = obj)
  \/ (type obj = TextObj
      /\ exists t, resolveText now pv obj = Some t
                   /\ text obj' = Some t
                   /\ (obj' = obj \/ obj' = withText obj t)).
Proof.
  unfold resolveObject. destruct (type obj) eqn:Ht.
  - destruct (resolveText now pv obj) as [t|]; [|discriminate].
    cbn [mbind option_bind]. intros [= <-]. right. split; [reflexivity|].
    exists t. split; [reflexivity|].
    case_bool_decide as E; [split; [reflexivity|right; reflexivity]|].
    destruct (decide (Some t = text obj)) as [Heq|Hne]; [|tauto].
    split; [symmetry; exact Heq|left; reflexivity].
  - intros [= <-]. left. split; reflexivity.
Qed.

Lemma resolveObjects_Some now pv objs objs' :
  resolveObjects now pv objs = Some objs' ->
  exists updated,
    Forall2 (fun o o' => resolveObject now pv o = Some o') objs updated
    /\ (objs' = updated
        \/ (objs' = objs /\ map toJSON updated = map toJSON objs)).
Proof.
  intros H. pose proof (resolveObjects_cases now pv objs) as Hc.
  destruct (mapM (resolveObject now pv) objs) as [updated|] eqn:Em;
    [|congruence].
  exists updated. split; [apply mapM_Some, Em|].
  destruct Hc as [E|[E Hj]]; rewrite E in H; injection H as <-; auto.
Qed.

Lemma resolveObjects_None now pv objs :
  resolveObjects now pv objs = None ->
  Exists (fun o => resolveObject now pv o = None) objs.
Proof.
  intros H. pose proof (resolveObjects_cases now pv objs) as Hc.
  destruct (mapM (resolveObject now pv) objs) as [updated|] eqn:Em.
  - destruct Hc as [E|[E _]]; congruence.
  - apply mapM_None in Em. exact Em.
Qed.

Lemma resolveObjects_stripText now pv objs objs' :
  resolveObjects now pv objs = Some objs' -> stripText objs' = stripText objs.
Proof.
  intros H. destruct (resolveObjects_Some _ _ _ _ H)
    as (updated & HF & [->|[-> _]]); [|reflexivity].
  clear H. unfold stripText.
  induction HF as [|o o' l l' Ho _ IH]; [reflexivity|].
  cbn [map]. rewrite IH. f_equal.
  destruct (resolveObject_cases _ _ _ _ Ho)
    as [[_ ->]|(_ & t & _ & _ & [->| ->])]; reflexivity.
Qed.

Lemma runEdit_sessionInv op st st' :
  sessionInv st -> runEdit op st = Some st' -> sessionInv st'.
Proof.
  intros Hinv. destruct op as [o|i|u| | |now pv]; cbn [runEdit].
  - unfold addObject. destruct (objects st); [|discriminate].
    cbn [mbind option_bind]. intros [= <-].
    exact (sessionInv_select (record (l ++ [o]) st) (Some (id o))
             (sessionInv_record _ _ Hinv)).
  - unfold handleDeleteObject. destruct (objects st); [|discriminate].
    cbn [mbind option_bind]. intros [= <-].
    destruct (bool_decide _).
    + exact (sessionInv_select (record (filter (fun o => id o <> i) l) st)
               None (sessionInv_record _ _ Hinv)).
    + exact (sessionInv_record (filter (fun o => id o <> i) l) st Hinv).
  - unfold handleChangeObject. destruct (objects st); [|discriminate].
    cbn [mbind option_bind]. intros [= <-].
    exact (sessionInv_record (replaceById u l) st Hinv).
  - intros [= <-]. apply sessionInv_undo, Hinv.
  - intros [= <-]. apply sessionInv_redo, Hinv.
  - destruct Hinv as (Hi & Hl & objs & cur & Ho & Hc & Hs). rewrite Ho.
    cbn [mbind option_bind].
    destruct (resolveObjects now pv objs) as [objs'|] eqn:Er; [|discriminate].
    cbn [mbind option_bind]. intros [= <-].
    split; [exact Hi|]. split; [exact Hl|]. exists objs', cur.
    split; [reflexivity|]. split; [exact Hc|].
    rewrite (resolveObjects_stripText _ _ _ _ Er). exact Hs.
Qed.

Lemma runEdits_sessionInv ops st st' :
  sessionInv st -> runEdits ops st = Some st' -> sessionInv st'.
Proof.
  revert st. induction ops as [|op ops IH]; intros st Hinv; cbn [runEdits].
  - intros [= <-]. exact Hinv.
  - destruct (runEdit op st) as [st1|] eqn:E1; [|discriminate].
    cbn [mbind option_bind]. apply IH.
    exact (runEdit_sessionInv op st st1 Hinv E1).
Qed.

Lemma sessionInv_initial s0 : sessionInv (initial s0).
Proof. apply wf_sessionInv, wf_initial. Qed.

(** X1: in every state an editing session reaches from a freshly loaded
    template - through adds, deletes, changes, undos, redos and runs of
    the resolution effect - the index stays inside a history of at most 50
    snapshots, the live collection is the snapshot under the index up to
    resolved text, and no edit, undo or redo throws. *)
Theorem editing_session_invariant (ops : list editOp) (s0 : snapshot)
    (st : Editor) :
  runEdits ops (initial s0) = Some st ->
  sessionInv st
  /\ forall op,
       match op with EResolve _ _ => True | _ => is_Some (runEdit op st) end.
Proof.
  intros E.
  pose proof (runEdits_sessionInv ops _ _ (sessionInv_initial s0) E) as Hinv.
  split; [exact Hinv|].
  destruct Hinv as (_ & _ & objs & _ & Ho & _).
  intros [o|i|u| | |now pv]; cbn [runEdit]; try exact I; try (eexists; reflexivity).
  - unfold addObject. rewrite Ho. eexists; reflexivity.
  - unfold handleDeleteObject. rewrite Ho. eexists; reflexivity.
  - unfold handleChangeObject. rewrite Ho. eexists; reflexivity.
Qed.

Lemma editing_session_invariant_witness :
  exists st,
    runEdits [EAdd (sampleField None (js "1234.56") CURRENCY_ENG);
              EResolve (JsDate 2024 0 15) ∅; EUndo; EUndo; ERedo]
      (initial []) = Some st
    /\ sessionInv st.
Proof.
  destruct (runEdits
              [EAdd (sampleField None (js "1234.56") CURRENCY_ENG);
               EResolve (JsDate 2024 0 15) ∅; EUndo; EUndo; ERedo]
              (initial [])) as [st|] eqn:E.
  - exists st. split; [reflexivity|].
    exact (proj1 (editing_session_invariant _ [] st E)).
  - exfalso. vm_compute in E. discriminate.
Defined.

Lemma undo_record s st :
  wf st -> objects (handleUndo (record s st)) = current st.
Proof.
  intros Hwf. destruct (record_history s st Hwf) as (Eh & Ei & _).
  destruct Hwf as (Hi & Hl & _).
  set (n := Z.to_nat (historyIndex st + 1)) in *.
  assert (Hn : length (take n (history st)) = n)
    by (rewrite length_take; lia).
  assert (Hlen : length (history (record s st))
                 = (n + 1 - (n + 1 - 50))%nat).
  { rewrite Eh, length_drop, length_app, Hn. reflexivity. }
  unfold handleUndo. rewrite Ei, Hlen.
  destruct (Z.ltb_spec 0 (Z.of_nat (n + 1 - (n + 1 - 50)) - 1)); [|lia].
  cbn [objects]. rewrite idx_nonneg by lia. rewrite Eh, lookup_drop.
  replace (n + 1 - 50 + Z.to_nat (Z.of_nat (n + 1 - (n + 1 - 50)) - 1 - 1))%nat
    with (Z.to_nat (historyIndex st)) by lia.
  rewrite lookup_app_l by lia. rewrite lookup_take_lt by lia.
  unfold current. rewrite idx_nonneg by lia. reflexivity.
Qed.

(** The edits that go through [updateObjects]. *)
Lemma recorded_edit op st st' :
  recorded op = true ->
  runEdit op st = Some st' ->
  exists s sel,
    st' = MkEditor (objects (record s st)) sel (history (record s st))
            (historyIndex (record s st)).
Proof.
  destruct op as [o|i|u| | |now pv]; cbn [runEdit recorded]; intros Hop E;
    try discriminate.
  - unfold addObject in E. destruct (objects st) as [objs|]; [|discriminate].
    cbn [mbind option_bind] in E. injection E as <-.
    exists (objs ++ [o]), (Some (id o)). reflexivity.
  - unfold handleDeleteObject in E.
    destruct (objects st) as [objs|]; [|discriminate].
    cbn [mbind option_bind] in E. injection E as <-.
    exists (filter (fun o => id o <> i) objs).
    destruct (bool_decide _); [exists None; reflexivity|].
    eexists. apply editor_eta.
  - unfold handleChangeObject in E.
    destruct (objects st) as [objs|]; [|discriminate].
    cbn [mbind option_bind] in E. injection E as <-.
    exists (replaceById u objs). eexists. apply editor_eta.
Qed.

(** X2: in any state reached by a session, an add, delete or change
    followed by one undo sets the live collection to the snapshot that
    was under the index before the edit - the collection that was live
    then, up to resolved text - also when the edit hit the cap of 50
    snapshots. *)
Theorem undo_reverts_edit (ops : list editOp) (s0 : snapshot) (op : editOp)
    (st st' : Editor) :
  runEdits ops (initial s0) = Some st ->
  recorded op = true ->
  runEdit op st = Some st' ->
  objects (handleUndo st') = current st
  /\ exists objs cur,
       objects st = Some objs /\ current st = Some cur
       /\ stripText cur = stripText objs.
Proof.
  intros E Hop E'.
  pose proof (runEdits_sessionInv ops _ _ (sessionInv_initial s0) E)
    as (Hi & Hl & objs & cur & Ho & Hc & Hs).
  split; [|exists objs, cur; auto].
  destruct (recorded_edit op st st' Hop E') as (s & sel & ->).
  change (current st) with (current (normalize st)).
  rewrite <- (undo_record s (normalize st) (wf_normalize st Hi Hl)).
  rewrite record_normalize. unfold handleUndo. cbn [historyIndex history objects].
  destruct (0 <? historyIndex (record s st)); reflexivity.
Qed.

Lemma undo_reverts_edit_witness :
  exists st st',
    runEdits [EAdd (newTextObject (js "a1")); EAdd (newTextObject (js "b2"))]
      (initial []) = Some st
    /\ runEdit (EDelete (js "a1")) st = Some st'
    /\ objects (handleUndo st') = current st.
Proof.
  destruct (runEdits
              [EAdd (newTextObject (js "a1")); EAdd (newTextObject (js "b2"))]
              (initial [])) as [st|] eqn:E.
  - destruct (runEdit (EDelete (js "a1")) st) as [st'|] eqn:E'.
    + exists st, st'. split; [reflexivity|]. split; [exact E'|].
      exact (proj1 (undo_reverts_edit _ [] (EDelete (js "a1")) st st' E
                      eq_refl E')).
    + exfalso. vm_compute in E. injection E as <-.
      vm_compute in E'. discriminate.
  - exfalso. vm_compute in E. discriminate.
Defined.

Lemma redoN_spec k st :
  wf st ->
  wf (redoN k st)
  /\ history (redoN k st) = history st
  /\ selectedId (redoN k st) = selectedId st
  /\ historyIndex (redoN k st)
     = Z.min (Z.of_nat (length (history st)) - 1)
         (historyIndex st + Z.of_nat k).
Proof.
  intros Hwf. induction k as [|k (Hw & Eh & Es & Ei)].
  - cbn. destruct Hwf as (? & ? & ?).
    split; [unfold wf; tauto|]. repeat split; lia.
  - change (redoN (S k) st) with (handleRedo (redoN k st)).
    split; [apply wf_redo, Hw|].
    unfold handleRedo. rewrite Eh.
    destruct (Z.ltb_spec (historyIndex (redoN k st))
                (Z.of_nat (length (history st)) - 1));
      cbn [history historyIndex selectedId]; repeat split;
      try assumption; lia.
Qed.

Lemma wf_ext a b :
  wf a -> wf b -> history a = history b ->
  historyIndex a = historyIndex b -> selectedId a = selectedId b -> a = b.
Proof.
  intros (_ & _ & Ha) (_ & _ & Hb) Eh Ei Es.
  unfold current in *. rewrite (editor_eta a), (editor_eta b).
  rewrite Ha, Hb, Eh, Ei, Es. reflexivity.
Qed.

Lemma undoN_normalize k st :
  0 < historyIndex st -> undoN (S k) (normalize st) = undoN (S k) st.
Proof.
  intros H. unfold undoN. rewrite !Nat.iter_succ_r.
  rewrite (undo_normalize st H). reflexivity.
Qed.

(** X3: in any state reached by a session, k undo calls followed by k
    redo calls (k at least 1 and at most the index) give back the same
    history, index and selection, with the snapshot under the index as
    the live collection. *)
Theorem undoN_redoN (ops : list editOp) (s0 : snapshot) (st : Editor)
    (k : nat) :
  runEdits ops (initial s0) = Some st ->
  1 <= Z.of_nat k <= historyIndex st ->
  redoN k (undoN k st) = normalize st.
Proof.
  intros E Hk.
  pose proof (runEdits_sessionInv ops _ _ (sessionInv_initial s0) E)
    as (Hi & Hl & _).
  destruct k as [|k]; [lia|].
  rewrite <- (undoN_normalize k st) by lia.
  pose proof (wf_normalize st Hi Hl) as Hwf.
  destruct (undoN_spec (S k) _ Hwf) as (Hw & Eh & Es & Ei).
  destruct (redoN_spec (S k) _ Hw) as (Hw' & Eh' & Es' & Ei').
  apply wf_ext; try assumption; try congruence.
  rewrite Ei', Ei, Eh. cbn [normalize history historyIndex]. lia.
Qed.

Lemma undoN_redoN_witness :
  exists st,
    runEdits [EAdd (newTextObject (js "a1")); EAdd (newTextObject (js "b2"));
              EChange (newTextObject (js "a1"))] (initial []) = Some st
    /\ historyIndex st = 3
    /\ redoN 3 (undoN 3 st) = normalize st.
Proof.
  destruct (runEdits
              [EAdd (newTextObject (js "a1")); EAdd (newTextObject (js "b2"));
               EChange (newTextObject (js "a1"))] (initial []))
    as [st|] eqn:E.
  - exists st. split; [reflexivity|].
    assert (Hi : historyIndex st = 3)
      by (vm_compute in E; injection E as <-; reflexivity).
    split; [exact Hi|].
    apply (undoN_redoN _ [] st 3 E). rewrite Hi. vm_compute.
    split; discriminate.
  - exfalso. vm_compute in E. discriminate.
Defined.

(** ** Changing, adding and deleting fields *)

Lemma replaceById_lookup updated objs i :
  replaceById updated objs !! i
  = (fun o => if bool_decide (id o = id updated) then updated else o)
      <$> objs !! i.
Proof. unfold replaceById. apply (list_lookup_fmap _ objs i). Qed.

(** X4: replacing a field by id keeps the sequence of ids; with an id that
    no field has it changes nothing; and when the ids are distinct it
    replaces exactly the one field with that id. *)
Theorem replaceById_spec (updated : CanvasObject) (objs : snapshot) :
  map id (replaceById updated objs) = map id objs
  /\ (Forall (fun o => id o <> id updated) objs ->
      replaceById updated objs = objs)
  /\ (NoDup (map id objs) ->
      forall i o, objs !! i = Some o -> id o = id updated ->
                  replaceById updated objs = <[i := updated]> objs).
Proof.
  split; [|split].
  - unfold replaceById. induction objs as [|o l IH]; [reflexivity|].
    cbn [map]. rewrite IH. case_bool_decide as E; congruence.
  - induction 1 as [|o l Hne _ IH]; [reflexivity|].
    unfold replaceById in *. cbn [map]. rewrite IH.
    rewrite bool_decide_eq_false_2 by exact Hne. reflexivity.
  - intros Hnd i o Hi Hid. apply list_eq. intros j.
    rewrite replaceById_lookup, list_lookup_insert.
    destruct (decide (i = j ∧ (i < length objs)%nat)) as [[<- _]|Hn].
    + rewrite Hi. cbn. rewrite bool_decide_eq_true_2 by exact Hid.
      reflexivity.
    + destruct (objs !! j) as [o'|] eqn:Hj; [|reflexivity]. cbn.
      case_bool_decide as E; [|reflexivity].
      exfalso. apply Hn. split; [|eauto using lookup_lt_Some].
      apply (NoDup_lookup (map id objs) i j (id updated) Hnd).
      * change (map id objs) with (id <$> objs).
        rewrite list_lookup_fmap, Hi. cbn. congruence.
      * change (map id objs) with (id <$> objs).
        rewrite list_lookup_fmap, Hj. cbn. congruence.
Qed.

Lemma replaceById_spec_witness :
  replaceById (sampleField None (js "new") STATIC)
    [newTextObject (js "a1"); newTextObject (js "b2")]
  = [newTextObject (js "a1"); newTextObject (js "b2")]
  /\ replaceById (sampleField None (js "new") STATIC)
       [newTextObject (js "a1"); sampleField None (js "old") VARIABLE]
     = <[1%nat := sampleField None (js "new") STATIC]>
         [newTextObject (js "a1"); sampleField None (js "old") VARIABLE].
Proof.
  split.
  - apply (proj1 (proj2 (replaceById_spec _ _))).
    repeat constructor; vm_compute; discriminate.
  - apply (proj2 (proj2 (replaceById_spec _ _)))
      with (o := sampleField None (js "old") VARIABLE); try reflexivity.
    cbn [map]. apply NoDup_cons_2; [|apply NoDup_singleton].
    intros H. apply list_elem_of_singleton in H. vm_compute in H.
    discriminate.
Defined.



(** ** More on the resolution pipeline *)

Lemma resolveText_withText now pv obj t :
  resolveText now pv (withText obj t) = resolveText now pv obj.
Proof. reflexivity. Qed.

Lemma resolveObject_fixed now pv obj obj' :
  resolveObject now pv obj = Some obj' ->
  resolveObject now pv obj' = Some obj'.
Proof.
  intros H. destruct (resolveObject_cases _ _ _ _ H)
    as [[Ht ->]|(Ht & t & Et & Etext & Hobj)]; [exact H|].
  assert (Ht' : type obj' = TextObj) by (destruct Hobj as [->| ->]; exact Ht).
  assert (Et' : resolveText now pv obj' = Some t)
    by (destruct Hobj as [->| ->]; exact Et).
  unfold resolveObject. rewrite Ht', Et'. cbn [mbind option_bind].
  rewrite bool_decide_eq_false_2; [reflexivity|]. rewrite Etext. tauto.
Qed.

Lemma Forall2_refl_list {A} (R : A -> A -> Prop) (l : list A) :
  (forall a, R a a) -> Forall2 R l l.
Proof. intros HR. induction l; constructor; auto. Qed.

(** X6: a second resolution pass over the resolved fields, with the same
    date and print values, changes nothing. *)
Theorem resolveObjects_idempotent (now : jsdate) (pv : gmap jsstr jsstr)
    (objs objs' : snapshot) :
  resolveObjects now pv objs = Some objs' ->
  resolveObjects now pv objs' = Some objs'.
Proof.
  intros H. destruct (resolveObjects_Some _ _ _ _ H)
    as (updated & HF & [->|[-> _]]); [|exact H].
  assert (Em : mapM (resolveObject now pv) updated = Some updated).
  { apply mapM_Some. clear H.
    induction HF as [|o o' l l' Ho _ IH]; constructor;
      eauto using resolveObject_fixed. }
  unfold resolveObjects. rewrite Em. cbn [mbind option_bind].
  rewrite bool_decide_eq_false_2 by tauto. reflexivity.
Qed.

Lemma resolveObjects_idempotent_witness :
  exists objs',
    resolveObjects (JsDate 2024 0 15) ∅
      [sampleField None (js "1234.56") CURRENCY_CHI] = Some objs'
    /\ resolveObjects (JsDate 2024 0 15) ∅ objs' = Some objs'.
Proof.
  destruct (resolveObjects (JsDate 2024 0 15) ∅
              [sampleField None (js "1234.56") CURRENCY_CHI])
    as [objs'|] eqn:E.
  - exists objs'. split; [reflexivity|].
    exact (resolveObjects_idempotent _ _ _ _ E).
  - exfalso. vm_compute in E. discriminate.
Defined.

(** X7: resolution keeps the number and order of the fields and touches
    nothing but [text]: an image field comes back as it is, a text field
    either as it is or with a new [text]. *)
Theorem resolveObjects_frame (now : jsdate) (pv : gmap jsstr jsstr)
    (objs objs' : snapshot) :
  resolveObjects now pv objs = Some objs' ->
  Forall2 (fun o o' =>
             o' = o \/ (type o = TextObj /\ exists t, o' = withText o t))
    objs objs'
  /\ map id objs' = map id objs.
Proof.
  intros H.
  assert (HF : Forall2 (fun o o' =>
             o' = o \/ (type o = TextObj /\ exists t, o' = withText o t))
             objs objs').
  { destruct (resolveObjects_Some _ _ _ _ H)
      as (updated & HF & [->|[-> _]]).
    - clear H. induction HF as [|o o' l l' Ho _ IH]; constructor;
        [|exact IH].
      destruct (resolveObject_cases _ _ _ _ Ho)
        as [[_ ->]|(Ht & t & _ & _ & [->| ->])]; eauto.
    - apply Forall2_refl_list. auto. }
  split; [exact HF|].
  clear H. induction HF as [|o o' l l' Ho _ IH]; [reflexivity|].
  cbn [map]. rewrite IH. f_equal.
  destruct Ho as [->|(_ & t & ->)]; reflexivity.
Qed.

Lemma resolveObjects_frame_witness :
  exists objs',
    resolveObjects (JsDate 2024 0 15) ∅
      [sampleField None (js "7") CURRENCY_ENG] = Some objs'
    /\ map id objs' = [js "k3x9q2m1a"].
Proof.
  destruct (resolveObjects (JsDate 2024 0 15) ∅
              [sampleField None (js "7") CURRENCY_ENG]) as [objs'|] eqn:E.
  - exists objs'. split; [reflexivity|].
    rewrite (proj2 (resolveObjects_frame _ _ _ _ E)). reflexivity.
  - exfalso. vm_compute in E. discriminate.
Defined.

Lemma resolveText_same_binding now pv pv' obj :
  (forall key, variableKey obj = Some key -> pv !! key = pv' !! key) ->
  resolveText now pv obj = resolveText now pv' obj.
Proof.
  intros H. unfold resolveText, effectiveValue, binding, getProp.
  destruct (variableKey obj) as [key|] eqn:Ek.
  - cbn [toStr]. rewrite (H key eq_refl). reflexivity.
  - cbn [truthy andb]. reflexivity.
Qed.

(** X8: the resolved field depends on the print values only through the
    entry of its own [variableKey]: setting or removing any other key
    leaves the result as it was. *)
Theorem resolve_ignores_other_keys (now : jsdate) (pv : gmap jsstr jsstr)
    (obj : CanvasObject) (k v : jsstr) :
  variableKey obj <> Some k ->
  resolveObject now (<[k := v]> pv) obj = resolveObject now pv obj
  /\ resolveObject now (delete k pv) obj = resolveObject now pv obj.
Proof.
  intros Hk. unfold resolveObject.
  rewrite (resolveText_same_binding now (<[k := v]> pv) pv obj),
    (resolveText_same_binding now (delete k pv) pv obj);
    [split; reflexivity| |].
  - intros key Ek. apply lookup_delete_ne. congruence.
  - intros key Ek. apply lookup_insert_ne. congruence.
Qed.

Lemma resolve_ignores_other_keys_witness :
  resolveObject (JsDate 2024 0 15)
    (<[js "payee" := js "Bob"]> {[ js "amount" := js "12" ]})
    (sampleField (Some (js "amount")) (js "7") CURRENCY_NUM)
  = resolveObject (JsDate 2024 0 15) {[ js "amount" := js "12" ]}
      (sampleField (Some (js "amount")) (js "7") CURRENCY_NUM).
Proof.
  assert (H : variableKey
                (sampleField (Some (js "amount")) (js "7") CURRENCY_NUM)
              <> Some (js "payee")) by (vm_compute; discriminate).
  exact (proj1 (resolve_ignores_other_keys (JsDate 2024 0 15)
                  {[ js "amount" := js "12" ]}
                  (sampleField (Some (js "amount")) (js "7") CURRENCY_NUM)
                  (js "payee") (js "Bob") H)).
Defined.

Lemma numberToChinese_returns a :
  tooLarge (parseFloat (amountToString a)) = false ->
  is_Some (numberToChinese a).
Proof.
  intros H.
  destruct (parseFloat (amountToString a)) as [|neg|neg m e] eqn:Hp.
  - unfold numberToChinese. rewrite Hp. cbn [isNaN]. eauto.
  - discriminate H.
  - destruct (numberToChinese_finite a neg m e Hp H) as (pre & -> & _).
    eauto.
Qed.

(** X9: the resolution pass throws only because of a Chinese-currency
    text field whose effective value reads as an infinite Number or as
    one of at least 10^21 in magnitude (such as "999999999999999999999",
    which is 10^21 as a Number); no other field can make it throw. *)
Theorem resolveObjects_throws_only_on_huge_chinese (now : jsdate)
    (pv : gmap jsstr jsstr) (objs : snapshot) :
  resolveObjects now pv objs = None ->
  exists obj,
    obj ∈ objs /\ type obj = TextObj /\ logicType obj = Some CURRENCY_CHI
    /\ tooLarge (parseFloat
                   (amountToString (amountOf (effectiveValue pv obj))))
       = true.
Proof.
  intros H. apply resolveObjects_None, Exists_exists in H.
  destruct H as (obj & Hin & Hn). exists obj. split; [exact Hin|].
  unfold resolveObject in Hn. destruct (type obj); [|discriminate].
  split; [reflexivity|].
  destruct (resolveText now pv obj) as [t|] eqn:Et; [discriminate|].
  unfold resolveText in Et.
  destruct (logicType obj) as [[]|]; try discriminate.
  split; [reflexivity|].
  destruct (tooLarge (parseFloat
              (amountToString (amountOf (effectiveValue pv obj))))) eqn:El;
    [reflexivity|].
  destruct (numberToChinese_returns (amountOf (effectiveValue pv obj)) El)
    as [r Er].
  rewrite Er in Et. discriminate.
Qed.

Lemma resolveObjects_throws_only_on_huge_chinese_witness :
  resolveObjects (JsDate 2024 0 15) ∅
    [sampleField None (js "12") CURRENCY_ENG;
     sampleField None (js "999999999999999999999") CURRENCY_CHI] = None
  /\ exists obj,
       obj ∈ [sampleField None (js "12") CURRENCY_ENG;
              sampleField None (js "999999999999999999999") CURRENCY_CHI]
       /\ type obj = TextObj /\ logicType obj = Some CURRENCY_CHI
       /\ tooLarge (parseFloat
                      (amountToString (amountOf (effectiveValue ∅ obj))))
          = true.
Proof.
  assert (E : resolveObjects (JsDate 2024 0 15) ∅
                [sampleField None (js "12") CURRENCY_ENG;
                 sampleField None (js "999999999999999999999")
                   CURRENCY_CHI] = None)
    by (vm_compute; reflexivity).
  split; [exact E|].
  exact (resolveObjects_throws_only_on_huge_chinese _ _ _ E).
Defined.

(** X10: for a Static text field whose variable key does not name a
    member inherited from [Object.prototype], the sidebar edit already
    stores the text the resolver computes when there are no print values,
    so the resolution pass leaves the edited field as it is. *)
Theorem static_edit_is_resolved (now : jsdate) (value : jsstr)
    (o o' : CanvasObject) :
  logicType o = Some STATIC ->
  readsInherited ∅ o = false ->
  handleTextChange value (Some o) = Some o' ->
  rawValue o' = Some value /\ text o' = Some (VStr value)
  /\ resolveObject now ∅ o' = Some o'.
Proof.
  intros Hk Hi. unfold handleTextChange.
  destruct (type o) eqn:Ht; [|discriminate]. intros [= <-].
  rewrite bool_decide_eq_true_2 by exact Hk.
  split; [reflexivity|]. split; [reflexivity|].
  unfold resolveObject. cbn [type].
  unfold resolveText. cbn [logicType]. rewrite Hk.
  set (o' := CanvasObj _ _ _ _ _ _ _ _ _ _ _ _ _ _ _ _).
  assert (Hi' : readsInherited ∅ o' = false) by exact Hi.
  rewrite (effectiveValue_spec ∅ o' Hi').
  assert (Ev : effectiveSpec ∅ o' = value).
  { unfold effectiveSpec. subst o'. cbn [variableKey rawValue].
    destruct (variableKey o) as [[|c k]|]; reflexivity. }
  rewrite Ev. cbn [mbind option_bind].
  rewrite bool_decide_eq_false_2 by (subst o'; cbn [text]; tauto).
  reflexivity.
Qed.

Lemma static_edit_is_resolved_witness :
  exists o',
    handleTextChange (js "Pay to") (Some (newTextObject (js "a1"))) = Some o'
    /\ resolveObject (JsDate 2024 0 15) ∅ o' = Some o'.
Proof.
  destruct (handleTextChange (js "Pay to") (Some (newTextObject (js "a1"))))
    as [o'|] eqn:E.
  - exists o'. split; [reflexivity|].
    exact (proj2 (proj2 (static_edit_is_resolved (JsDate 2024 0 15)
                           (js "Pay to") (newTextObject (js "a1")) o'
                           eq_refl eq_refl E))).
  - exfalso. discriminate E.
Defined.

(** ** More on the converters *)

Lemma convertGroup_table :
  Forall (fun n => wellFormedWords (convertGroup n) = true) (seqZ 1 999).
Proof. apply (bool_decide_unpack _). vm_compute. exact I. Qed.

(** X11: for every group value from 1 to 999 convertGroup gives
    capitalised English words separated by single spaces, with no space
    at either end (so never the text "undefined"); for zero or a negative
    value it gives the empty string. *)
Theorem convertGroup_words (n : Z) :
  (1 <= n <= 999 -> wellFormedWords (convertGroup n) = true)
  /\ (n <= 0 -> convertGroup n = []).
Proof.
  split.
  - intros Hn. apply (proj1 (Forall_forall _ _) convertGroup_table).
    apply elem_of_seqZ. lia.
  - intros Hn. unfold convertGroup.
    destruct (Z.leb_spec 100 n); [lia|]. destruct (Z.leb_spec 20 n); [lia|].
    destruct (Z.leb_spec 10 n); [lia|]. destruct (Z.ltb_spec 0 n); [lia|].
    reflexivity.
Qed.

Lemma convertGroup_words_witness :
  wellFormedWords (convertGroup 919) = true /\ convertGroup 0 = [].
Proof.
  split.
  - apply (proj1 (convertGroup_words 919)). lia.
  - apply (proj2 (convertGroup_words 0)). lia.
Defined.

(** ** Reading back the digits of the fixed-point text *)

Lemma isDigit_cases c :
  isDigit c = true -> c ∈ [48; 49; 50; 51; 52; 53; 54; 55; 56; 57]%N.
Proof.
  unfold isDigit. intros H. apply andb_prop in H as [H1 H2].
  apply N.leb_le in H1, H2.
  assert (c = 48 \/ c = 49 \/ c = 50 \/ c = 51 \/ c = 52 \/ c = 53
          \/ c = 54 \/ c = 55 \/ c = 56 \/ c = 57)%N as Hc by lia.
  repeat (destruct Hc as [-> | Hc]); subst; apply list_elem_of_In; cbn;
    tauto.
Qed.

Lemma spanDigits_all ds :
  Forall (fun c => isDigit c = true) ds -> spanDigits ds = (ds, []).
Proof.
  induction 1 as [|c r Hc _ IH]; [reflexivity|].
  cbn [spanDigits]. rewrite Hc, IH. reflexivity.
Qed.

Lemma parseInt_digits c r :
  Forall (fun c => isDigit c = true) (c :: r) ->
  parseInt (c :: r) = Some (Z.of_N (digitsValue (c :: r)))
  /\ parseInt (45%N :: c :: r) = Some (- Z.of_N (digitsValue (c :: r))).
Proof.
  intros H. pose proof (spanDigits_all _ H) as Hs.
  apply Forall_cons_1 in H as [Hc Hr].
  pose proof (spanDigits_all _ Hr) as Hsr.
  apply isDigit_cases in Hc.
  repeat (apply elem_of_cons in Hc as [-> | Hc]);
    try (unfold parseInt; cbn [trimStart]; cbn [spanDigits] in *;
         cbn; rewrite Hsr; split; reflexivity).
  apply elem_of_nil in Hc. contradiction.
Qed.

Lemma digitsValue_step a l :
  fold_left (fun acc c => (acc * 10 + (c - 48))%N) l a
  = (a * 10 ^ N.of_nat (length l) + digitsValue l)%N.
Proof.
  unfold digitsValue. revert a. induction l as [|c l IH]; intros a.
  - cbn. lia.
  - cbn [fold_left length]. rewrite IH, (IH (0 * 10 + (c - 48))%N).
    rewrite Nat2N.inj_succ, N.pow_succ_r'. lia.
Qed.

Lemma digitsFuel_value fuel n acc :
  (n < 2 ^ N.of_nat fuel)%N ->
  digitsValue (digitsFuel fuel n acc)
  = (n * 10 ^ N.of_nat (length acc) + digitsValue acc)%N.
Proof.
  revert n acc. induction fuel as [|fuel IH]; intros n acc Hn.
  - cbn in Hn. assert (n = 0%N) as -> by lia. cbn [digitsFuel]. lia.
  - cbn [digitsFuel].
    assert (Hcons : forall d, (d < 10)%N ->
              digitsValue ((48 + d)%N :: acc)
              = (d * 10 ^ N.of_nat (length acc) + digitsValue acc)%N).
    { intros d Hd. unfold digitsValue at 1. cbn [fold_left].
      rewrite digitsValue_step. f_equal. f_equal. lia. }
    destruct (N.ltb_spec n 10) as [Hlt|Hge].
    + rewrite N.mod_small by exact Hlt. apply Hcons, Hlt.
    + rewrite IH.
      2:{ rewrite Nat2N.inj_succ, N.pow_succ_r' in Hn.
          apply N.Div0.div_lt_upper_bound. lia. }
      rewrite Hcons by (apply N.mod_lt; discriminate).
      cbn [length]. rewrite Nat2N.inj_succ, N.pow_succ_r'.
      pose proof (N.div_mod n 10 ltac:(discriminate)) as Hdm.
      revert Hdm. generalize (n / 10)%N (n mod 10)%N. intros q m Hdm.
      subst n. lia.
Qed.

(** Reading the printed digits back gives the number. *)
Lemma digitsValue_decimalDigits n : digitsValue (decimalDigits n) = n.
Proof.
  unfold decimalDigits. rewrite digitsFuel_value.
  - cbn. lia.
  - rewrite Nat2N.inj_succ, N2Nat.id.
    destruct n as [|p]; [reflexivity|].
    apply N.log2_spec. reflexivity.
Qed.

Lemma digitsFuel_nonempty fuel n acc :
  fuel <> 0%nat \/ acc <> [] -> digitsFuel fuel n acc <> [].
Proof.
  revert n acc. induction fuel as [|fuel IH]; intros n acc H;
    cbn [digitsFuel].
  - destruct H as [H|H]; [contradiction|exact H].
  - destruct (n <? 10)%N; [discriminate|]. apply IH. right. discriminate.
Qed.

Lemma decimalDigits_cons n : exists c r, decimalDigits n = c :: r.
Proof.
  destruct (decimalDigits n) as [|c r] eqn:E; [|eauto].
  exfalso. revert E. apply digitsFuel_nonempty. left. discriminate.
Qed.

Lemma toFixed2_split neg m e :
  atLeast1e21 m e = false ->
  split 46 (toFixed2 (Fin neg m e))
  = [(if neg && negb (m =? 0)%N then js "-" else [])
       ++ decimalDigits (roundHundredths m e / 100);
     [(48 + jiaoOf m e)%N; (48 + fenOf m e)%N]].
Proof.
  intros H. unfold toFixed2. rewrite H.
  rewrite app_assoc. change (js ".") with [46%N]. cbn [app].
  rewrite split_app_sep.
  - fold (jiaoOf m e) (fenOf m e).
    destruct (digit_bounds m e) as [Hj Hf]. revert Hj Hf.
    generalize (jiaoOf m e) (fenOf m e). intros j f Hj Hf.
    rewrite split_no_sep; [reflexivity|].
    repeat constructor; apply isDigit_not_dot; unfold isDigit;
      apply andb_true_intro; split; apply N.leb_le; lia.
  - apply Forall_app_2.
    + destruct (neg && _); [|constructor]. repeat constructor. discriminate.
    + eapply Forall_impl; [apply decimalDigits_digits|].
      intros c Hc. apply isDigit_not_dot, Hc.
Qed.

Lemma parseInt_decimalDigits n :
  parseInt (decimalDigits n) = Some (Z.of_N n)
  /\ parseInt (js "-" ++ decimalDigits n) = Some (- Z.of_N n).
Proof.
  pose proof (decimalDigits_digits n) as Hd.
  pose proof (digitsValue_decimalDigits n) as Hv.
  destruct (decimalDigits_cons n) as (c & r & E). rewrite E in *.
  change (js "-" ++ c :: r) with (45%N :: c :: r).
  destruct (parseInt_digits c r Hd) as [-> ->]. rewrite Hv. split; reflexivity.
Qed.

Lemma parseInt_two_digits (j f : N) :
  (j < 10)%N -> (f < 10)%N ->
  parseInt [(48 + j)%N; (48 + f)%N] = Some (Z.of_N (10 * j + f)).
Proof.
  intros Hj Hf.
  assert (Hd : Forall (fun c => isDigit c = true) [(48 + j)%N; (48 + f)%N]).
  { repeat constructor; unfold isDigit; apply andb_true_intro;
      split; apply N.leb_le; lia. }
  rewrite (proj1 (parseInt_digits _ _ Hd)). f_equal. f_equal.
  unfold digitsValue. cbn [fold_left]. lia.
Qed.

Lemma cents_digits m e :
  (10 * jiaoOf m e + fenOf m e)%N
  = (roundHundredths m e mod 100)%N.
Proof.
  unfold jiaoOf, fenOf. generalize (roundHundredths m e). intros n.
  change 100%N with (10 * 10)%N. rewrite N.Div0.mod_mul_r. lia.
Qed.

(** numberToEnglish on a finite, non-zero amount below 10^21 is the body
    of the function run on the integer part and the cents. *)
Lemma numberToEnglish_finite a neg m e :
  parseFloat (amountToString a) = Fin neg m e ->
  m <> 0%N -> atLeast1e21 m e = false ->
  numberToEnglish a
  = englishBody (Some (integerOf neg m e)) (Some (centsOf m e)).
Proof.
  intros Hp Hc Hl. unfold numberToEnglish. rewrite Hp.
  cbn [isNaN isZeroNum]. rewrite (proj2 (N.eqb_neq m 0) Hc).
  rewrite (toFixed2_split neg m e Hl).
  cbn [lookup list_lookup]. unfold parseIntU. cbn [toStr].
  destruct (digit_bounds m e) as [Hj Hf].
  rewrite (parseInt_two_digits _ _ Hj Hf), cents_digits.
  fold (centsOf m e).
  assert (Ei : parseInt ((if neg && negb (m =? 0)%N then js "-" else [])
                           ++ decimalDigits (roundHundredths m e / 100))
               = Some (integerOf neg m e)).
  { unfold integerOf. destruct (neg && _).
    - apply parseInt_decimalDigits.
    - apply parseInt_decimalDigits. }
  rewrite Ei. reflexivity.
Qed.

(** X12: a finite non-zero amount below 10^21 that is negative, or whose
    value rounded to hundredths is below one dollar, is put into words
    without any integer part: the text is " Dollars" (with its leading
    space) followed by the cents clause of the nearest hundredth, e.g.
    " Dollars Only" for -5, " Dollars And Fifty Cents" for 0.5 and
    " Dollars And One Cents" for 0.015. *)
Theorem numberToEnglish_without_integer_part (a : amount) (neg : bool)
    (m : N) (e : Z) :
  parseFloat (amountToString a) = Fin neg m e ->
  m <> 0%N -> atLeast1e21 m e = false ->
  integerOf neg m e <= 0 ->
  numberToEnglish a = js " Dollars" ++ centsClause (centsOf m e)
  /\ nearestHundredth m e (roundHundredths m e).
Proof.
  intros Hp Hc Hl Hi. split; [|apply roundHundredths_nearest].
  rewrite (numberToEnglish_finite a neg m e Hp Hc Hl).
  unfold englishBody, peelScale.
  destruct (Z.leb_spec 1000000000 (integerOf neg m e)); [lia|].
  destruct (Z.leb_spec 1000000 (integerOf neg m e)); [lia|].
  destruct (Z.leb_spec 1000 (integerOf neg m e)); [lia|].
  cbn [gtZero]. destruct (Z.ltb_spec 0 (integerOf neg m e)); [lia|].
  unfold centsClause. cbn [default].
  destruct (0 <? centsOf m e); reflexivity.
Qed.

Lemma numberToEnglish_without_integer_part_witness :
  numberToEnglish (AmtStr (js "-5")) = js " Dollars Only"
  /\ numberToEnglish (AmtStr (js "0.5")) = js " Dollars And Fifty Cents"
  /\ numberToEnglish (AmtStr (js "0.015")) = js " Dollars And One Cents".
Proof.
  split; [|split].
  - rewrite (proj1 (numberToEnglish_without_integer_part (AmtStr (js "-5"))
                      true 5629499534213120 (-50)
                      ltac:(vm_compute; reflexivity) ltac:(discriminate)
                      ltac:(vm_compute; reflexivity)
                      ltac:(vm_compute; discriminate))).
    vm_compute. reflexivity.
  - rewrite (proj1 (numberToEnglish_without_integer_part (AmtStr (js "0.5"))
                      false 4503599627370496 (-53)
                      ltac:(vm_compute; reflexivity) ltac:(discriminate)
                      ltac:(vm_compute; reflexivity)
                      ltac:(vm_compute; discriminate))).
    vm_compute. reflexivity.
  - rewrite (proj1 (numberToEnglish_without_integer_part
                      (AmtStr (js "0.015")) false 8646911284551352 (-59)
                      ltac:(vm_compute; reflexivity) ltac:(discriminate)
                      ltac:(vm_compute; reflexivity)
                      ltac:(vm_compute; discriminate))).
    vm_compute. reflexivity.
Defined.

Lemma trimStart_app_keep a b c :
  isWhite c = false -> exists a', trimStart (a ++ c :: b) = a' ++ c :: b.
Proof.
  intros Hc. induction a as [|x a IH]; cbn [app trimStart].
  - rewrite Hc. exists []. reflexivity.
  - destruct (isWhite x); [exact IH|]. exists (x :: a). reflexivity.
Qed.

Lemma trim_undefined_hundred q :
  exists q', trim (js "undefined Hundred" ++ q) = js "undefined Hundred" ++ q'.
Proof.
  unfold trim.
  assert (E : trimStart (js "undefined Hundred" ++ q)
              = js "undefined Hundred" ++ q) by reflexivity.
  rewrite E, rev_app_distr.
  assert (Er : rev (js "undefined Hundred")
               = 100%N :: rev (js "undefined Hundre")) by reflexivity.
  rewrite Er.
  destruct (trimStart_app_keep (rev q) (rev (js "undefined Hundre")) 100
              eq_refl) as (a' & ->).
  rewrite rev_app_distr, <- Er, rev_involutive. eauto.
Qed.

Lemma convertGroup_thousand n :
  1000 <= n -> exists r, convertGroup n = js "undefined Hundred" ++ r.
Proof.
  intros Hn. unfold convertGroup.
  destruct (Z.leb_spec 100 n); [|lia].
  assert (Ei : idx ONES (Some (n / 100)) = None).
  { assert (10 <= n / 100) by (apply Z.div_le_lower_bound; lia).
    cbn [idx]. destruct (Z.ltb_spec (n / 100) 0); [reflexivity|].
    apply lookup_ge_None. cbn. lia. }
  rewrite Ei. cbn [toStr].
  set (t := if 20 <=? Z.rem n 100 then _ else _).
  assert (Ht : exists x m, t = (js "undefined Hundred" ++ x, m)).
  { subst t. destruct (20 <=? Z.rem n 100); eexists (32%N :: _), _;
      reflexivity. }
  destruct Ht as (x & m & ->).
  set (t := if 10 <=? m then _ else _).
  assert (Ht : exists x' m', t = (js "undefined Hundred" ++ x', m')).
  { subst t. destruct (10 <=? m); [|eauto].
    eexists _, _. rewrite <- app_assoc. reflexivity. }
  destruct Ht as (x' & m' & ->).
  destruct (0 <? m'); [rewrite <- app_assoc|]; apply trim_undefined_hundred.
Qed.

Lemma peelScale_prefix p scale word x ip :
  exists x', fst (peelScale scale word (p ++ x, ip)) = p ++ x'
             /\ peelScale scale word (p ++ x, ip)
                = (p ++ x', snd (peelScale scale word (p ++ x, ip))).
Proof.
  unfold peelScale. destruct ip as [z|]; [|eauto].
  destruct (scale <=? z); [|eauto].
  cbn [fst snd]. rewrite <- app_assoc. eauto.
Qed.

Lemma roundHundredths_zero e : roundHundredths 0 e = 0%N.
Proof.
  unfold roundHundredths. destruct (0 <=? e); [reflexivity|].
  cbn zeta. pose proof (pow2_pos (- e)). apply N.div_small. lia.
Qed.

(** Below 10^21 the printed integer part is at most 10^21. *)
Lemma integerOf_bound m e :
  atLeast1e21 m e = false ->
  (roundHundredths m e / 100 <= 1000000000000000000000)%N.
Proof.
  unfold atLeast1e21, roundHundredths.
  change (pow10 21) with 1000000000000000000000%N.
  destruct (0 <=? e).
  - intros H. apply N.leb_gt in H.
    replace (100 * m * pow2 e)%N with (m * pow2 e * 100)%N by lia.
    rewrite N.div_mul by discriminate. lia.
  - cbn zeta. pose proof (pow2_pos (- e)) as Hd. revert Hd.
    generalize (pow2 (- e)). intros d Hd H. apply N.leb_gt in H.
    assert (Hn : ((200 * m + d) / (2 * d) < 100000000000000000000001)%N).
    { apply N.Div0.div_lt_upper_bound. nia. }
    revert Hn. generalize ((200 * m + d) / (2 * d))%N. intros n Hn.
    apply N.Div0.div_le_upper_bound. lia.
Qed.

(** X13: an amount whose integer part, as toFixed(2) prints it, is 10^12
    (a trillion) or more, below 10^21, is put into words starting with
    "undefined Hundred": the billions group exceeds 999 and its hundreds
    digit is read past the end of ONES. *)
Theorem numberToEnglish_trillion (a : amount) (m : N) (e : Z) :
  parseFloat (amountToString a) = Fin false m e ->
  atLeast1e21 m e = false ->
  1000000000000 <= integerOf false m e ->
  (exists rest, numberToEnglish a = js "undefined Hundred" ++ rest)
  /\ nearestHundredth m e (roundHundredths m e).
Proof.
  intros Hp Hl Hi. split; [|apply roundHundredths_nearest].
  assert (Hc : m <> 0%N).
  { intros ->. unfold integerOf in Hi.
    rewrite roundHundredths_zero in Hi. vm_compute in Hi.
    apply Hi. reflexivity. }
  assert (Hub : integerOf false m e <= 1000000000000000000000).
  { unfold integerOf. cbn [andb]. pose proof (integerOf_bound m e Hl). lia. }
  rewrite (numberToEnglish_finite a false m e Hp Hc Hl).
  unfold englishBody. generalize (centsOf m e). intros c.
  revert Hi Hub. generalize (integerOf false m e). intros z Hz Hub.
  unfold peelScale at 3. destruct (Z.leb_spec 1000000000 z); [|lia].
  destruct (convertGroup_thousand (floorDiv z 1000000000)) as (r & ->).
  { assert (Hq : 1000 <= z / 1000000000)
      by (apply Z.div_le_lower_bound; lia).
    assert (Hq' : z / 1000000000 < 2 ^ 52).
    { apply Z.div_lt_upper_bound; [lia|]. change (2 ^ 52) with 4503599627370496.
      lia. }
    pose proof (floorDiv_lower z 1000000000 ltac:(lia) Hq'). lia. }
  cbn [app]. rewrite <- app_assoc.
  destruct (peelScale_prefix (js "undefined Hundred") 1000000
              (js " Million ") (r ++ js " Billion ")
              (Some (Z.rem z 1000000000))) as (x1 & _ & ->).
  destruct (peelScale_prefix (js "undefined Hundred") 1000
              (js " Thousand ") x1
              (snd (peelScale 1000000 (js " Million ")
                      (js "undefined Hundred" ++ r ++ js " Billion ",
                       Some (Z.rem z 1000000000)))))
    as (x2 & _ & ->).
  set (ip := snd (peelScale 1000 _ _)).
  set (res := if gtZero ip then _ else _).
  assert (Hres : exists y, res = js "undefined Hundred" ++ y).
  { subst res. destruct (gtZero ip); [rewrite <- app_assoc|]; eauto. }
  destruct Hres as (y & ->).
  destruct (trim_undefined_hundred y) as (y' & ->).
  destruct (gtZero (Some c)); rewrite <- !app_assoc; eauto.
Qed.

Lemma numberToEnglish_trillion_witness :
  numberToEnglish (AmtStr (js "1000000000000"))
  = js "undefined Hundred Billion Dollars Only"
  /\ exists rest,
       numberToEnglish (AmtStr (js "1000000000000"))
       = js "undefined Hundred" ++ rest.
Proof.
  split; [vm_compute; reflexivity|].
  apply (numberToEnglish_trillion (AmtStr (js "1000000000000"))
           8192000000000000 (-13));
    [vm_compute; reflexivity|vm_compute; reflexivity|].
  vm_compute. discriminate.
Defined.

(** ** More on the Chinese converter *)

Lemma decimalPart_noYuan jiao fen : noYuan (decimalPart jiao fen).
Proof.
  destruct tables_noYuan as (Hn & _ & _).
  assert (Hg : forall k, noYuan (toStr (idx CH_NUMS k))).
  { intros k. apply (toStr_lookup_noYuan CH_NUMS). intros s.
    apply idx_noYuan, Hn. }
  assert (H0 : noYuan (toStr (CH_NUMS !! 0%nat))).
  { apply (toStr_lookup_noYuan CH_NUMS). intros s. apply lookup_noYuan, Hn. }
  assert (Hlit : noYuan (js "整") /\ noYuan (js "角") /\ noYuan (js "分")).
  { unfold noYuan. repeat split; apply (bool_decide_unpack _); vm_compute;
      exact I. }
  destruct Hlit as (Hz & Hj & Hf).
  unfold decimalPart. destruct (isZeroInt jiao && isZeroInt fen); [exact Hz|].
  apply Forall_app_2.
  - destruct (gtZero jiao); [apply Forall_app_2; [apply Hg|exact Hj]|].
    destruct (isZeroInt jiao && gtZero fen); [exact H0|constructor].
  - destruct (gtZero fen); [apply Forall_app_2; [apply Hg|exact Hf]|].
    constructor.
Qed.

Lemma cleanup_one_yuan r suf :
  noYuan r -> noYuan suf ->
  exists pre suf',
    cleanup (r ++ YUAN :: suf) = pre ++ YUAN :: suf'
    /\ pre <> [] /\ noYuan pre /\ noYuan suf'.
Proof.
  intros Hr Hs. rewrite cleanup_eq.
  rewrite collapseZeros_app by discriminate.
  rewrite (collapseZeros_cons_other YUAN) by discriminate.
  pose proof (collapseZeros_noYuan _ Hs) as Hs'.
  destruct (replaceFirst_boundary (collapseZeros r) (collapseZeros suf))
    as (p1 & -> & H1); auto using collapseZeros_noYuan.
  rewrite replacePrefix_Y. destruct p1 as [|c p].
  - exists [LING], (collapseZeros suf). cbn [app]. rewrite N.eqb_refl.
    split; [reflexivity|]. split; [discriminate|].
    split; [repeat constructor; discriminate|exact Hs'].
  - exists (c :: p), (collapseZeros suf).
    apply Forall_cons_1 in H1 as Hc. destruct Hc as [Hc _].
    cbn [app]. rewrite (proj2 (N.eqb_neq c YUAN) Hc).
    split; [reflexivity|]. split; [discriminate|]. split; assumption.
Qed.

(** X14: every string numberToChinese returns, whatever the input, has
    exactly one 圓, and the 圓 is never its first character. *)
Theorem numberToChinese_one_yuan (a : amount) (r : jsstr) :
  numberToChinese a = Some r ->
  exists pre suf,
    r = pre ++ YUAN :: suf /\ pre <> [] /\ noYuan pre /\ noYuan suf.
Proof.
  unfold numberToChinese. destruct (isNaN _).
  - intros [= <-]. exists [LING], (js "整").
    split; [reflexivity|]. split; [discriminate|].
    split; repeat constructor; discriminate.
  - unfold chineseOfFixed.
    destruct (integerLoop _ _ _ _ _) as [st|] eqn:Est; [|discriminate].
    destruct (split 46 _ !! 1%nat) as [decStr|]; [|discriminate].
    cbn [mbind option_bind]. intros [= <-].
    assert (Hst : noYuan (result st)).
    { eapply integerLoop_noYuan; [|exact Est]. constructor. }
    set (res := if bool_decide (result st = []) then toStr (CH_NUMS !! 0%nat)
                else result st).
    assert (Hres : noYuan res).
    { subst res. destruct (bool_decide _); [|exact Hst].
      apply (toStr_lookup_noYuan CH_NUMS).
      intros s. apply lookup_noYuan, tables_noYuan. }
    change (js "圓") with [YUAN]. rewrite <- app_assoc. cbn [app].
    apply cleanup_one_yuan; [exact Hres|apply decimalPart_noYuan].
Qed.

Lemma numberToChinese_one_yuan_witness :
  exists pre suf,
    js "undefined拾伍圓整" = pre ++ YUAN :: suf
    /\ pre <> [] /\ noYuan pre /\ noYuan suf.
Proof.
  apply (numberToChinese_one_yuan (AmtStr (js "-5"))).
  vm_compute. reflexivity.
Defined.

Lemma zero_integer_table :
  Forall (fun j => Forall (fun f =>
      chineseOfFixed [48%N; 46%N; (48 + j)%N; (48 + f)%N]
      = Some (js "零圓" ++ decimalSuffixSpec j f)
      /\ chineseOfFixed [45%N; 48%N; 46%N; (48 + j)%N; (48 + f)%N]
         = Some (js "零圓" ++ decimalSuffixSpec j f)) digits10) digits10.
Proof. apply (bool_decide_unpack _). vm_compute. exact I. Qed.

(** X15: a finite amount whose value rounded to the nearest hundredth is
    below one, negative ones included, is rendered as 零圓 followed by the
    decimal part of that hundredth; the sign is dropped. *)
Theorem numberToChinese_zero_integer (a : amount) (neg : bool) (m : N)
    (e : Z) :
  parseFloat (amountToString a) = Fin neg m e ->
  atLeast1e21 m e = false ->
  (roundHundredths m e / 100 = 0)%N ->
  numberToChinese a
  = Some (js "零圓" ++ decimalSuffixSpec (jiaoOf m e) (fenOf m e))
  /\ nearestHundredth m e (roundHundredths m e).
Proof.
  intros Hp Hl Hq. split; [|apply roundHundredths_nearest].
  unfold numberToChinese. rewrite Hp. cbn [isNaN].
  unfold toFixed2. rewrite Hl, Hq.
  fold (jiaoOf m e) (fenOf m e).
  destruct (digit_bounds m e) as [Hj Hf].
  pose proof (proj1 (Forall_forall _ _) zero_integer_table _
                (digit_in_digits10 _ Hj)) as H.
  pose proof (proj1 (Forall_forall _ _) H _ (digit_in_digits10 _ Hf))
    as [H1 H2].
  destruct (neg && _); [exact H2|exact H1].
Qed.

Lemma numberToChinese_zero_integer_witness :
  numberToChinese (AmtStr (js "-0.5")) = Some (js "零圓伍角")
  /\ numberToChinese (AmtStr (js "0.05")) = Some (js "零圓零伍分")
  /\ numberToChinese (AmtStr (js "0.015")) = Some (js "零圓零壹分").
Proof.
  split; [|split].
  - rewrite (proj1 (numberToChinese_zero_integer (AmtStr (js "-0.5")) true
                      4503599627370496 (-53)
                      ltac:(vm_compute; reflexivity)
                      ltac:(vm_compute; reflexivity)
                      ltac:(vm_compute; reflexivity))).
    vm_compute. reflexivity.
  - rewrite (proj1 (numberToChinese_zero_integer (AmtStr (js "0.05")) false
                      7205759403792794 (-57)
                      ltac:(vm_compute; reflexivity)
                      ltac:(vm_compute; reflexivity)
                      ltac:(vm_compute; reflexivity))).
    vm_compute. reflexivity.
  - rewrite (proj1 (numberToChinese_zero_integer (AmtStr (js "0.015")) false
                      8646911284551352 (-59)
                      ltac:(vm_compute; reflexivity)
                      ltac:(vm_compute; reflexivity)
                      ltac:(vm_compute; reflexivity))).
    vm_compute. reflexivity.
Defined.

(** ** The print form *)

Lemma uniqueFrom_spec seen arr :
  NoDup (uniqueFrom seen arr)
  /\ forall k, k ∈ uniqueFrom seen arr <-> k ∈ arr /\ k ∉ seen.
Proof.
  revert seen. induction arr as [|v rest IH]; intros seen;
    cbn [uniqueFrom].
  - split; [constructor|]. intros k. rewrite elem_of_nil. tauto.
  - case_bool_decide as Hv.
    + destruct (IH seen) as [Hnd Hin]. split; [exact Hnd|].
      intros k. rewrite Hin, elem_of_cons. split; [tauto|].
      intros [[->|Hk] Hs]; [contradiction|tauto].
    + destruct (IH (v :: seen)) as [Hnd Hin]. split.
      * constructor; [|exact Hnd]. rewrite Hin, elem_of_cons. tauto.
      * intros k. rewrite !elem_of_cons, Hin, elem_of_cons.
        destruct (decide (k = v)) as [->|Hne]; tauto.
Qed.

(** X16: the variables offered by the print form have no duplicates and
    are exactly the variable keys of the fields that are neither empty
    nor blank. *)
Theorem uniqueVars_spec (objs : snapshot) :
  NoDup (uniqueVars objs)
  /\ forall k,
       k ∈ uniqueVars objs
       <-> exists o, o ∈ objs /\ variableKey o = Some k /\ k <> []
                     /\ trim k <> [].
Proof.
  unfold uniqueVars.
  destruct (uniqueFrom_spec []
              (map (fun o => toStr (variableKey o))
                 (filter (fun o => hasVariableKey o = true) objs)))
    as [Hnd Hin].
  split; [exact Hnd|]. intros k. rewrite Hin.
  change (map ?f ?l) with (f <$> l). rewrite list_elem_of_fmap.
  assert (Hkey : forall o,
            hasVariableKey o = true
            <-> exists k', variableKey o = Some k' /\ k' <> []
                           /\ trim k' <> []).
  { intros o. unfold hasVariableKey.
    destruct (variableKey o) as [[|c k']|]; cbn [truthy andb toStr].
    - split; [discriminate|]. intros (? & [= <-] & ? & _). contradiction.
    - rewrite negb_true_iff, bool_decide_eq_false. split.
      + intros H. exists (c :: k'). repeat split; [discriminate|exact H].
      + intros (? & [= <-] & _ & H). exact H.
    - split; [discriminate|]. intros (? & ? & _). discriminate. }
  split.
  - intros [(o & -> & Ho) _]. apply list_elem_of_filter in Ho as [Hk Ho].
    exists o. split; [exact Ho|].
    apply Hkey in Hk as (k' & E & H1 & H2). rewrite E. cbn [toStr]. tauto.
  - intros (o & Ho & E & H1 & H2). split; [|apply not_elem_of_nil].
    exists o. split; [rewrite E; reflexivity|].
    apply list_elem_of_filter. split; [|exact Ho].
    apply Hkey. eauto.
Qed.

Lemma getProp_None pv key :
  getProp pv key = None <-> pv !! key = None /\ inherited key = false.
Proof.
  unfold getProp. destruct (pv !! key).
  - split; [discriminate|]. intros [H _]. discriminate H.
  - destruct (inherited key).
    + split; [discriminate|]. intros [_ H]. discriminate H.
    + split; auto.
Qed.

Lemma ensureValues_lookup vars prev k :
  ensureValues vars prev !! k
  = match prev !! k with
    | Some v => Some v
    | None =>
        if bool_decide (k ∈ vars) && negb (inherited k) then Some []
        else None
    end.
Proof.
  unfold ensureValues. revert prev.
  induction vars as [|v vars IH]; intros prev; cbn [fold_left].
  - destruct (prev !! k); [reflexivity|].
    rewrite bool_decide_eq_false_2 by apply not_elem_of_nil. reflexivity.
  - rewrite IH. destruct (decide (v = k)) as [->|Hne].
    + destruct (decide (getProp prev k = None)) as [Hg|Hg].
      * rewrite (bool_decide_eq_true_2 _ Hg).
        apply getProp_None in Hg as [Hp Hi].
        rewrite lookup_insert_eq, Hp, Hi.
        rewrite bool_decide_eq_true_2 by (apply elem_of_cons; tauto).
        reflexivity.
      * rewrite (bool_decide_eq_false_2 _ Hg).
        destruct (prev !! k) eqn:Ek; [reflexivity|].
        destruct (inherited k) eqn:Hi.
        -- rewrite !andb_false_r. reflexivity.
        -- exfalso. apply Hg, getProp_None. split; assumption.
    + assert (Hm : bool_decide (k ∈ v :: vars) = bool_decide (k ∈ vars)).
      { apply bool_decide_ext. rewrite elem_of_cons.
        split; [|tauto]. intros [E|H]; [congruence|exact H]. }
      rewrite Hm. destruct (bool_decide (getProp prev v = None)).
      * rewrite lookup_insert_ne by exact Hne. reflexivity.
      * reflexivity.
Qed.

(** X17: making sure every variable has a value keeps each value already
    entered, gives the empty string to each variable without one, unless
    its name is inherited from [Object.prototype] (then [next[v]] is not
    [undefined] and no entry is made), and adds no other key. *)
Theorem ensureValues_spec (vars : list jsstr) (prev : gmap jsstr jsstr) :
  (forall k v, prev !! k = Some v -> ensureValues vars prev !! k = Some v)
  /\ (forall k, k ∈ vars -> prev !! k = None ->
                ensureValues vars prev !! k
                = if inherited k then None else Some [])
  /\ (forall k, k ∉ vars -> ensureValues vars prev !! k = prev !! k).
Proof.
  split; [|split].
  - intros k v H. rewrite ensureValues_lookup, H. reflexivity.
  - intros k Hk H. rewrite ensureValues_lookup, H.
    rewrite bool_decide_eq_true_2 by exact Hk.
    destruct (inherited k); reflexivity.
  - intros k Hk. rewrite ensureValues_lookup.
    destruct (prev !! k); [reflexivity|].
    rewrite bool_decide_eq_false_2 by exact Hk. reflexivity.
Qed.

Lemma ensureValues_spec_witness :
  ensureValues [js "name"; js "amount"; js "constructor"]
    {[ js "name" := js "Ann" ]} !! js "name" = Some (js "Ann")
  /\ ensureValues [js "name"; js "amount"; js "constructor"]
       {[ js "name" := js "Ann" ]} !! js "amount" = Some []
  /\ ensureValues [js "name"; js "amount"; js "constructor"]
       {[ js "name" := js "Ann" ]} !! js "constructor" = None.
Proof.
  pose proof (ensureValues_spec [js "name"; js "amount"; js "constructor"]
                {[ js "name" := js "Ann" ]}) as (H1 & H2 & _).
  split; [|split].
  - apply H1. vm_compute. reflexivity.
  - rewrite H2; [reflexivity| |vm_compute; reflexivity].
    apply elem_of_cons. right. apply elem_of_cons. left. reflexivity.
  - rewrite H2; [reflexivity| |vm_compute; reflexivity].
    apply elem_of_cons. right. apply elem_of_cons. right.
    apply elem_of_cons. left. reflexivity.
Defined.

Lemma uniqueVars_mem (objs : snapshot) (o : CanvasObject) (k : jsstr) :
  o ∈ objs -> variableKey o = Some k -> k <> [] -> trim k <> [] ->
  k ∈ uniqueVars objs.
Proof.
  intros Ho Ek Hk Ht. unfold uniqueVars.
  apply (proj2 (uniqueFrom_spec [] _)). split; [|apply not_elem_of_nil].
  change (map ?f ?l) with (f <$> l). apply list_elem_of_fmap.
  exists o. split; [rewrite Ek; reflexivity|].
  apply list_elem_of_filter. split; [|exact Ho].
  unfold hasVariableKey. rewrite Ek. cbn [toStr].
  destruct k as [|c k]; [contradiction|]. cbn [truthy andb].
  apply negb_true_iff, bool_decide_eq_false. exact Ht.
Qed.

(** X18: print mode with a variable left untouched: after the form has
    ensured the values of a template's variables and the user has typed
    a value for another key, a field with its own non-blank key has the
    empty string as binding, so its effective value is [rawValue], and a
    Variable field shows [rawValue] rather than its placeholder; but when
    the key is a name inherited from [Object.prototype] the form has made
    no entry and the effective value is the inherited member. *)
Theorem untouched_variable_uses_rawValue (now : jsdate) (objs : snapshot)
    (obj : CanvasObject) (key k' v : jsstr) :
  obj ∈ objs -> type obj = TextObj ->
  variableKey obj = Some key -> key <> [] -> trim key <> [] -> key <> k' ->
  let pv := handleChange k' v (ensureValues (uniqueVars objs) ∅) in
  if inherited key
  then pv !! key = None /\ effectiveValue pv obj = VProto key
  else pv !! key = Some []
       /\ effectiveValue pv obj = VStr (default [] (rawValue obj))
       /\ (logicType obj = Some VARIABLE ->
           resolvedText now pv obj
           = Some (VStr (default [] (rawValue obj)))).
Proof.
  intros Hin Ht Ek Hne Htrim Hk pv.
  assert (Hpv : pv !! key = if inherited key then None else Some []).
  { subst pv. unfold handleChange.
    rewrite lookup_insert_ne by congruence.
    rewrite ensureValues_lookup, lookup_empty.
    rewrite bool_decide_eq_true_2
      by exact (uniqueVars_mem objs obj key Hin Ek Hne Htrim).
    destruct (inherited key); reflexivity. }
  destruct key as [|c key]; [contradiction|].
  destruct (inherited (c :: key)) eqn:Hi.
  - split; [exact Hpv|].
    rewrite (effectiveValue_inherited pv obj); [rewrite Ek; reflexivity|].
    unfold readsInherited. rewrite Ek. cbn [toStr truthy andb].
    rewrite Hpv, Hi. rewrite bool_decide_eq_true_2 by reflexivity.
    reflexivity.
  - assert (Hr : readsInherited pv obj = false).
    { unfold readsInherited. rewrite Ek. cbn [toStr]. rewrite Hi.
      apply andb_false_r. }
    split; [exact Hpv|]. split.
    + rewrite (effectiveValue_spec _ _ Hr). unfold effectiveSpec.
      rewrite Ek, Hpv. reflexivity.
    + intros Hv. rewrite (resolve_variable now pv obj Ht Hv Hr), Ek, Hpv.
      reflexivity.
Qed.

Lemma untouched_variable_uses_rawValue_witness :
  resolvedText (JsDate 2024 0 15)
    (handleChange (js "amount") (js "12")
       (ensureValues
          (uniqueVars [sampleField (Some (js "name")) (js "Text") VARIABLE;
                       sampleField (Some (js "amount")) (js "7")
                         CURRENCY_NUM]) ∅))
    (sampleField (Some (js "name")) (js "Text") VARIABLE)
  = Some (VStr (js "Text")).
Proof.
  pose proof (untouched_variable_uses_rawValue (JsDate 2024 0 15)
                [sampleField (Some (js "name")) (js "Text") VARIABLE;
                 sampleField (Some (js "amount")) (js "7") CURRENCY_NUM]
                (sampleField (Some (js "name")) (js "Text") VARIABLE)
                (js "name") (js "amount") (js "12")
                ltac:(apply elem_of_cons; left; reflexivity)
                eq_refl eq_refl ltac:(discriminate)
                ltac:(vm_compute; discriminate)
                ltac:(vm_compute; discriminate)) as H.
  cbn zeta in H.
  change (inherited (js "name")) with false in H. cbv iota in H.
  exact (proj2 (proj2 H) eq_refl).
Defined.

(** ** Rendering order *)

Lemma insertBy_image (a : CanvasObject) (imgs texts : snapshot) :
  isImage a = true ->
  Forall (fun o => isImage o = true) imgs ->
  Forall (fun o => isImage o = false) texts ->
  insertBy zCompare a (imgs ++ texts) = imgs ++ a :: texts.
Proof.
  intros Ha Hi Ht. induction Hi as [|o imgs Ho _ IH]; cbn [app].
  - destruct Ht as [|t texts Ht _]; [reflexivity|].
    cbn [insertBy]. unfold zCompare. rewrite Ha, Ht. reflexivity.
  - cbn [insertBy]. unfold zCompare at 1. rewrite Ha, Ho. cbn.
    rewrite IH. reflexivity.
Qed.

Lemma insertBy_text (a : CanvasObject) (sorted : snapshot) :
  isImage a = false -> insertBy zCompare a sorted = sorted ++ [a].
Proof.
  intros Ha. induction sorted as [|o l IH]; [reflexivity|].
  cbn [insertBy app]. unfold zCompare at 1. rewrite Ha, IH.
  destruct (isImage o); reflexivity.
Qed.

Lemma sortBy_snoc {A} (cmp : A -> A -> Z) l a :
  sortBy cmp (l ++ [a]) = insertBy cmp a (sortBy cmp l).
Proof. unfold sortBy. rewrite fold_left_app. reflexivity. Qed.

(** X19: on the canvas and in the print view every image comes before
    every text field, and within the images and within the text fields
    the order of the collection is kept. *)
Theorem sortedObjects_images_first (objs : snapshot) :
  sortedObjects objs
  = filter (fun o => isImage o = true) objs
      ++ filter (fun o => isImage o = false) objs.
Proof.
  unfold sortedObjects. induction objs as [|a l IH] using rev_ind;
    [reflexivity|].
  rewrite sortBy_snoc, IH, !filter_app.
  assert (Hi : Forall (fun o => isImage o = true)
                 (filter (fun o => isImage o = true) l))
    by (apply Forall_forall; intros o Ho;
        apply list_elem_of_filter in Ho; tauto).
  assert (Ht : Forall (fun o => isImage o = false)
                 (filter (fun o => isImage o = false) l))
    by (apply Forall_forall; intros o Ho;
        apply list_elem_of_filter in Ho; tauto).
  destruct (isImage a) eqn:Ha.
  - rewrite (insertBy_image a _ _ Ha Hi Ht).
    rewrite (filter_cons_True _ a []) by exact Ha.
    rewrite (filter_cons_False _ a []) by (rewrite Ha; discriminate).
    rewrite !filter_nil, app_nil_r, <- app_assoc. reflexivity.
  - rewrite (insertBy_text a _ Ha).
    rewrite (filter_cons_False _ a []) by (rewrite Ha; discriminate).
    rewrite (filter_cons_True _ a []) by exact Ha.
    rewrite !filter_nil, app_nil_r, <- app_assoc. reflexivity.
Qed.

(** ** Local storage *)










Lemma find_filter_other (tid tid' : jsstr) (l : list Storage.Template) :
  tid' <> tid ->
  List.find (fun t => bool_decide (Storage.id t = tid'))
    (filter (fun t => Storage.id t <> tid) l)
  = List.find (fun t => bool_decide (Storage.id t = tid')) l.
Proof.
  intros Hne. induction l as [|a l IH]; [reflexivity|].
  destruct (decide (Storage.id a = tid)) as [E|E].
  - rewrite filter_cons_False by tauto. cbn [List.find].
    rewrite bool_decide_eq_false_2 by congruence. exact IH.
  - rewrite filter_cons_True by exact E. cbn [List.find].
    rewrite IH. reflexivity.
Qed.

Lemma find_filter_same (tid : jsstr) (l : list Storage.Template) :
  List.find (fun t => bool_decide (Storage.id t = tid))
    (filter (fun t => Storage.id t <> tid) l) = None.
Proof.
  induction l as [|a l IH]; [reflexivity|].
  destruct (decide (Storage.id a = tid)) as [E|E].
  - rewrite filter_cons_False by tauto. exact IH.
  - rewrite filter_cons_True by exact E. cbn [List.find].
    rewrite bool_decide_eq_false_2 by exact E. exact IH.
Qed.

Lemma existsb_find {A} (p : A -> bool) l :
  existsb p l = true <-> is_Some (List.find p l).
Proof.
  induction l as [|a l IH]; cbn.
  - split; [discriminate|]. intros [? ?]. discriminate.
  - destruct (p a); cbn; [split; eauto|exact IH].
Qed.

(** X22: deleting a template locally makes its id unknown to the local
    lookup and leaves the lookup of every other id as it was; it reports
    a local deletion exactly when the id was stored. *)
Theorem delete_then_find (tid : jsstr)
    (stored : option (list Storage.Template)) :
  let deleted := Storage.deleteLocal tid stored in
  Storage.findLocal tid (fst deleted) = None
  /\ (forall tid', tid' <> tid ->
        Storage.findLocal tid' (fst deleted) = Storage.findLocal tid' stored)
  /\ (snd deleted = true <-> is_Some (Storage.findLocal tid stored)).
Proof.
  unfold Storage.deleteLocal. destruct stored as [templates|]; cbn zeta.
  - destruct (existsb _ templates) eqn:Ex; cbn [fst snd].
    + unfold Storage.findLocal. cbn [mbind option_bind].
      split; [apply find_filter_same|].
      split; [intros tid' Hne; apply find_filter_other, Hne|].
      split; [intros _; apply existsb_find, Ex|reflexivity].
    + assert (Hn : List.find (fun t => bool_decide (Storage.id t = tid))
                     templates = None).
      { destruct (List.find _ templates) eqn:Ef; [|reflexivity].
        assert (existsb (fun t => bool_decide (Storage.id t = tid)) templates
                = true) by (apply existsb_find; rewrite Ef; eauto).
        congruence. }
      unfold Storage.findLocal. cbn [mbind option_bind]. rewrite Hn.
      split; [reflexivity|]. split; [reflexivity|].
      split; [discriminate|]. intros [? ?]. discriminate.
  - cbn [fst snd]. split; [reflexivity|]. split; [reflexivity|].
    split; [discriminate|]. intros [? H]. discriminate H.
Qed.



(** ** Well-formed English for amounts below a trillion *)

Lemma capitalised_join b u v :
  capitalised b u = true -> wellFormedWords v = true ->
  capitalised b (u ++ 32%N :: v) = true.
Proof.
  unfold wellFormedWords. intros Hu Hv. revert b Hu.
  induction u as [|c r IH]; intros b Hu.
  - cbn in Hu. apply negb_true_iff in Hu. subst b. exact Hv.
  - cbn [app capitalised] in *. destruct b.
    + apply andb_prop in Hu as [Hc Hr]. rewrite Hc. cbn [andb]. auto.
    + destruct (c =? 32)%N; [auto|].
      apply andb_prop in Hu as [Hc Hr]. rewrite Hc. cbn [andb]. auto.
Qed.

Lemma words_join u v :
  wellFormedWords u = true -> wellFormedWords v = true ->
  wellFormedWords (u ++ 32%N :: v) = true.
Proof. apply capitalised_join. Qed.

Lemma letters_not_white :
  Forall (fun c => isWhite c = false) (N.of_nat <$> seq 65 58).
Proof. apply (bool_decide_unpack _). vm_compute. exact I. Qed.

Lemma letter_not_white c :
  isUpper c || isLower c = true -> isWhite c = false.
Proof.
  intros H. apply (proj1 (Forall_forall _ _) letters_not_white).
  apply list_elem_of_fmap. exists (N.to_nat c).
  split; [symmetry; apply N2Nat.id|]. apply elem_of_seq.
  unfold isUpper, isLower in H.
  apply orb_prop in H as [H|H]; apply andb_prop in H as [H1 H2];
    apply N.leb_le in H1, H2; lia.
Qed.

Lemma trimStart_app_keep_all x y :
  x <> [] -> trimStart x = x -> trimStart (x ++ y) = x ++ y.
Proof.
  destruct x as [|c r]; [contradiction|]. intros _. cbn [trimStart app].
  destruct (isWhite c); [|reflexivity].
  intros H. exfalso.
  assert (Hl : (length (trimStart r) <= length r)%nat).
  { clear. induction r as [|d r IH]; cbn; [lia|].
    destruct (isWhite d); cbn; lia. }
  rewrite H in Hl. cbn in Hl. lia.
Qed.

Lemma capitalised_cons b c r :
  capitalised b (c :: r)
  = if b then isUpper c && capitalised false r
    else if (c =? 32)%N then capitalised true r
         else isLower c && capitalised false r.
Proof. reflexivity. Qed.

Lemma capitalised_rev b s :
  capitalised b s = true -> trimStart (rev s) = rev s.
Proof.
  revert b. induction s as [|c r IH]; intros b H; [reflexivity|].
  cbn [rev]. destruct r as [|d r'].
  - cbn [rev app trimStart]. cbn in H.
    assert (Hc : isUpper c || isLower c = true).
    { destruct b.
      - rewrite andb_true_r in H. rewrite H. reflexivity.
      - destruct (c =? 32)%N; [discriminate|].
        rewrite andb_true_r in H. rewrite H. apply orb_true_r. }
    rewrite (letter_not_white c Hc). reflexivity.
  - assert (Hr : exists b', capitalised b' (d :: r') = true).
    { rewrite capitalised_cons in H. destruct b.
      - apply andb_prop in H as [_ H]. eauto.
      - destruct (c =? 32)%N; [eauto|].
        apply andb_prop in H as [_ H]. eauto. }
    destruct Hr as [b' Hr].
    apply trimStart_app_keep_all; [|exact (IH b' Hr)].
    cbn [rev]. destruct (rev r'); discriminate.
Qed.

Lemma words_trim W :
  wellFormedWords W = true -> trim W = W /\ trim (W ++ [32%N]) = W.
Proof.
  intros H. pose proof (capitalised_rev true W H) as Hr.
  assert (Hs : forall y, trimStart (W ++ y) = W ++ y).
  { intros y. destruct W as [|c r]; [discriminate H|].
    cbn [app trimStart]. unfold wellFormedWords in H. cbn in H.
    apply andb_prop in H as [Hc _].
    rewrite (letter_not_white c) by (rewrite Hc; reflexivity).
    reflexivity. }
  unfold trim. split.
  - rewrite <- (app_nil_r W) at 1. rewrite Hs, app_nil_r, Hr.
    apply rev_involutive.
  - rewrite Hs, rev_app_distr. cbn [rev app trimStart].
    change (isWhite 32) with true. cbn iota. rewrite Hr.
    apply rev_involutive.
Qed.

(** The accumulated [result]: empty, or words followed by one space. *)
Lemma peelScale_words scale word res ip :
  0 < scale <= 1000000000 -> wellFormedWords word = true ->
  (res = [] \/ exists W, wellFormedWords W = true /\ res = W ++ [32%N]) ->
  0 <= ip < 1000 * scale ->
  exists res' ip',
    peelScale scale (32%N :: word ++ [32%N]) (res, Some ip)
    = (res', Some ip')
    /\ (res' = [] \/ exists W, wellFormedWords W = true
                               /\ res' = W ++ [32%N])
    /\ 0 <= ip' < scale
    /\ (res' = [] -> ip' = ip).
Proof.
  intros Hs Hw Hres Hip. unfold peelScale.
  destruct (Z.leb_spec scale ip) as [Hle|Hlt].
  - rewrite (floorDiv_exact ip scale)
      by (change (2 ^ 53) with 9007199254740992; lia).
    assert (Hg : 1 <= ip / scale <= 999).
    { split; [apply Z.div_le_lower_bound; lia|].
      assert (ip / scale < 1000)
        by (apply Z.div_lt_upper_bound; lia). lia. }
    pose proof (proj1 (Forall_forall _ _) convertGroup_table (ip / scale)
                  ltac:(apply elem_of_seqZ; lia)) as HG.
    eexists _, _. split; [reflexivity|].
    split; [|split; [apply Z.rem_bound_pos; lia|]].
    + right. exists (res ++ convertGroup (ip / scale) ++ 32%N :: word).
      split.
      * destruct Hres as [->|(W & HW & ->)].
        -- cbn [app]. apply words_join; assumption.
        -- rewrite <- app_assoc. cbn [app].
           apply words_join; [exact HW|]. apply words_join; assumption.
      * rewrite <- !app_assoc. reflexivity.
    + intros E. exfalso.
      destruct res; destruct (convertGroup (ip / scale)); discriminate.
  - eexists _, _. split; [reflexivity|]. split; [exact Hres|].
    split; [lia|reflexivity].
Qed.

Lemma centsClause_words W c :
  wellFormedWords W = true -> 0 <= c <= 99 ->
  wellFormedWords (W ++ js " Dollars" ++ centsClause c) = true.
Proof.
  intros HW Hc. unfold centsClause.
  change (js " Dollars") with (32%N :: js "Dollars"). cbn [app].
  destruct (Z.ltb_spec 0 c).
  - pose proof (proj1 (Forall_forall _ _) convertGroup_table c
                  ltac:(apply elem_of_seqZ; lia)) as HG.
    change (js " And ") with (32%N :: js "And" ++ [32%N]).
    change (js " Cents") with (32%N :: js "Cents").
    replace (W ++ 32%N :: js "Dollars"
               ++ (32%N :: js "And" ++ [32%N])
               ++ convertGroup c ++ 32%N :: js "Cents")
      with (W ++ 32%N :: (js "Dollars" ++ 32%N ::
                (js "And" ++ 32%N :: (convertGroup c ++ 32%N :: js "Cents"))))
      by (cbn [app]; rewrite <- ?app_assoc; reflexivity).
    repeat (apply words_join; [first [assumption|reflexivity]|]).
    reflexivity.
  - change (js " Only") with (32%N :: js "Only").
    replace (W ++ 32%N :: js "Dollars" ++ 32%N :: js "Only")
      with (W ++ 32%N :: (js "Dollars" ++ 32%N :: js "Only"))
      by reflexivity.
    repeat (apply words_join; [first [assumption|reflexivity]|]).
    reflexivity.
Qed.

(** X24: for every non-negative amount whose integer part, as toFixed(2)
    prints it, is between 1 and 999,999,999,999 numberToEnglish gives
    capitalised English words
    separated by single spaces: the words of the integer part, then
    "Dollars", then "Only" or "And ... Cents"; in particular the text
    "undefined" cannot occur. *)
Theorem numberToEnglish_well_formed (a : amount) (m : N) (e : Z) :
  parseFloat (amountToString a) = Fin false m e ->
  atLeast1e21 m e = false ->
  1 <= integerOf false m e < 1000000000000 ->
  wellFormedWords (numberToEnglish a) = true
  /\ (exists W,
         wellFormedWords W = true
         /\ numberToEnglish a
            = W ++ js " Dollars" ++ centsClause (centsOf m e))
  /\ nearestHundredth m e (roundHundredths m e).
Proof.
  intros Hp Hl Hi.
  cut (wellFormedWords (numberToEnglish a) = true
       /\ exists W,
            wellFormedWords W = true
            /\ numberToEnglish a
               = W ++ js " Dollars" ++ centsClause (centsOf m e)).
  { intros [H1 H2]. split; [exact H1|]. split; [exact H2|].
    apply roundHundredths_nearest. }
  assert (Hc : m <> 0%N).
  { intros ->. unfold integerOf in Hi.
    rewrite roundHundredths_zero in Hi. vm_compute in Hi.
    destruct Hi as [Hi _]. apply Hi. reflexivity. }
  assert (Hcents : 0 <= centsOf m e <= 99).
  { unfold centsOf.
    assert (Hm : (roundHundredths m e mod 100 < 100)%N)
      by (apply N.mod_lt; discriminate).
    revert Hm. generalize (roundHundredths m e mod 100)%N. lia. }
  rewrite (numberToEnglish_finite a false m e Hp Hc Hl).
  revert Hi Hcents. generalize (integerOf false m e) (centsOf m e).
  intros z c Hz Hcents.
  assert (Hbody : exists W,
            wellFormedWords W = true
            /\ englishBody (Some z) (Some c)
               = W ++ js " Dollars" ++ centsClause c).
  { unfold englishBody.
    destruct (peelScale_words 1000000000 (js "Billion") [] z)
      as (r1 & z1 & E1 & H1 & Hz1 & Hn1);
      [lia|reflexivity|left; reflexivity|lia|].
    change (js " Billion ") with (32%N :: js "Billion" ++ [32%N]).
    rewrite E1.
    destruct (peelScale_words 1000000 (js "Million") r1 z1)
      as (r2 & z2 & E2 & H2 & Hz2 & Hn2); [lia|reflexivity|exact H1|lia|].
    change (js " Million ") with (32%N :: js "Million" ++ [32%N]).
    rewrite E2.
    destruct (peelScale_words 1000 (js "Thousand") r2 z2)
      as (r3 & z3 & E3 & H3 & Hz3 & Hn3); [lia|reflexivity|exact H2|lia|].
    change (js " Thousand ") with (32%N :: js "Thousand" ++ [32%N]).
    rewrite E3. cbn [gtZero].
    change (default 0 (Some z3)) with z3. change (default 0 (Some c)) with c.
    assert (HW : exists W,
              wellFormedWords W = true
              /\ trim (if 0 <? z3 then r3 ++ convertGroup z3 else r3) = W).
    { destruct (Z.ltb_spec 0 z3) as [Hpos|Hzero].
      - pose proof (proj1 (Forall_forall _ _) convertGroup_table z3
                      ltac:(apply elem_of_seqZ; lia)) as HG.
        destruct H3 as [->|(W & HW & ->)].
        + exists (convertGroup z3). split; [exact HG|].
          apply words_trim, HG.
        + exists (W ++ 32%N :: convertGroup z3).
          assert (wellFormedWords (W ++ 32%N :: convertGroup z3) = true)
            by (apply words_join; assumption).
          split; [assumption|]. rewrite <- app_assoc. cbn [app].
          apply words_trim. assumption.
      - destruct H3 as [->|(W & HW & ->)].
        + exfalso. specialize (Hn3 eq_refl).
          assert (r2 = []).
          { destruct H2 as [->|(W2 & _ & ->)]; [reflexivity|].
            exfalso. unfold peelScale in E3.
            destruct (1000 <=? z2); injection E3 as E3 _;
              [destruct W2; discriminate|destruct W2; discriminate]. }
          subst r2. specialize (Hn2 eq_refl).
          assert (r1 = []).
          { destruct H1 as [->|(W1 & _ & ->)]; [reflexivity|].
            exfalso. unfold peelScale in E2.
            destruct (1000000 <=? z1); injection E2 as E2 _;
              [destruct W1; discriminate|destruct W1; discriminate]. }
          subst r1. specialize (Hn1 eq_refl). lia.
        + exists W. split; [exact HW|]. apply words_trim, HW. }
    destruct HW as (W & HW & ->). exists W. split; [exact HW|].
    unfold centsClause. destruct (0 <? c); rewrite <- ?app_assoc;
      reflexivity. }
  destruct Hbody as (W & HW & ->).
  split; [apply centsClause_words; assumption|].
  exists W. split; [exact HW|reflexivity].
Qed.

Lemma numberToEnglish_well_formed_witness :
  wellFormedWords (numberToEnglish (AmtStr (js "999999999999.995"))) = true
  /\ numberToEnglish (AmtStr (js "0.995"))
     = js " Dollars And Ninety Nine Cents".
Proof.
  split; [|vm_compute; reflexivity].
  apply (numberToEnglish_well_formed (AmtStr (js "999999999999.995"))
           8191999999999959 (-13));
    [vm_compute; reflexivity|vm_compute; reflexivity|].
  vm_compute. split; [discriminate|reflexivity].
Defined.

(** ** The date formatter *)





(** ** Concrete instances *)

Lemma uniqueVars_spec_witness :
  js "amount"
    ∈ uniqueVars [sampleField (Some (js "amount")) (js "7") CURRENCY_NUM;
                  sampleField (Some (js "   ")) (js "x") VARIABLE;
                  sampleField (Some (js "amount")) (js "8") CURRENCY_ENG]
  /\ uniqueVars [sampleField (Some (js "amount")) (js "7") CURRENCY_NUM;
                 sampleField (Some (js "   ")) (js "x") VARIABLE;
                 sampleField (Some (js "amount")) (js "8") CURRENCY_ENG]
     = [js "amount"].
Proof.
  split; [|vm_compute; reflexivity].
  apply (proj2 (uniqueVars_spec _)).
  exists (sampleField (Some (js "amount")) (js "7") CURRENCY_NUM).
  split; [apply elem_of_cons; left; reflexivity|].
  split; [reflexivity|]. split; vm_compute; discriminate.
Defined.


Lemma delete_then_find_witness :
  snd (Storage.deleteLocal (js "t1")
         (Some [Storage.MkTemplate (js "t1") None (js "Cheque") []
                  (Storage.MkSettings (num "794") (num "1123")
                     Storage.mm (num "210") (num "297")
                     (num "96"))
                  false (js "")]))
  = true.
Proof.
  apply (proj2 (proj2 (delete_then_find (js "t1") _))).
  vm_compute. eauto.
Defined.
